(** * A word-dictionary manager: the store and its suggestion engine

    Shallow embedding of [agentv3.py] and [agent_ai_gen.py], and of what
    they call in [difflib] and [json].

    - A Python [str] is a [string]; its characters are the code points
      below 256.  Equality, ordering ([<] on [str] compares code points
      lexicographically) and [startswith] are character-wise.
    - A Python [dict] is an association list in insertion order with
      unique keys.
    - A method that mutates [self] returns its result paired with the new
      object; a method that can raise returns a [result].
    - The files are a map from paths to the text they hold; [load] reads
      it and [save] returns the files it leaves. *)

From Stdlib Require Import Ascii String QArith DecimalString DecimalPos.
From stdpp Require Import gmultiset.
From stdpp Require Import base option list strings sorting gmap.

Open Scope string_scope.

(** ** Strings *)

Module Str.

(** [str.lower] on one code point below 256: the letters [A-Z] and the
    Latin-1 capitals U+00C0..U+00DE (U+00D7, the multiplication sign,
    is not a letter) move up by 32, everything else stays. *)
Definition lower_char (c : ascii) : ascii :=
  let n := nat_of_ascii c in
  if ((65 <=? n)%nat && (n <=? 90)%nat)
     || ((192 <=? n)%nat && (n <=? 222)%nat && negb (n =? 215)%nat)
  then ascii_of_nat (n + 32)%nat
  else c.

Fixpoint lower (s : string) : string :=
  match s with
  | EmptyString => EmptyString
  | String c s' => String (lower_char c) (lower s')
  end.

(** [k.startswith(p)] *)
Definition startswith (k p : string) : bool := String.prefix p k.

(** Truth value of a [str]: only the empty string is false. *)
Definition truthy (s : string) : bool :=
  match s with EmptyString => false | String _ _ => true end.

End Str.

(** ** Dictionaries *)

Module PyDict.
Section Dict.
Context {V : Type}.

Definition dict : Type := list (string * V).

(** [d.keys()], [d.items()] iterate in insertion order. *)
Definition keys (d : dict) : list string := d.*1.
Definition items (d : dict) : list (string * V) := d.

(** [d.get(k)] *)
Fixpoint get (k : string) (d : dict) : option V :=
  match d with
  | [] => None
  | (k', v) :: d' => if String.eqb k' k then Some v else get k d'
  end.

(** [k in d] *)
Definition contains (k : string) (d : dict) : bool :=
  match get k d with Some _ => true | None => false end.

(** [d[k] = v]: an existing key keeps its position, a new key goes last. *)
Fixpoint set (k : string) (v : V) (d : dict) : dict :=
  match d with
  | [] => [(k, v)]
  | (k', v') :: d' =>
      if String.eqb k' k then (k', v) :: d' else (k', v') :: set k v d'
  end.

(** [del d[k]] for a key that is present (every call site tests
    [k in d] first). *)
Fixpoint del (k : string) (d : dict) : dict :=
  match d with
  | [] => []
  | (k', v') :: d' =>
      if String.eqb k' k then d' else (k', v') :: del k d'
  end.

(** The representation invariant: keys are unique. *)
Definition wf (d : dict) : Prop := NoDup (keys d).

End Dict.
Global Arguments dict : clear implicits.
End PyDict.

(** ** Exceptions *)

Inductive exn : Type :=
  | ValueError
  | FileNotFoundError
  | JSONDecodeError
  | OSError
  | RecursionError
  | UnicodeDecodeError.

Global Instance exn_eq_dec : EqDecision exn.
Proof. solve_decision. Defined.

(** What a call does: it returns, it raises, or the model has no answer
    (a document that names a character above U+00FF). *)
Inductive result (A : Type) : Type :=
  | Ok (x : A)
  | Raise (e : exn)
  | Unmodelled.
Global Arguments Ok {A} x.
Global Arguments Raise {A} e.
Global Arguments Unmodelled {A}.

Global Instance result_bind : MBind result := λ A B f r,
  match r with
  | Ok x => f x
  | Raise e => Raise e
  | Unmodelled => Unmodelled
  end.

(** [try: body except e: handler] *)
Definition try_except {A} (body : result A) (e : exn) (handler : result A)
  : result A :=
  match body with
  | Raise e' => if decide (e' = e) then handler else Raise e'
  | r => r
  end.

(** ** [difflib]: what [suggest] calls

    [SequenceMatcher()] is built with [isjunk=None] and [autojunk=True];
    [get_close_matches] sets [seq2] to the word once and [seq1] to each
    possibility.  A ratio is the float [2.0 * matches / length]; it is
    kept here as the rational it rounds, which orders and compares with
    [cutoff] the same way for sequences shorter than 2^25 elements. *)

Module Difflib.

(** [Match(a, b, size)] *)
Definition Match : Type := nat * nat * nat.

Definition block_size (m : Match) : nat := m.2.

(** [__chain_b]: the indices of each element of [b], in increasing
    order; with 200 elements or more, the elements that occur more
    than [n // 100 + 1] times are dropped ("popular"). *)
Definition chain_b (b : list ascii) : gmap ascii (list nat) :=
  let b2j :=
    foldl (λ (m : gmap ascii (list nat)) (ie : nat * ascii),
             <[ie.2 := (default [] (m !! ie.2) ++ [ie.1])%list]> m)
          ∅ (imap pair b) in
  let n := length b in
  if (200 <=? n)%nat then
    let ntest := (n / 100 + 1)%nat in
    filter (λ kv : ascii * list nat, (length kv.2 ≤ ntest)%nat) b2j
  else b2j.

(** [isjunk] is [None]: [bjunk] stays empty. *)
Definition isbjunk (c : ascii) : bool := false.

Section SequenceMatcher.
Variables a b : list ascii.
Variable b2j : gmap ascii (list nat).

(** [j2lenget(j-1, 0)]; the key [-1] is never present. *)
Definition j2lenget_pred (j2len : gmap nat nat) (j : nat) : nat :=
  match j with
  | O => 0
  | S j' => default 0 (j2len !! j')
  end%nat.

(** The inner loop of [find_longest_match] over [b2j.get(a[i], [])].
    [i - k + 1] is written [i + 1 - k]: [k] never exceeds [i + 1]. *)
Fixpoint scan_row (blo bhi i : nat) (j2len : gmap nat nat)
    (js : list nat) (newj2len : gmap nat nat) (best : Match)
  : gmap nat nat * Match :=
  match js with
  | [] => (newj2len, best)
  | j :: js' =>
      if (j <? blo)%nat then scan_row blo bhi i j2len js' newj2len best
      else if (bhi <=? j)%nat then (newj2len, best)
      else
        let k := (j2lenget_pred j2len j + 1)%nat in
        let newj2len := <[j := k]> newj2len in
        let best :=
          if (block_size best <? k)%nat then ((i + 1 - k)%nat, (j + 1 - k)%nat, k)
          else best in
        scan_row blo bhi i j2len js' newj2len best
  end.

(** The outer loop, [for i in range(alo, ahi)]. *)
Fixpoint scan_rows (blo bhi : nat) (rows : list nat)
    (j2len : gmap nat nat) (best : Match) : Match :=
  match rows with
  | [] => best
  | i :: rows' =>
      let js := match a !! i with
                | Some c => default [] (b2j !! c)
                | None => []
                end in
      let '(newj2len, best) := scan_row blo bhi i j2len js ∅ best in
      scan_rows blo bhi rows' newj2len best
  end.

(** [a[i] == b[j]] for indices in range. *)
Definition same_at (i j : nat) : bool :=
  match a !! i, b !! j with
  | Some x, Some y => bool_decide (x = y)
  | _, _ => false
  end.

Definition junk_at (j : nat) : bool :=
  match b !! j with Some y => isbjunk y | None => false end.

(** The loops that grow the match to the left, over elements that are
    junk ([junk = true]) or not junk ([junk = false]). *)
Fixpoint extend_left (junk : bool) (alo blo besti bestj bestsize : nat)
    {struct besti} : Match :=
  match besti, bestj with
  | S i', S j' =>
      if (alo <? besti)%nat && (blo <? bestj)%nat
         && Bool.eqb (junk_at j') junk && same_at i' j'
      then extend_left junk alo blo i' j' (bestsize + 1)%nat
      else (besti, bestj, bestsize)
  | _, _ => (besti, bestj, bestsize)
  end.

(** The loops that grow the match to the right; at most
    [ahi - (besti + bestsize)] rounds can pass the first test. *)
Fixpoint extend_right (rounds : nat) (junk : bool)
    (ahi bhi besti bestj bestsize : nat) : Match :=
  match rounds with
  | O => (besti, bestj, bestsize)
  | S rounds' =>
      if (besti + bestsize <? ahi)%nat && (bestj + bestsize <? bhi)%nat
         && Bool.eqb (junk_at (bestj + bestsize)) junk
         && same_at (besti + bestsize) (bestj + bestsize)
      then extend_right rounds' junk ahi bhi besti bestj (bestsize + 1)%nat
      else (besti, bestj, bestsize)
  end.

Definition find_longest_match (alo ahi blo bhi : nat) : Match :=
  let '(besti, bestj, bestsize) :=
    scan_rows blo bhi (seq alo (ahi - alo)) ∅ (alo, blo, 0%nat) in
  let '(besti, bestj, bestsize) :=
    extend_left false alo blo besti bestj bestsize in
  let '(besti, bestj, bestsize) :=
    extend_right (ahi - (besti + bestsize)) false
      ahi bhi besti bestj bestsize in
  let '(besti, bestj, bestsize) :=
    extend_left true alo blo besti bestj bestsize in
  extend_right (ahi - (besti + bestsize)) true
    ahi bhi besti bestj bestsize.

(** The work list of [get_matching_blocks]; [queue.pop()] takes the
    entry appended last, kept here at the head.  Every round removes an
    entry or replaces it by entries that cover fewer elements of [a],
    so [rounds] bounds the loop. *)
Definition region : Type := nat * nat * nat * nat.

Fixpoint blocks_loop (rounds : nat) (queue : list region)
    (matching_blocks : list Match) : list Match :=
  match rounds, queue with
  | S rounds', (alo, ahi, blo, bhi) :: queue' =>
      let '(i, j, k) := find_longest_match alo ahi blo bhi in
      if (0 <? k)%nat then
        let queue1 :=
          if (alo <? i)%nat && (blo <? j)%nat
          then (alo, i, blo, j) :: queue' else queue' in
        let queue2 :=
          if (i + k <? ahi)%nat && (j + k <? bhi)%nat
          then (i + k, ahi, j + k, bhi)%nat :: queue1 else queue1 in
        blocks_loop rounds' queue2 (matching_blocks ++ [(i, j, k)])
      else blocks_loop rounds' queue' matching_blocks
  | _, _ => matching_blocks
  end.

(** Rounds that a work list can still take. *)
Definition rounds_of (queue : list region) : nat :=
  sum_list_with (λ r : region, 2 * (r.1.1.2 - r.1.1.1) + 1)%nat queue.

(** Comparison of [Match] tuples, for [matching_blocks.sort()]. *)
Definition match_le (x y : Match) : Prop :=
  (x.1.1 < y.1.1 ∨ x.1.1 = y.1.1 ∧
     (x.1.2 < y.1.2 ∨ x.1.2 = y.1.2 ∧ x.2 ≤ y.2))%nat.

Global Instance match_le_dec : RelDecision match_le.
Proof. intros x y. unfold match_le. apply _. Defined.

(** The pass that merges adjacent blocks. *)
Fixpoint collapse (i1 j1 k1 : nat) (blocks : list Match) : list Match :=
  match blocks with
  | [] => if (0 <? k1)%nat then [(i1, j1, k1)] else []
  | (i2, j2, k2) :: blocks' =>
      if bool_decide (i1 + k1 = i2)%nat && bool_decide (j1 + k1 = j2)%nat
      then collapse i1 j1 (k1 + k2)%nat blocks'
      else (if (0 <? k1)%nat then [(i1, j1, k1)] else [])
             ++ collapse i2 j2 k2 blocks'
  end%list.

Definition get_matching_blocks : list Match :=
  let la := length a in
  let lb := length b in
  let queue := [(0, la, 0, lb)%nat] in
  let matching_blocks := blocks_loop (rounds_of queue) queue [] in
  let matching_blocks := merge_sort match_le matching_blocks in
  let non_adjacent := collapse 0 0 0 matching_blocks in
  (non_adjacent ++ [(la, lb, 0%nat)])%list.

(** [_calculate_ratio] *)
Definition _calculate_ratio (matches length : nat) : Q :=
  if (length =? 0)%nat then 1%Q
  else Qmake (2 * Z.of_nat matches) (Pos.of_nat length).

Definition matches : nat := sum_list_with block_size get_matching_blocks.

Definition ratio : Q :=
  _calculate_ratio matches (length a + length b).

(** [quick_ratio]: [fullbcount] counts the elements of [b]; [avail]
    is how many of each are still unmatched (it may go negative). *)
Definition fullbcount : gmap ascii Z :=
  foldl (λ (m : gmap ascii Z) elt, <[elt := (default 0 (m !! elt) + 1)%Z]> m)
        ∅ b.

Fixpoint quick_loop (elts : list ascii) (avail : gmap ascii Z)
    (matches : nat) : nat :=
  match elts with
  | [] => matches
  | elt :: elts' =>
      let numb := match avail !! elt with
                  | Some n => n
                  | None => default 0%Z (fullbcount !! elt)
                  end in
      let avail := <[elt := (numb - 1)%Z]> avail in
      quick_loop elts' avail
        (if (0 <? numb)%Z then (matches + 1)%nat else matches)
  end.

Definition quick_ratio : Q :=
  _calculate_ratio (quick_loop a ∅ 0%nat) (length a + length b).

Definition real_quick_ratio : Q :=
  _calculate_ratio (length a `min` length b) (length a + length b).

End SequenceMatcher.

(** Order of the [(score, x)] tuples. *)
Definition scored_le (p q : Q * string) : Prop :=
  if Qeq_bool p.1 q.1 then String.le p.2 q.2 else Qle_bool p.1 q.1 = true.

Global Instance scored_le_dec : RelDecision scored_le.
Proof. intros p q. unfold scored_le. destruct (Qeq_bool _ _); apply _. Defined.

(** [heapq.nlargest(n, result)] is [sorted(result, reverse=True)[:n]]. *)
Definition nlargest (n : nat) (l : list (Q * string)) : list (Q * string) :=
  take n (merge_sort (flip scored_le) l).

Definition get_close_matches (word : string) (possibilities : list string)
    (n : Z) (cutoff : Q) : result (list string) :=
  if negb (0 <? n)%Z then Raise ValueError
  else if negb (Qle_bool 0 cutoff && Qle_bool cutoff 1) then Raise ValueError
  else
    let seq2 := list_ascii_of_string word in
    let b2j := chain_b seq2 in
    let result :=
      List.flat_map
        (λ x,
           let seq1 := list_ascii_of_string x in
           if Qle_bool cutoff (real_quick_ratio seq1 seq2)
              && Qle_bool cutoff (quick_ratio seq1 seq2)
              && Qle_bool cutoff (ratio seq1 seq2 b2j)
           then [(ratio seq1 seq2 b2j, x)] else [])
        possibilities in
    let result := nlargest (Z.to_nat n) result in
    Ok (result.*2).

End Difflib.

(** ** [agentv3.py] *)

Module AgentV3.
Import PyDict.

Definition BUILT_IN_DICT : dict string :=
  [ ("algorithm", "A step-by-step procedure for calculations or problem-solving.");
    ("binary", "A system using two states often represented as 0 and 1.");
    ("cache", "A hardware or software component that stores data so future requests for that data can be served faster.");
    ("dictionary", "A data structure that maps keys to values; also a reference book of words and meanings.");
    ("example", "A representative form or pattern used to illustrate a rule.");
    ("function", "A named section of a program that performs a specific task.") ].

Record DictionaryAgent : Type := mkAgent { data : dict string }.

Definition default : DictionaryAgent := mkAgent BUILT_IN_DICT.

Section Methods.
(** [str.lower] is the interpreter's; the methods are read over any
    such function, [Str.lower] being the one of this model's strings. *)
Variable lower : string → string.

(** The loop of [define]: the value of the first key whose lower-cased
    form is [key]. *)
Fixpoint define_scan (key : string) (its : list (string * string))
  : option string :=
  match its with
  | [] => None
  | (k, v) :: its' =>
      if String.eqb (lower k) key then Some v else define_scan key its'
  end.

Definition define (word : string) (case_sensitive : bool)
    (self : DictionaryAgent) : option string :=
  let key := if case_sensitive then word else lower word in
  if case_sensitive then get key (data self)
  else define_scan key (items (data self)).

Definition add (word definition : string) (overwrite : bool)
    (self : DictionaryAgent) : bool * DictionaryAgent :=
  if contains word (data self) && negb overwrite then (false, self)
  else (true, mkAgent (set word definition (data self))).

(** The loop of [remove] over the snapshot [list(self.data.keys())]. *)
Fixpoint remove_scan (word : string) (ks : list string)
    (self : DictionaryAgent) : bool * DictionaryAgent :=
  match ks with
  | [] => (false, self)
  | k :: ks' =>
      if String.eqb (lower k) (lower word)
      then (true, mkAgent (del k (data self)))
      else remove_scan word ks' self
  end.

Definition remove (word : string) (self : DictionaryAgent)
  : bool * DictionaryAgent :=
  if contains word (data self)
  then (true, mkAgent (del word (data self)))
  else remove_scan word (keys (data self)) self.

(** [sorted] on a list of [str]: the order is total and equal strings
    are the same string, so every sorting algorithm gives this list. *)
Definition sorted (l : list string) : list string :=
  merge_sort String.le l.

Definition list_ (prefix : option string) (self : DictionaryAgent)
  : list string :=
  let keys := sorted (keys (data self)) in
  match prefix with
  | Some p =>
      if Str.truthy p
      then List.filter (λ k, Str.startswith k p) keys
      else keys
  | None => keys
  end.

End Methods.

Definition suggest (query : string) (max_results : Z)
    (self : DictionaryAgent) : result (list string) :=
  let keys := keys (data self) in
  Difflib.get_close_matches query keys max_results (Qmake 4 10).

End AgentV3.

(** ** [json]: what [load] and [save] call

    [json.load(f)] is [json.loads(f.read())] and [json.dump(obj, f, ...)]
    writes [json.dumps(obj, ...)]; a document is the text of the file. *)

Module Json.
Import PyDict.

(** The objects [json.loads] builds. A float is kept as its lexeme. *)
#[warnings="-register-all"]
Inductive pyval : Type :=
  | PNone
  | PBool (b : bool)
  | PInt (z : Z)
  | PFloat (lexeme : string)
  | PStr (s : string)
  | PList (l : list pyval)
  | PDict (d : list (string * pyval)).

(** What the interpreter that runs the program decides.
    [int_max_str_digits] is [sys.get_int_max_str_digits()], 4300 unless
    it was configured, 0 for no limit.  [recursion_room] is how many
    containers the decoder may enter inside the outermost one before
    the recursion limit stops it; it depends on [sys.getrecursionlimit()]
    and on how deep in the call stack the decoder is called, and the
    outermost container is always entered: the decoder is not called
    with the stack exhausted.  [str_other] is [str] on a float, a list
    or a dict, which goes through [repr]; its text plays no part
    here. *)
Record Interpreter : Type := mkInterpreter {
  int_max_str_digits : nat;
  recursion_room : nat;
  str_other : pyval → string
}.

Definition dquote : ascii := "034"%char.
Definition backslash : ascii := "\"%char.

(** *** Decoding *)

(** [WHITESPACE]: space, tab, line feed, carriage return *)
Definition is_ws (c : ascii) : bool :=
  Ascii.eqb c " " || Ascii.eqb c "009" || Ascii.eqb c "010"
  || Ascii.eqb c "013".

Fixpoint skip_ws (s : string) : string :=
  match s with
  | String c s' => if is_ws c then skip_ws s' else s
  | EmptyString => EmptyString
  end.

(** [BACKSLASH] *)
Definition unescape (esc : ascii) : option ascii :=
  if Ascii.eqb esc dquote then Some dquote
  else if Ascii.eqb esc backslash then Some backslash
  else if Ascii.eqb esc "/" then Some "/"%char
  else if Ascii.eqb esc "b" then Some "008"%char
  else if Ascii.eqb esc "f" then Some "012"%char
  else if Ascii.eqb esc "n" then Some "010"%char
  else if Ascii.eqb esc "r" then Some "013"%char
  else if Ascii.eqb esc "t" then Some "009"%char
  else None.

Definition hex_value (c : ascii) : option nat :=
  let n := nat_of_ascii c in
  if (48 <=? n)%nat && (n <=? 57)%nat then Some (n - 48)%nat
  else if (97 <=? n)%nat && (n <=? 102)%nat then Some (n - 87)%nat
  else if (65 <=? n)%nat && (n <=? 70)%nat then Some (n - 55)%nat
  else None.

(** The code point of the four hex digits of a [\uXXXX] escape. *)
Definition decode_uXXXX (h1 h2 h3 h4 : ascii) : option nat :=
  match hex_value h1, hex_value h2, hex_value h3, hex_value h4 with
  | Some a, Some b, Some c, Some d =>
      Some (((a * 16 + b) * 16 + c) * 16 + d)%nat
  | _, _, _, _ => None
  end.

(** [scanstring(s, end, strict=True)], from just after the opening
    quote: the decoded string and the text after the closing quote. *)
Fixpoint scanstring (s : string) : result (string * string) :=
  match s with
  | EmptyString => Raise JSONDecodeError
  | String c rest =>
      if Ascii.eqb c dquote then Ok (EmptyString, rest)
      else if Ascii.eqb c backslash then
        match rest with
        | EmptyString => Raise JSONDecodeError
        | String esc rest' =>
            if Ascii.eqb esc "u" then
              match rest' with
              | String h1 (String h2 (String h3 (String h4 rest''))) =>
                  match decode_uXXXX h1 h2 h3 h4 with
                  | None => Raise JSONDecodeError
                  | Some uni =>
                      if (uni <? 256)%nat then
                        '(str, r) ← scanstring rest'';
                        Ok (String (ascii_of_nat uni) str, r)
                      else Unmodelled
                  end
              | _ => Raise JSONDecodeError
              end
            else
              match unescape esc with
              | Some ch =>
                  '(str, r) ← scanstring rest'; Ok (String ch str, r)
              | None => Raise JSONDecodeError
              end
        end
      else if (nat_of_ascii c <? 32)%nat then Raise JSONDecodeError
      else '(str, r) ← scanstring rest; Ok (String c str, r)
  end.

Definition is_digit (c : ascii) : bool :=
  (48 <=? nat_of_ascii c)%nat && (nat_of_ascii c <=? 57)%nat.

(** The longest run of digits at the head of [s], and what follows. *)
Fixpoint span_digits (s : string) : string * string :=
  match s with
  | String c r =>
      if is_digit c then
        let '(d, r') := span_digits r in (String c d, r')
      else (EmptyString, s)
  | EmptyString => (EmptyString, EmptyString)
  end.

(** [NUMBER_RE], group 1: an optional minus, then 0 or a digit from 1
    to 9 followed by digits *)
Definition match_integer (s : string) : option (string * string) :=
  let '(sign, s1) :=
    match s with
    | String c r => if Ascii.eqb c "-" then ("-", r) else (EmptyString, s)
    | EmptyString => (EmptyString, s)
    end in
  match s1 with
  | String c r =>
      if Ascii.eqb c "0" then Some (sign ++ "0", r)
      else if is_digit c then
        let '(d, r') := span_digits r in Some (sign ++ String c d, r')
      else None
  | EmptyString => None
  end.

(** Group 2, optional: a dot and one digit or more *)
Definition match_frac (s : string) : string * string :=
  match s with
  | String c r =>
      if Ascii.eqb c "." then
        match span_digits r with
        | (EmptyString, _) => (EmptyString, s)
        | (d, r') => (String "." d, r')
        end
      else (EmptyString, s)
  | EmptyString => (EmptyString, s)
  end.

(** Group 3, optional: e or E, an optional sign, one digit or more *)
Definition match_exp (s : string) : string * string :=
  match s with
  | String e r =>
      if Ascii.eqb e "e" || Ascii.eqb e "E" then
        let '(sign, r1) :=
          match r with
          | String c r' =>
              if Ascii.eqb c "+" then ("+", r')
              else if Ascii.eqb c "-" then ("-", r')
              else (EmptyString, r)
          | EmptyString => (EmptyString, r)
          end in
        match span_digits r1 with
        | (EmptyString, _) => (EmptyString, s)
        | (d, r2) => (String e (sign ++ d), r2)
        end
      else (EmptyString, s)
  | EmptyString => (EmptyString, s)
  end.

(** [int(integer)] for the text group 1 matched. *)
Definition int_of_digits (d : string) : Z :=
  fold_left (λ acc c, acc * 10 + Z.of_nat (nat_of_ascii c - 48))%Z
            (list_ascii_of_string d) 0%Z.

Definition parse_int (integer : string) : Z :=
  match integer with
  | String c d =>
      if Ascii.eqb c "-" then (- int_of_digits d)%Z
      else int_of_digits integer
  | EmptyString => int_of_digits integer
  end.

(** The digits of the text group 1 matched, without its sign. *)
Definition digits_of (integer : string) : string :=
  match integer with
  | String c d => if Ascii.eqb c "-" then d else integer
  | EmptyString => integer
  end.

Section Decoder.
Variable py : Interpreter.

(** What [int] refuses: more digits than the limit, when there is a
    limit and there are more than 640 digits, the length below which
    the limit is not looked at. *)
Definition too_many_digits (integer : string) : bool :=
  let digits := String.length (digits_of integer) in
  (640 <? digits)%nat && (0 <? int_max_str_digits py)%nat
  && (int_max_str_digits py <? digits)%nat.

(** [NUMBER_RE.match] and the conversion of what it matched: [float]
    of the whole text when there is a fraction or an exponent, [int] of
    group 1 otherwise, which raises [ValueError] beyond the limit on
    digits. *)
Definition match_number (s : string) : option (result (pyval * string)) :=
  match match_integer s with
  | None => None
  | Some (integer, r) =>
      let '(frac, r1) := match_frac r in
      let '(exp, r2) := match_exp r1 in
      match frac, exp with
      | EmptyString, EmptyString =>
          if too_many_digits integer then Some (Raise ValueError)
          else Some (Ok (PInt (parse_int integer), r2))
      | _, _ => Some (Ok (PFloat (integer ++ frac ++ exp), r2))
      end
  end.

(** [s[idx:idx+len(word)] == word], and the text after it. *)
Fixpoint strip (word s : string) : option string :=
  match word, s with
  | EmptyString, _ => Some s
  | String w word', String c s' =>
      if Ascii.eqb w c then strip word' s' else None
  | String _ _, EmptyString => None
  end.

(** [dict(pairs)] *)
Definition dict_of_pairs (pairs : list (string * pyval)) : dict pyval :=
  foldl (λ d kv, set kv.1 kv.2 d) [] pairs.

(** [scan_once], [JSONObject] and [JSONArray]; the two loops start
    after the opening quote of a key and at an array element.  [n]
    bounds the calls still allowed; every call follows a character that
    was consumed.  [depth] is how many containers may still be entered:
    [scan_once] asks the interpreter before it enters an object or an
    array ([Py_EnterRecursiveCall]), and what is inside has one
    less. *)
Fixpoint scan_once (n depth : nat) (s : string) : result (pyval * string) :=
  match n with
  | O => Unmodelled
  | S n' =>
      match s with
      | EmptyString => Raise JSONDecodeError
      | String c rest =>
          if Ascii.eqb c dquote then
            '(str, r) ← scanstring rest; Ok (PStr str, r)
          else if Ascii.eqb c "{" then
            match depth with
            | O => Raise RecursionError
            | S depth' =>
                match skip_ws rest with
                | String c1 r1 =>
                    if Ascii.eqb c1 dquote then object_loop n' depth' r1 []
                    else if Ascii.eqb c1 "}" then Ok (PDict [], r1)
                    else Raise JSONDecodeError
                | EmptyString => Raise JSONDecodeError
                end
            end
          else if Ascii.eqb c "[" then
            match depth with
            | O => Raise RecursionError
            | S depth' =>
                match skip_ws rest with
                | String c1 r1 =>
                    if Ascii.eqb c1 "]" then Ok (PList [], r1)
                    else array_loop n' depth' (String c1 r1) []
                | EmptyString => array_loop n' depth' EmptyString []
                end
            end
          else
            match strip "null" s, strip "true" s, strip "false" s with
            | Some r, _, _ => Ok (PNone, r)
            | _, Some r, _ => Ok (PBool true, r)
            | _, _, Some r => Ok (PBool false, r)
            | None, None, None =>
                match match_number s with
                | Some number => number
                | None =>
                    match strip "NaN" s, strip "Infinity" s,
                          strip "-Infinity" s with
                    | Some r, _, _ => Ok (PFloat "nan", r)
                    | _, Some r, _ => Ok (PFloat "inf", r)
                    | _, _, Some r => Ok (PFloat "-inf", r)
                    | None, None, None => Raise JSONDecodeError
                    end
                end
            end
      end
  end
with object_loop (n depth : nat) (s : string)
    (pairs : list (string * pyval)) : result (pyval * string) :=
  match n with
  | O => Unmodelled
  | S n' =>
      '(key, s1) ← scanstring s;
      match skip_ws s1 with
      | String c2 s2 =>
          if Ascii.eqb c2 ":" then
            '(value, s3) ← scan_once n' depth (skip_ws s2);
            let pairs := (pairs ++ [(key, value)])%list in
            match skip_ws s3 with
            | String c4 s4 =>
                if Ascii.eqb c4 "}" then Ok (PDict (dict_of_pairs pairs), s4)
                else if Ascii.eqb c4 "," then
                  match skip_ws s4 with
                  | String c5 s5 =>
                      if Ascii.eqb c5 dquote
                      then object_loop n' depth s5 pairs
                      else Raise JSONDecodeError
                  | EmptyString => Raise JSONDecodeError
                  end
                else Raise JSONDecodeError
            | EmptyString => Raise JSONDecodeError
            end
          else Raise JSONDecodeError
      | EmptyString => Raise JSONDecodeError
      end
  end
with array_loop (n depth : nat) (s : string) (values : list pyval)
  : result (pyval * string) :=
  match n with
  | O => Unmodelled
  | S n' =>
      '(value, s1) ← scan_once n' depth s;
      let values := (values ++ [value])%list in
      match skip_ws s1 with
      | String c2 s2 =>
          if Ascii.eqb c2 "]" then Ok (PList values, s2)
          else if Ascii.eqb c2 ","
          then array_loop n' depth (skip_ws s2) values
          else Raise JSONDecodeError
      | EmptyString => Raise JSONDecodeError
      end
  end.

(** [JSONDecoder.decode]: one value between optional whitespace. *)
Definition decode (n depth : nat) (s : string) : result pyval :=
  '(obj, rest) ← scan_once n depth (skip_ws s);
  match skip_ws rest with
  | EmptyString => Ok obj
  | String _ _ => Raise JSONDecodeError
  end.

(** A call of [scan_once] or of a loop follows a consumed character and
    a loop calls [scan_once] once per round: twice the length of the
    text, and one, is more than the calls a text can cause. *)
Definition loads (s : string) : result pyval :=
  decode (2 * String.length s + 1) (S (recursion_room py)) s.

End Decoder.

(** *** Encoding *)

Definition hex_digit (n : nat) : ascii :=
  if (n <? 10)%nat then ascii_of_nat (48 + n) else ascii_of_nat (87 + n).

(** [ESCAPE_DCT] *)
Definition escape_char (c : ascii) : string :=
  if Ascii.eqb c dquote then String backslash (String dquote EmptyString)
  else if Ascii.eqb c backslash then "\\"
  else if Ascii.eqb c "010" then "\n"
  else if Ascii.eqb c "013" then "\r"
  else if Ascii.eqb c "009" then "\t"
  else if Ascii.eqb c "008" then "\b"
  else if Ascii.eqb c "012" then "\f"
  else if (nat_of_ascii c <? 32)%nat then
    "\u00" ++ String (hex_digit (nat_of_ascii c / 16))
                (String (hex_digit (nat_of_ascii c mod 16)) EmptyString)
  else String c EmptyString.

Fixpoint escape (s : string) : string :=
  match s with
  | EmptyString => EmptyString
  | String c s' => escape_char c ++ escape s'
  end.

(** [encode_basestring], used because [ensure_ascii=False] *)
Definition encode_basestring (s : string) : string :=
  String dquote (escape s ++ String dquote EmptyString).

(** ['\n' + ' ' * 2], the indentation of the items with [indent=2] *)
Definition newline_indent : string := String "010" "  ".

Fixpoint encode_items (first : bool) (items : list (string * string))
  : string :=
  match items with
  | [] => EmptyString
  | (key, value) :: items' =>
      (if first then EmptyString else "," ++ newline_indent)
      ++ encode_basestring key ++ ": " ++ encode_basestring value
      ++ encode_items false items'
  end.

(** [json.dumps(d, ensure_ascii=False, indent=2)] for a [Dict[str, str]] *)
Definition dumps (d : dict string) : string :=
  match d with
  | [] => "{}"
  | _ :: _ =>
      "{" ++ newline_indent ++ encode_items true d ++ String "010" "}"
  end.

Section Str.
Variable py : Interpreter.

(** [str(v)]; an [int] that the decoder built is within the limit on
    digits, so that [str] does not refuse it. *)
Definition py_str (v : pyval) : string :=
  match v with
  | PStr s => s
  | PNone => "None"
  | PBool true => "True"
  | PBool false => "False"
  | PInt z => NilZero.string_of_int (Z.to_int z)
  | _ => str_other py v
  end.

End Str.
End Json.

(** ** [agent_ai_gen.py]: the in-memory operations *)

Module AgentAiGen.
Import PyDict.

Record DictionaryAgent : Type :=
  mkAgent { _dict : dict string; storage_path : string }.

Definition with_dict (self : DictionaryAgent) (d : dict string) :=
  mkAgent d (storage_path self).

Definition lookup (word : string) (self : DictionaryAgent)
  : option string :=
  get word (_dict self).

Definition add (word definition : string) (overwrite : bool)
    (self : DictionaryAgent) : bool * DictionaryAgent :=
  if contains word (_dict self) && negb overwrite then (false, self)
  else (true, with_dict self (set word definition (_dict self))).

(** [self._dict.pop(word, None) is not None] *)
Definition remove (word : string) (self : DictionaryAgent)
  : bool * DictionaryAgent :=
  match get word (_dict self) with
  | Some _ => (true, with_dict self (del word (_dict self)))
  | None => (false, self)
  end.

Definition list_words (self : DictionaryAgent) : dict string :=
  _dict self.

(** The files [load] and [save] see.  [files] is what is stored at
    each path: a text, or [None] for bytes that are not UTF-8.
    [unreadable] tells at which paths [open(path, "r")] raises an
    [OSError] other than [FileNotFoundError], whatever is stored there:
    a directory, a missing permission.  [writable] tells at which paths
    making the parent directory and opening the file for writing
    succeed. *)
Record FileSystem : Type :=
  mkFS { files : gmap string (option string);
         unreadable : string → bool;
         writable : string → bool }.

(** [open(path, "r", encoding="utf-8")] followed by [f.read()] *)
Definition read_text (fs : FileSystem) (path : string) : result string :=
  if unreadable fs path then Raise OSError
  else
    match files fs !! path with
    | Some (Some text) => Ok text
    | Some None => Raise UnicodeDecodeError
    | None => Raise FileNotFoundError
    end.

(** What [save] asks of the system: the parent directory is made when
    it is missing ([os.makedirs]) and the file is opened for writing,
    which empties it; either both succeed, and the text is written, or
    an [OSError] is raised and nothing is written.  A string of this
    model holds characters up to U+00FF, all of which UTF-8 encodes, so
    that the text is written whole: the [UnicodeEncodeError] of a lone
    surrogate, which would leave the file cut short, needs a string
    that is not of this model. *)
Definition write_text (fs : FileSystem) (path text : string)
  : result FileSystem :=
  if writable fs path
  then Ok (mkFS (<[path := Some text]> (files fs)) (unreadable fs)
             (writable fs))
  else Raise OSError.

Section Persistence.
Variable py : Json.Interpreter.

(** [{str(k): str(v) for k, v in data.items()}] *)
Definition coerce (data : dict Json.pyval) : dict string :=
  foldl (λ d kv,
           set (Json.py_str py (Json.PStr kv.1))
               (Json.py_str py kv.2) d)
        [] (items data).

(** The [try] block of [load] up to the assignment: the mapping
    [self._dict] is about to be given. *)
Definition load_body (self : DictionaryAgent) (fs : FileSystem)
  : result (dict string) :=
  text ← read_text fs (storage_path self);
  data ← Json.loads py text;
  match data with
  | Json.PDict d => Ok (coerce d)
  | _ => Ok []
  end.

(** [load]: how the call ends, and the agent it leaves.  The
    assignment to [self._dict] is the last thing the [try] block and
    the handler do, so a call that raises has assigned nothing. *)
Definition load (self : DictionaryAgent) (fs : FileSystem)
  : result unit * DictionaryAgent :=
  match load_body self fs with
  | Ok d => (Ok tt, with_dict self d)
  | Raise FileNotFoundError => (Ok tt, with_dict self [])
  | Raise e => (Raise e, self)
  | Unmodelled => (Unmodelled, self)
  end.

End Persistence.

Definition save (self : DictionaryAgent) (fs : FileSystem)
  : result FileSystem :=
  write_text fs (storage_path self) (Json.dumps (_dict self)).

End AgentAiGen.

(** ** [agentv3.py]: the command line *)

Module AgentV3Main.
Import PyDict AgentV3.

(** What [parse_args] returns, by subcommand; [--max] defaults to 5 and
    [--prefix] to [None]. *)
Inductive Namespace : Type :=
  | Define (word : string)
  | Suggest (query : string) (max : Z)
  | Add (word definition : string) (overwrite : bool)
  | Remove (word : string)
  | List (prefix : option string).

Section Main.
Variable lower : string → string.

(** [main] after [parse_args]: the lines printed and the value
    returned.  Every call starts from a fresh [DictionaryAgent()]. *)
Definition main (args : Namespace) : result (list string * Z) :=
  let agent := default in
  match args with
  | Define word =>
      let not_found :=
        sugg ← suggest word 5 agent;
        Ok (("No definition found for '" ++ word ++ "'.")
            :: match sugg with
               | [] => []
               | _ :: _ => "Did you mean:" :: ((λ s, "  - " ++ s) <$> sugg)
               end, 2%Z) in
      match define lower word false agent with
      | Some definition =>
          if Str.truthy definition
          then Ok ([word ++ ": " ++ definition], 0%Z)
          else not_found
      | None => not_found
      end
  | Suggest query max =>
      sugg ← suggest query max agent; Ok (sugg, 0%Z)
  | Add word definition overwrite =>
      let '(ok, _) := add word definition overwrite agent in
      if ok then Ok (["Added '" ++ word ++ "'."], 0%Z)
      else Ok (["Word '" ++ word
                ++ "' already exists. Use --overwrite to replace."], 3%Z)
  | Remove word =>
      let '(ok, _) := remove lower word agent in
      if ok then Ok (["Removed '" ++ word ++ "'."], 0%Z)
      else Ok (["Word '" ++ word ++ "' not found."], 4%Z)
  | List prefix => Ok (list_ prefix agent, 0%Z)
  end.

End Main.
End AgentV3Main.

(** ** [str.strip] and [str.split] *)

Module Text.

(** [str.isspace] on one code point below 256 *)
Definition is_space (c : ascii) : bool :=
  let n := nat_of_ascii c in
  ((9 <=? n)%nat && (n <=? 13)%nat) || ((28 <=? n)%nat && (n <=? 32)%nat)
  || (n =? 133)%nat || (n =? 160)%nat.

Fixpoint lstrip (s : string) : string :=
  match s with
  | String c s' => if is_space c then lstrip s' else s
  | EmptyString => EmptyString
  end.

Fixpoint rstrip (s : string) : string :=
  match s with
  | String c s' =>
      match rstrip s' with
      | EmptyString => if is_space c then EmptyString else String c EmptyString
      | r => String c r
      end
  | EmptyString => EmptyString
  end.

(** [s.strip()] *)
Definition strip (s : string) : string := rstrip (lstrip s).

(** The run of characters that are not spaces at the head of [s], and
    what follows it. *)
Fixpoint span_word (s : string) : string * string :=
  match s with
  | String c s' =>
      if is_space c then (EmptyString, s)
      else let '(w, r) := span_word s' in (String c w, r)
  | EmptyString => (EmptyString, EmptyString)
  end.

(** [s.split(maxsplit=maxcount)]: words are cut off the front while
    splits remain; what is left after them, less its leading spaces, is
    the last part. *)
Fixpoint split (maxcount : nat) (s : string) : list string :=
  match maxcount with
  | O =>
      match lstrip s with
      | EmptyString => []
      | rest => [rest]
      end
  | S maxcount' =>
      match lstrip s with
      | EmptyString => []
      | s' => let '(w, r) := span_word s' in w :: split maxcount' r
      end
  end.

End Text.

(** ** [agent_ai_gen.py]: the command line and the interactive loop *)

Module AgentAiGenCli.
Import PyDict AgentAiGen.

(** What [parse_args] returns; [--path] is [None] when it is not
    given. *)
Inductive Args : Type :=
  | NoCommand
  | CmdList
  | CmdLookup (word : string)
  | CmdAdd (word definition : string) (overwrite : bool)
  | CmdRemove (word : string)
  | CmdSave (path : option string)
  | CmdLoad (path : option string).

Section RunAgent.
Variable lower : string → string.
Variable py : Json.Interpreter.
(** [os.path.join(os.path.dirname(__file__), "dictionary.json")] *)
Variable default_path : string.

(** [for w, d in agent.list_words().items(): print(f"{w}: {d}")] *)
Definition print_words (agent : DictionaryAgent) : list string :=
  (λ wd, wd.1 ++ ": " ++ wd.2) <$> items (list_words agent).

(** [if args.path: agent.storage_path = args.path] *)
Definition with_path (path : option string) (agent : DictionaryAgent)
  : DictionaryAgent :=
  match path with
  | Some p => if Str.truthy p then mkAgent (_dict agent) p else agent
  | None => agent
  end.

(** One round of the interactive loop, after the tests for an empty
    line, [exit], [quit] and [help]: the lines printed, the agent and
    the files. *)
Definition command (raw : string) (agent : DictionaryAgent)
    (fs : FileSystem)
  : result (list string * DictionaryAgent * FileSystem) :=
  let parts := Text.split 2 raw in
  match parts with
  | [] => Unmodelled
  | part0 :: _ =>
      let cmd := lower part0 in
      if String.eqb cmd "list" then Ok (print_words agent, agent, fs)
      else if String.eqb cmd "lookup" && (2 <=? length parts)%nat then
        match lookup (nth 1 parts EmptyString) agent with
        | None => Ok (["(not found)"], agent, fs)
        | Some res => Ok ([res], agent, fs)
        end
      else if String.eqb cmd "add" && (3 <=? length parts)%nat then
        let '(added, agent) :=
          add (nth 1 parts EmptyString) (nth 2 parts EmptyString) false
            agent in
        Ok ([if added then "added" else "exists (use overwrite)"], agent, fs)
      else if String.eqb cmd "remove" && (2 <=? length parts)%nat then
        let '(removed, agent) := remove (nth 1 parts EmptyString) agent in
        Ok ([if removed then "removed" else "not found"], agent, fs)
      else if String.eqb cmd "save" then
        fs ← save agent fs;
        Ok (["saved to " ++ storage_path agent], agent, fs)
      else if String.eqb cmd "load" then
        let '(loaded, agent) := load py agent fs in
        _ ← loaded;
        Ok (["loaded"], agent, fs)
      else Ok (["unknown or malformed command; type 'help'"], agent, fs)
  end.

(** The interactive loop over the lines [input] returns; when they run
    out [input] raises [EOFError], which ends the loop with an empty
    line.  The result is the lines printed, the value returned and the
    files. *)
Fixpoint interact (stdin : list string) (agent : DictionaryAgent)
    (fs : FileSystem) (out : list string)
  : result (list string * Z * FileSystem) :=
  match stdin with
  | [] => Ok ((out ++ [EmptyString])%list, 0%Z, fs)
  | line :: stdin' =>
      let raw := Text.strip line in
      if negb (Str.truthy raw) then interact stdin' agent fs out
      else if String.eqb (lower raw) "exit" || String.eqb (lower raw) "quit"
      then Ok (out, 0%Z, fs)
      else if String.eqb (lower raw) "help" then
        interact stdin' agent fs
          (out ++ ["Commands: list, lookup <word>, add <word> <definition>, remove <word>, save, load, exit"])%list
      else
        '(printed, agent, fs) ← command raw agent fs;
        interact stdin' agent fs (out ++ printed)%list
  end.

(** [run_agent] after [parse_args], with the lines [input] will return:
    the lines printed, the exit code and the files. *)
Definition run_agent (args : Args) (stdin : list string) (fs : FileSystem)
  : result (list string * Z * FileSystem) :=
  let '(loaded, agent) := load py (mkAgent [] default_path) fs in
  _ ← loaded;
  match args with
  | NoCommand =>
      interact stdin agent fs
        ["Dictionary Agent (interactive). Type 'help' for commands, 'exit' to quit."]
  | CmdList => Ok (print_words agent, 0%Z, fs)
  | CmdLookup word =>
      match lookup word agent with
      | None => Ok (["(not found)"], 2%Z, fs)
      | Some res => Ok ([res], 0%Z, fs)
      end
  | CmdAdd word definition overwrite =>
      let '(added, agent) := add word definition overwrite agent in
      if negb added then Ok (["exists"], 3%Z, fs)
      else fs ← save agent fs; Ok (["added"], 0%Z, fs)
  | CmdRemove word =>
      let '(removed, agent) := remove word agent in
      if negb removed then Ok (["not found"], 2%Z, fs)
      else fs ← save agent fs; Ok (["removed"], 0%Z, fs)
  | CmdSave path =>
      let agent := with_path path agent in
      fs ← save agent fs;
      Ok (["saved to " ++ storage_path agent], 0%Z, fs)
  | CmdLoad path =>
      let agent := with_path path agent in
      let '(loaded, agent) := load py agent fs in
      _ ← loaded;
      Ok (["loaded from " ++ storage_path agent], 0%Z, fs)
  end.

End RunAgent.
End AgentAiGenCli.

(** ** Vocabulary of the statements about [difflib] *)

Module DifflibSpec.
Import Difflib.

(** [a[i:i+k]] and [b[j:j+k]] lie inside the sequences and are equal. *)
Definition common (a b : list ascii) (i j k : nat) : Prop :=
  ∀ t, (t < k)%nat →
       is_Some (a !! (i + t)%nat) ∧ a !! (i + t)%nat = b !! (j + t)%nat.

(** A match that lies in the window [a[alo:ahi]], [b[blo:bhi]]. *)
Definition within (a b : list ascii) (alo ahi blo bhi : nat) (m : Match)
  : Prop :=
  (alo ≤ m.1.1 ∧ m.1.1 + m.2 ≤ ahi ∧ blo ≤ m.1.2 ∧ m.1.2 + m.2 ≤ bhi)%nat
  ∧ common a b m.1.1 m.1.2 m.2.

(** What [j2len] records when row [i] is about to be scanned: a match
    of length [k] that ends at [a[i-1]] and [b[j]]. *)
Definition row_ok (a b : list ascii) (alo blo bhi : nat)
    (i : nat) (j2len : gmap nat nat) : Prop :=
  ∀ j k, j2len !! j = Some k →
    (1 ≤ k ∧ alo + k ≤ i ∧ blo + k ≤ j + 1 ∧ j < bhi)%nat
    ∧ common a b (i - k) (j + 1 - k) k.

(** Every index listed under an element holds that element. *)
Definition b2j_sound (b : list ascii) (b2j : gmap ascii (list nat)) : Prop :=
  ∀ c js j, b2j !! c = Some js → j ∈ js → b !! j = Some c.

(** The number of elements two sequences have in common, counted with
    multiplicity. *)
Definition shared (x y : list ascii) : nat :=
  size (list_to_set_disj x ∩ list_to_set_disj y : gmultiset ascii).

(** [l[lo:hi]] *)
Definition slice (l : list ascii) (lo hi : nat) : list ascii :=
  take (hi - lo) (drop lo l).

(** What a window of the work list can contribute at most. *)
Definition capacity (a b : list ascii) (r : region) : nat :=
  shared (slice a r.1.1.1 r.1.1.2) (slice b r.1.2 r.2).

Definition region_ok (r : region) : Prop :=
  (r.1.1.1 ≤ r.1.1.2 ∧ r.1.2 ≤ r.2)%nat.

(** [avail] of [quick_ratio] once the elements [P] of [a] are seen. *)
Definition avail_ok (b : list ascii) (P : gmultiset ascii)
    (avail : gmap ascii Z) : Prop :=
  ∀ c, match avail !! c with
       | Some n =>
           n = (Z.of_nat (multiplicity c (list_to_set_disj b : gmultiset ascii))
                - Z.of_nat (multiplicity c P))%Z
       | None => multiplicity c P = 0%nat
       end.

(** The score [get_close_matches] ranks a possibility by. *)
Definition score (word x : string) : Q :=
  ratio (list_ascii_of_string x) (list_ascii_of_string word)
        (chain_b (list_ascii_of_string word)).

End DifflibSpec.

(** ** Vocabulary of the statements about matching blocks *)

Module MatcherSpec.
Import Difflib.

(** [s] is what is left of [x] and of [y] when elements are struck
    out of each: a common subsequence of length [k]. *)
Definition common_subseq (x y : list ascii) (k : nat) : Prop :=
  ∃ s, s `sublist_of` x ∧ s `sublist_of` y ∧ length s = k.

(** The indices of [b] that hold [c], in increasing order. *)
Definition indices (b : list ascii) (c : ascii) : list nat :=
  List.filter (λ j, bool_decide (b !! j = Some c)) (seq 0 (length b)).

(** Every element listed in [b2j] is listed with all its indices. *)
Definition b2j_full (b : list ascii) (b2j : gmap ascii (list nat)) : Prop :=
  ∀ c js, b2j !! c = Some js → js = indices b c.

(** [a[i]] is listed in [b2j]. *)
Definition present (a : list ascii) (b2j : gmap ascii (list nat)) (i : nat)
  : bool :=
  match a !! i with
  | Some c => bool_decide (is_Some (b2j !! c))
  | None => false
  end.

(** How many elements in a row, ending with [a[i]], are listed. *)
Fixpoint run_to (a : list ascii) (b2j : gmap ascii (list nat)) (i : nat)
  : nat :=
  match i with
  | O => if present a b2j 0 then 1 else 0
  | S i' => if present a b2j (S i') then S (run_to a b2j i') else 0
  end.

Definition run_before (a : list ascii) (b2j : gmap ascii (list nat))
    (i : nat) : nat :=
  match i with
  | O => 0
  | S i' => run_to a b2j i'
  end.

End MatcherSpec.

(** ** Vocabulary of the statements about [json] *)

Module JsonSpec.
Import PyDict Json.

(** The text of one item from just after the opening quote of its key,
    followed by [tail]. *)
Definition member_text (key value tail : string) : string :=
  escape key
  ++ String dquote (String ":" (String " " (String dquote
       (escape value ++ String dquote tail)))).

(** The text of the items after the first, followed by [tail]. *)
Fixpoint items_text (items : list (string * string)) (tail : string)
  : string :=
  match items with
  | [] => tail
  | (key, value) :: items' =>
      String "," (String "010" (String " " (String " " (String dquote
        (member_text key value (items_text items' tail))))))
  end.

(** The object [loads] builds from the text of a [Dict[str, str]]. *)
Definition as_object (d : dict string) : dict pyval :=
  (λ kv, (kv.1, PStr kv.2)) <$> d.

(** The exceptions of the decoder on the text [s] with [depth]
    containers allowed: [JSONDecodeError]; [ValueError], only when
    there is a limit on digits and the text is longer than it;
    [RecursionError], only when the text is longer than the depth. *)
Definition may_raise (py : Interpreter) (e : exn) (depth : nat) (s : string)
  : Prop :=
  e = JSONDecodeError
  ∨ (e = ValueError ∧ (0 < int_max_str_digits py < String.length s)%nat)
  ∨ (e = RecursionError ∧ (depth < String.length s)%nat).

(** [r] is [s] less some characters at its head. *)
Inductive suffix_of (r : string) : string → Prop :=
  | suffix_here : suffix_of r r
  | suffix_tail (c : ascii) (s : string) :
      suffix_of r s → suffix_of r (String c s).

(** Whether the text holds, somewhere, a backslash, [u] and four hex
    digits that make a code point above U+00FF. *)
Fixpoint names_beyond_latin1 (s : string) : bool :=
  match s with
  | String c rest =>
      (Ascii.eqb c backslash
       && match rest with
          | String u (String h1 (String h2 (String h3 (String h4 _)))) =>
              Ascii.eqb u "u"
              && match decode_uXXXX h1 h2 h3 h4 with
                 | Some uni => (256 <=? uni)%nat
                 | None => false
                 end
          | _ => false
          end)
      || names_beyond_latin1 rest
  | EmptyString => false
  end.

End JsonSpec.

(** * Properties *)

(** ** Dictionaries *)

Section DictFacts.
Import PyDict.
Context {V : Type}.
Implicit Types (d : dict V) (k : string) (v : V).

Lemma eqb_decide k k' : String.eqb k k' = bool_decide (k = k').
Proof.
  destruct (String.eqb_spec k k'); symmetry;
    [by apply bool_decide_eq_true | by apply bool_decide_eq_false].
Qed.

Lemma get_None d k : get k d = None ↔ k ∉ keys d.
Proof.
  induction d as [|[k' v'] d IH]; simpl.
  - split; [intros _; apply not_elem_of_nil | done].
  - rewrite eqb_decide, not_elem_of_cons. case_bool_decide.
    + split; [done|]. intros [? _]. congruence.
    + rewrite IH. split; [|tauto]. split; [congruence|done].
Qed.

Lemma get_Some_elem d k v : get k d = Some v → (k, v) ∈ d.
Proof.
  induction d as [|[k' v'] d IH]; simpl; [done|].
  rewrite eqb_decide. case_bool_decide; intros ?; simplify_eq.
  - left.
  - right; auto.
Qed.

Lemma elem_get_Some d k v : wf d → (k, v) ∈ d → get k d = Some v.
Proof.
  unfold wf, keys. induction d as [|[k' v'] d IH]; simpl.
  - intros _ ?%elem_of_nil. done.
  - rewrite eqb_decide, list.NoDup_cons. intros [Hk Hd] [?|Hin]%elem_of_cons.
    + simplify_eq. by rewrite bool_decide_eq_true_2.
    + rewrite bool_decide_eq_false_2; [auto|].
      intros ->. apply Hk. apply (list_elem_of_fmap_2 fst) in Hin. done.
Qed.

Lemma contains_true d k : contains k d = true ↔ k ∈ keys d.
Proof.
  unfold contains. destruct (get k d) eqn:E.
  - split; [|done]. intros _. apply get_Some_elem in E.
    by apply (list_elem_of_fmap_2 fst) in E.
  - apply get_None in E. naive_solver.
Qed.

Lemma contains_false d k : contains k d = false ↔ k ∉ keys d.
Proof. rewrite <-contains_true. destruct (contains k d); naive_solver. Qed.

(** [get] is the first binding of the key. *)
Lemma get_list_find d k :
  get k d = (λ x, x.2.2) <$> list_find (λ kv, kv.1 = k) d.
Proof.
  induction d as [|[k' v'] d IH]; simpl; [done|].
  rewrite eqb_decide. unfold bool_decide. destruct (decide_rel _ _ _) as [?|?];
    simpl; [done|].
  rewrite IH. by destruct (list_find _ d) as [[??]|].
Qed.

Lemma get_set d k v k' :
  get k' (set k v d) = if decide (k' = k) then Some v else get k' d.
Proof.
  induction d as [|[k0 v0] d IH]; simpl.
  - rewrite eqb_decide. case_bool_decide; case_decide; naive_solver.
  - rewrite !eqb_decide. case_bool_decide; simpl; rewrite !eqb_decide.
    + subst k0. case_bool_decide; case_decide; naive_solver.
    + rewrite IH. case_bool_decide; case_decide; naive_solver.
Qed.

(** Rebinding a present key moves nothing. *)
Lemma keys_set_present d k v : k ∈ keys d → keys (set k v d) = keys d.
Proof.
  unfold keys. induction d as [|[k0 v0] d IH]; simpl.
  - by intros ?%elem_of_nil.
  - rewrite eqb_decide. case_bool_decide; simpl; [done|].
    intros [?|?]%elem_of_cons; [done|]. f_equal; auto.
Qed.

(** A new key goes to the end. *)
Lemma set_absent d k v : k ∉ keys d → set k v d = (d ++ [(k, v)])%list.
Proof.
  unfold keys. induction d as [|[k0 v0] d IH]; simpl; [done|].
  rewrite eqb_decide, not_elem_of_cons. intros [??].
  rewrite bool_decide_eq_false_2 by done. f_equal; auto.
Qed.

Lemma wf_set d k v : wf d → wf (set k v d).
Proof.
  intros Hd. destruct (decide (k ∈ keys d)) as [Hin|Hin].
  - unfold wf. by rewrite keys_set_present.
  - rewrite set_absent by done. unfold wf, keys in *.
    rewrite fmap_app. apply NoDup_app. split_and!; [done| |].
    + intros x ? ->%list_elem_of_singleton. done.
    + apply NoDup_singleton.
Qed.

Lemma keys_del d k :
  wf d → keys (del k d) = List.filter (λ k', negb (String.eqb k' k)) (keys d).
Proof.
  unfold wf, keys. induction d as [|[k0 v0] d IH]; simpl; [done|].
  rewrite list.NoDup_cons. intros [Hk Hd]. destruct (String.eqb_spec k0 k); simpl.
  - subst k0. clear IH Hd. induction d as [|[k1 v1] d IH]; simpl; [done|].
    apply not_elem_of_cons in Hk as [? ?]. simpl in *.
    destruct (String.eqb_spec k1 k); simpl; [done|]. f_equal; auto.
  - f_equal; auto.
Qed.

Lemma get_del d k k' :
  wf d → get k' (del k d) = if decide (k' = k) then None else get k' d.
Proof.
  unfold wf, keys. induction d as [|[k0 v0] d IH]; simpl.
  - by case_decide.
  - rewrite list.NoDup_cons. intros [Hk Hd]. rewrite !eqb_decide.
    case_bool_decide; simpl.
    + subst k0. case_decide.
      * subst k'. by apply get_None.
      * by rewrite bool_decide_eq_false_2.
    + rewrite ?eqb_decide, IH by done.
      case_bool_decide; case_decide; naive_solver.
Qed.

Lemma wf_del d k : wf d → wf (del k d).
Proof.
  intros Hd. unfold wf. rewrite keys_del by done.
  apply NoDup_ListNoDup, List.NoDup_filter, NoDup_ListNoDup, Hd.
Qed.

End DictFacts.

(** ** Strings *)

Lemma startswith_iff (k p : string) :
  Str.startswith k p = true ↔ ∃ rest, k = p +:+ rest.
Proof.
  unfold Str.startswith. revert k.
  induction p as [|a p IH]; intros k; simpl.
  - destruct k; split; eauto.
  - destruct k as [|b k]; simpl.
    + split; [done|]. by intros [? ?].
    + destruct (ascii_dec a b) as [->|Hne].
      * rewrite IH. split; intros [rest Hr]; exists rest.
        -- by rewrite Hr.
        -- by injection Hr.
      * split; [done|]. intros [rest Hr]. injection Hr as ? ?. congruence.
Qed.

Example lower_Cache : Str.lower "Cache" = "cache".
Proof. reflexivity. Qed.

(** ** The store of [agentv3.py] *)

Section AgentV3Facts.
Import PyDict AgentV3.
Variable lower : string → string.

Lemma define_scan_list_find key its :
  define_scan lower key its
  = (λ x, x.2.2) <$> list_find (λ kv, lower kv.1 = key) its.
Proof.
  induction its as [|[k v] its IH]; simpl; [done|].
  rewrite eqb_decide. unfold bool_decide.
  destruct (decide_rel _ _ _) as [?|?]; simpl; [done|].
  rewrite IH. by destruct (list_find _ its) as [[??]|].
Qed.

Lemma remove_scan_list_find word ks self :
  remove_scan lower word ks self
  = match list_find (λ k, lower k = lower word) ks with
    | Some (_, k) => (true, mkAgent (del k (data self)))
    | None => (false, self)
    end.
Proof.
  induction ks as [|k ks IH]; simpl; [done|].
  rewrite eqb_decide. unfold bool_decide.
  destruct (decide_rel _ _ _) as [?|?]; simpl; [done|].
  rewrite IH. by destruct (list_find _ ks) as [[??]|].
Qed.

Lemma define_scan_None key its :
  Forall (λ kv, lower kv.1 ≠ key) its → define_scan lower key its = None.
Proof.
  intros H. rewrite define_scan_list_find.
  by rewrite (proj2 (list_find_None _ its) H).
Qed.

End AgentV3Facts.

(** ** Claims about the in-memory operations *)

Section StoreClaims.
Import PyDict.
Implicit Types (s : AgentV3.DictionaryAgent) (t : AgentAiGen.DictionaryAgent).

(** Unique keys are an invariant of every operation on the mapping. *)
Lemma wf_preserved (lower : string → string) (w d : string) (ov : bool) s t :
  wf AgentV3.BUILT_IN_DICT
  ∧ (wf (AgentV3.data s) →
     wf (AgentV3.data (AgentV3.add w d ov s).2)
     ∧ wf (AgentV3.data (AgentV3.remove lower w s).2))
  ∧ (wf (AgentAiGen._dict t) →
     wf (AgentAiGen._dict (AgentAiGen.add w d ov t).2)
     ∧ wf (AgentAiGen._dict (AgentAiGen.remove w t).2)).
Proof.
  split_and!.
  - unfold wf. apply (bool_decide_unpack _). vm_compute. exact I.
  - intros Hs. split.
    + unfold AgentV3.add. destruct (_ && _); [done|]. by apply wf_set.
    + unfold AgentV3.remove. destruct (contains _ _); [by apply wf_del|].
      rewrite remove_scan_list_find.
      destruct (list_find _ _) as [[? ?]|]; [by apply wf_del | done].
  - intros Ht. split.
    + unfold AgentAiGen.add. destruct (_ && _); [done|]. by apply wf_set.
    + unfold AgentAiGen.remove. destruct (get _ _); [by apply wf_del | done].
Qed.

(** C4. For a word [w] that is already a key, [add(w, d2)] without
    [overwrite] returns [False] and leaves the agent as it is, and with
    [overwrite=True] it returns [True] and the mapping afterwards is the
    old one with [w] bound to [d2]: same keys in the same order, [w]
    maps to [d2], every other key maps to what it did.  This holds for
    the [add] of both modules; neither can raise. *)
Theorem add_existing_word (w d2 : string) s t :
  contains w (AgentV3.data s) = true →
  contains w (AgentAiGen._dict t) = true →
  AgentV3.add w d2 false s = (false, s)
  ∧ AgentAiGen.add w d2 false t = (false, t)
  ∧ (AgentV3.add w d2 true s).1 = true
  ∧ keys (AgentV3.data (AgentV3.add w d2 true s).2) = keys (AgentV3.data s)
  ∧ (∀ k, get k (AgentV3.data (AgentV3.add w d2 true s).2)
          = if decide (k = w) then Some d2 else get k (AgentV3.data s))
  ∧ (AgentAiGen.add w d2 true t).1 = true
  ∧ keys (AgentAiGen._dict (AgentAiGen.add w d2 true t).2)
    = keys (AgentAiGen._dict t)
  ∧ (∀ k, get k (AgentAiGen._dict (AgentAiGen.add w d2 true t).2)
          = if decide (k = w) then Some d2 else get k (AgentAiGen._dict t))
  ∧ AgentAiGen.storage_path (AgentAiGen.add w d2 true t).2
    = AgentAiGen.storage_path t.
Proof.
  intros Hs Ht. unfold AgentV3.add, AgentAiGen.add.
  rewrite Hs, Ht. simpl.
  apply contains_true in Hs, Ht.
  split_and!; auto using keys_set_present, get_set.
Qed.

Lemma add_existing_word_witness :
  AgentV3.add "cache" "a store" false AgentV3.default
  = (false, AgentV3.default)
  ∧ get "cache" (AgentV3.data
       (AgentV3.add "cache" "a store" true AgentV3.default).2)
    = Some "a store".
Proof.
  destruct (add_existing_word "cache" "a store" AgentV3.default
              (AgentAiGen.mkAgent AgentV3.BUILT_IN_DICT "dictionary.json"))
    as (H1 & _ & _ & _ & H5 & _); [reflexivity | reflexivity |].
  split; [exact H1 | exact (H5 "cache")].
Defined.

(** C5. [remove(w)] of [agentv3.py] on a well-formed mapping: when [w]
    is a key, that key is removed; otherwise the first key, in iteration
    order, whose lower-cased form equals that of [w] is removed, if
    there is one.  Removing a key drops exactly that key and keeps every
    other binding and the order.  The result is [True] exactly when the
    mapping changed. *)
Theorem remove_exact_then_folded (lower : string → string) (w : string) s :
  wf (AgentV3.data s) →
  let r := AgentV3.remove lower w s in
  let removed k :=
    keys (AgentV3.data r.2)
    = List.filter (λ k', negb (String.eqb k' k)) (keys (AgentV3.data s))
    ∧ ∀ k', get k' (AgentV3.data r.2)
            = if decide (k' = k) then None else get k' (AgentV3.data s) in
  (if contains w (AgentV3.data s) then r.1 = true ∧ removed w
   else match list_find (λ k, lower k = lower w) (keys (AgentV3.data s)) with
        | Some (_, k) => r.1 = true ∧ removed k
        | None => r = (false, s)
        end)
  ∧ (r.1 = true ↔ AgentV3.data r.2 ≠ AgentV3.data s).
Proof.
  intros Hwf r removed.
  assert (Hrm : ∀ k, k ∈ keys (AgentV3.data s) →
            let s' := AgentV3.mkAgent (del k (AgentV3.data s)) in
            (keys (AgentV3.data s')
             = List.filter (λ k', negb (String.eqb k' k)) (keys (AgentV3.data s))
             ∧ ∀ k', get k' (AgentV3.data s')
                 = if decide (k' = k) then None else get k' (AgentV3.data s))
            ∧ AgentV3.data s' ≠ AgentV3.data s).
  { intros k Hk s'. simpl. split; [split; auto using keys_del, get_del|].
    intros Heq. apply get_None in Hk; [done|].
    rewrite <-Heq, get_del by done. by rewrite decide_True. }
  subst r removed. unfold AgentV3.remove.
  destruct (contains w (AgentV3.data s)) eqn:Hc; simpl.
  - apply contains_true in Hc. destruct (Hrm w Hc) as [? ?]. tauto.
  - rewrite remove_scan_list_find.
    destruct (list_find _ _) as [[i k]|] eqn:Hf; simpl.
    + apply list_find_Some in Hf as (Hi & _ & _).
      apply list_elem_of_lookup_2 in Hi.
      destruct (Hrm k Hi) as [? ?]. tauto.
    + split; [done|]. split; [done|]. intros []; reflexivity.
Qed.

Lemma remove_exact_then_folded_witness :
  (AgentV3.remove Str.lower "Cache" AgentV3.default).1 = true
  ∧ get "cache"
      (AgentV3.data (AgentV3.remove Str.lower "Cache" AgentV3.default).2)
    = None.
Proof.
  assert (Hwf : wf (AgentV3.data AgentV3.default))
    by (unfold wf; apply (bool_decide_unpack _); vm_compute; exact I).
  pose proof (remove_exact_then_folded Str.lower "Cache" AgentV3.default Hwf)
    as [H _].
  change (contains "Cache" (AgentV3.data AgentV3.default)) with false in H.
  change (list_find (λ k, Str.lower k = Str.lower "Cache")
            (keys (AgentV3.data AgentV3.default)))
    with (Some (2, "cache")) in H.
  destruct H as [H1 [_ H2]]. split; [exact H1 | exact (H2 "cache")].
Defined.

(** C6, as stated, fails on [agentv3.py]: ["Cache"] is not a key of
    [{"cache": d}], yet the default lookup finds [d] and [remove] deletes
    the entry and returns [True]. *)
Lemma absent_word_counterexample :
  ¬ (∀ (w : string) s,
       contains w (AgentV3.data s) = false →
       AgentV3.define Str.lower w false s = None
       ∧ AgentV3.remove Str.lower w s = (false, s)).
Proof.
  intros H.
  destruct (H "Cache" (AgentV3.mkAgent [("cache", "a store")]) eq_refl)
    as [Hd _].
  vm_compute in Hd. discriminate Hd.
Qed.

(** C6, amended.  In [agentv3.py], when no key has the lower-cased form
    of [w], [define(w)] is absent in both modes and [remove(w)] returns
    [False] and changes nothing; a case-sensitive [define(w)] is absent
    as soon as [w] is not a key.  In [agent_ai_gen.py], when [w] is not a
    key, [lookup(w)] is absent and [remove(w)] returns [False] and
    changes nothing. *)
Theorem absent_word (lower : string → string) (w : string) s t :
  Forall (λ k, lower k ≠ lower w) (keys (AgentV3.data s)) →
  contains w (AgentAiGen._dict t) = false →
  AgentV3.define lower w false s = None
  ∧ AgentV3.define lower w true s = None
  ∧ AgentV3.remove lower w s = (false, s)
  ∧ (∀ s0, contains w (AgentV3.data s0) = false →
           AgentV3.define lower w true s0 = None)
  ∧ AgentAiGen.lookup w t = None
  ∧ AgentAiGen.remove w t = (false, t).
Proof.
  intros Hs Ht.
  assert (Hw : w ∉ keys (AgentV3.data s)).
  { intros Hin. rewrite Forall_forall in Hs. by apply (Hs w Hin). }
  assert (Hget : ∀ s0, contains w (AgentV3.data s0) = false →
                       AgentV3.define lower w true s0 = None).
  { intros s0 H0. apply contains_false in H0. by apply get_None. }
  apply contains_false in Ht as Ht'. apply get_None in Ht'.
  split_and!.
  - unfold AgentV3.define. apply define_scan_None.
    unfold items, keys in *. rewrite Forall_fmap in Hs. exact Hs.
  - apply Hget. by apply contains_false.
  - unfold AgentV3.remove.
    rewrite (proj2 (contains_false _ _) Hw), remove_scan_list_find.
    by rewrite (proj2 (list_find_None _ _) Hs).
  - exact Hget.
  - exact Ht'.
  - unfold AgentAiGen.remove. unfold AgentAiGen.lookup in *. by rewrite Ht'.
Qed.

Lemma absent_word_witness :
  AgentV3.define Str.lower "Zebra" false AgentV3.default = None
  ∧ AgentV3.remove Str.lower "Zebra" AgentV3.default
    = (false, AgentV3.default).
Proof.
  destruct (absent_word Str.lower "Zebra" AgentV3.default
              (AgentAiGen.mkAgent [("cache", "a store")] "dictionary.json"))
    as (H1 & _ & H3 & _).
  - apply (bool_decide_unpack _). vm_compute. exact I.
  - reflexivity.
  - split; [exact H1 | exact H3].
Defined.

(** C7. The default [define(w)] returns the value of the first item, in
    iteration order, whose key lower-cased equals [w] lower-cased, and
    nothing when there is none; the case-sensitive [define(w)] returns
    the value bound to the key [w] itself, and nothing when [w] is not a
    key.  With [{"cache": d}], [define("Cache")] is [d] and the
    case-sensitive [define("Cache")] is absent. *)
Theorem define_modes (lower : string → string) (w : string) s :
  AgentV3.define lower w false s
  = (λ x, x.2.2) <$>
      list_find (λ kv, lower kv.1 = lower w) (items (AgentV3.data s))
  ∧ AgentV3.define lower w true s
    = (λ x, x.2.2) <$> list_find (λ kv, kv.1 = w) (items (AgentV3.data s))
  ∧ (AgentV3.define lower w true s = None ↔ w ∉ keys (AgentV3.data s))
  ∧ ∀ d : string,
      AgentV3.define Str.lower "Cache" false (AgentV3.mkAgent [("cache", d)])
      = Some d
      ∧ AgentV3.define Str.lower "Cache" true (AgentV3.mkAgent [("cache", d)])
        = None.
Proof.
  split_and!.
  - apply define_scan_list_find.
  - apply get_list_find.
  - apply get_None.
  - intros d. split; reflexivity.
Qed.

(** C8. When [add(w, d)] returns [True], the case-sensitive lookup of
    [w] in the resulting agent returns [d], in both modules; and
    [add(w, d2, overwrite=True)] after any [add(w, d1)] returns [True],
    after which the lookup of [w] returns [d2]. *)
Theorem lookup_after_add (lower : string → string)
    (w d d1 d2 : string) (ov ov1 : bool) s t :
  (AgentV3.add w d ov s).1 = true →
  (AgentAiGen.add w d ov t).1 = true →
  AgentV3.define lower w true (AgentV3.add w d ov s).2 = Some d
  ∧ AgentAiGen.lookup w (AgentAiGen.add w d ov t).2 = Some d
  ∧ (AgentV3.add w d2 true (AgentV3.add w d1 ov1 s).2).1 = true
  ∧ AgentV3.define lower w true
      (AgentV3.add w d2 true (AgentV3.add w d1 ov1 s).2).2 = Some d2
  ∧ (AgentAiGen.add w d2 true (AgentAiGen.add w d1 ov1 t).2).1 = true
  ∧ AgentAiGen.lookup w
      (AgentAiGen.add w d2 true (AgentAiGen.add w d1 ov1 t).2).2 = Some d2.
Proof.
  assert (Hset : ∀ (x : string) (m : dict string), get w (set w x m) = Some x).
  { intros x m. by rewrite get_set, decide_True. }
  unfold AgentV3.add, AgentAiGen.add, AgentV3.define, AgentAiGen.lookup.
  intros Hs Ht. split_and!.
  - destruct (contains w (AgentV3.data s) && negb ov); [done | apply Hset].
  - destruct (contains w (AgentAiGen._dict t) && negb ov); [done | apply Hset].
  - by rewrite andb_false_r.
  - rewrite andb_false_r. apply Hset.
  - by rewrite andb_false_r.
  - rewrite andb_false_r. apply Hset.
Qed.

Lemma lookup_after_add_witness :
  AgentV3.define Str.lower "heap" true
    (AgentV3.add "heap" "a tree" false AgentV3.default).2 = Some "a tree"
  ∧ AgentAiGen.lookup "heap"
      (AgentAiGen.add "heap" "a tree" false
         (AgentAiGen.mkAgent [] "dictionary.json")).2 = Some "a tree".
Proof.
  destruct (lookup_after_add Str.lower "heap" "a tree" "x" "y" false false
              AgentV3.default (AgentAiGen.mkAgent [] "dictionary.json"))
    as (H1 & H2 & _); [reflexivity | reflexivity |].
  split; [exact H1 | exact H2].
Defined.

(** C9. [list()] is the key list sorted in ascending lexicographic
    ([str]) order: sorted, and a rearrangement of the keys.  [list(p)]
    is the subsequence of [list()] made of the keys that start with [p],
    compared character by character; it is sorted, and a key is in it
    exactly when it is [p] followed by some rest. *)
Theorem list_sorted_prefix s :
  let all := AgentV3.list_ None s in
  StronglySorted String.le all
  ∧ all ≡ₚ keys (AgentV3.data s)
  ∧ ∀ p : string,
      AgentV3.list_ (Some p) s = List.filter (λ k, Str.startswith k p) all
      ∧ StronglySorted String.le (AgentV3.list_ (Some p) s)
      ∧ sublist (AgentV3.list_ (Some p) s) all
      ∧ ∀ k, k ∈ AgentV3.list_ (Some p) s
             ↔ k ∈ keys (AgentV3.data s) ∧ ∃ rest, k = p +:+ rest.
Proof.
  intros all.
  assert (Hsorted : StronglySorted String.le all)
    by apply (StronglySorted_merge_sort _).
  assert (Hperm : all ≡ₚ keys (AgentV3.data s))
    by apply merge_sort_Permutation.
  assert (Hfilter : ∀ p, AgentV3.list_ (Some p) s
                         = List.filter (λ k, Str.startswith k p) all).
  { intros [|a p]; [|done].
    change (all = List.filter (λ k, Str.startswith k "") all).
    generalize all. intros l. induction l as [|k l IH]; simpl; [done|].
    replace (Str.startswith k "") with true by (by destruct k).
    by f_equal. }
  assert (Hsub : ∀ (f : string → bool) l, sublist (List.filter f l) l).
  { intros f l. induction l as [|k l IH]; simpl; [done|].
    destruct (f k); by constructor. }
  split_and!; [done..|]. intros p. rewrite Hfilter. split_and!.
  - done.
  - clear -Hsorted. induction Hsorted as [|k l Hl IH Hk]; simpl.
    + constructor.
    + destruct (Str.startswith k p); [|done]. constructor; [done|].
      rewrite Forall_forall in Hk |- *. intros x Hx. apply Hk.
      rewrite list_elem_of_In in Hx |- *. by apply List.filter_In in Hx as [? _].
  - apply Hsub.
  - intros k. rewrite list_elem_of_In, List.filter_In, <-list_elem_of_In.
    rewrite Hperm, startswith_iff. done.
Qed.

Example list_built_in :
  AgentV3.list_ None (AgentV3.mkAgent
    [("function", "f"); ("Cache", "c"); ("binary", "b"); ("cache", "c")])
  = ["Cache"; "binary"; "cache"; "function"]
  ∧ AgentV3.list_ (Some "c") (AgentV3.mkAgent
    [("function", "f"); ("Cache", "c"); ("binary", "b"); ("cache", "c")])
  = ["cache"].
Proof. split; vm_compute; reflexivity. Qed.

End StoreClaims.

(** ** [difflib.SequenceMatcher] *)

Section MatcherFacts.
Import Difflib DifflibSpec.

Lemma chain_b_sound b : b2j_sound b (chain_b b).
Proof.
  assert (Hfold : b2j_sound b
    (foldl (λ (m : gmap ascii (list nat)) (ie : nat * ascii),
              <[ie.2 := (default [] (m !! ie.2) ++ [ie.1])%list]> m)
           ∅ (imap pair b))).
  { induction b as [|x b IH] using rev_ind.
    - intros c js j. simpl. by rewrite lookup_empty.
    - rewrite imap_app, foldl_app. simpl. rewrite Nat.add_0_r.
      set (m := foldl _ _ _) in *. intros c js j.
      destruct (decide (c = x)) as [->|Hne].
      + rewrite lookup_insert_eq. intros [= <-].
        intros [Hj|Hj%list_elem_of_singleton]%elem_of_app.
        * apply lookup_app_l_Some. destruct (m !! x) as [js0|] eqn:E.
          -- by apply (IH x js0).
          -- by apply elem_of_nil in Hj.
        * subst j. by rewrite list_lookup_middle.
      + rewrite lookup_insert_ne by done. intros ? ?.
        apply lookup_app_l_Some. by apply (IH c js). }
  unfold chain_b. destruct (200 <=? length b)%nat; [|done].
  intros c js j [? _]%map_lookup_filter_Some. by apply Hfold.
Qed.

(** *** Elements in common *)

Lemma size_list_to_set_disj (l : list ascii) :
  size (list_to_set_disj l : gmultiset ascii) = length l.
Proof.
  induction l as [|x l IH]; simpl.
  - reflexivity.
  - by rewrite gmultiset_size_disj_union, gmultiset_size_singleton, IH.
Qed.

Lemma shared_le_l x y : (shared x y ≤ length x)%nat.
Proof.
  unfold shared. rewrite <-(size_list_to_set_disj x).
  apply gmultiset_subseteq_size. multiset_solver.
Qed.

Lemma shared_le_r x y : (shared x y ≤ length y)%nat.
Proof.
  unfold shared. rewrite <-(size_list_to_set_disj y).
  apply gmultiset_subseteq_size. multiset_solver.
Qed.

(** Two sequences that share a middle part share at least that part
    and what their left parts and their right parts share. *)
Lemma shared_middle x1 x2 y1 y2 m :
  (shared x1 y1 + length m + shared x2 y2
   ≤ shared (x1 ++ m ++ x2) (y1 ++ m ++ y2))%nat.
Proof.
  unfold shared. rewrite !list_to_set_disj_app.
  rewrite <-(size_list_to_set_disj m), <-!gmultiset_size_disj_union.
  apply gmultiset_subseteq_size. multiset_solver.
Qed.

Lemma slice_split (l : list ascii) lo i k hi :
  (lo ≤ i)%nat → (i + k ≤ hi)%nat →
  slice l lo hi = (slice l lo i ++ slice l i (i + k) ++ slice l (i + k) hi)%list.
Proof.
  intros Hlo Hhi. unfold slice.
  replace (hi - lo)%nat with ((i - lo) + (k + (hi - (i + k))))%nat by lia.
  rewrite <-take_take_drop, drop_drop.
  replace (lo + (i - lo))%nat with i by lia.
  rewrite <-take_take_drop, drop_drop.
  by replace (i + k - i)%nat with k by lia.
Qed.

Lemma slice_all (l : list ascii) : slice l 0 (length l) = l.
Proof. unfold slice. rewrite Nat.sub_0_r. simpl. apply firstn_all. Qed.

Lemma common_slice a b i j k :
  common a b i j k →
  slice a i (i + k) = slice b j (j + k) ∧ length (slice a i (i + k)) = k.
Proof.
  intros Hc. unfold slice.
  replace (i + k - i)%nat with k by lia.
  replace (j + k - j)%nat with k by lia. split.
  - apply list_eq. intros t. rewrite !lookup_take, !lookup_drop.
    case_decide; [|done]. by apply Hc.
  - rewrite length_take, length_drop. destruct k as [|k]; [done|].
    destruct (Hc k) as [Hs _]; [lia|].
    apply lookup_lt_is_Some in Hs. lia.
Qed.

Variables a b : list ascii.
Variable b2j : gmap ascii (list nat).
Hypothesis Hb2j : b2j_sound b b2j.

Lemma common_nil i j : common a b i j 0.
Proof. intros t Ht. lia. Qed.

Lemma same_at_true i j :
  same_at a b i j = true ↔ is_Some (a !! i) ∧ a !! i = b !! j.
Proof.
  unfold same_at. destruct (a !! i) as [x|], (b !! j) as [y|]; simpl.
  - rewrite bool_decide_eq_true. split; [intros ->; eauto|].
    by intros [_ [= ->]].
  - split; [done|]. by intros [_ ?].
  - split; [done|]. by intros [[? ?] _].
  - split; [done|]. by intros [[? ?] _].
Qed.

Lemma common_eq i j k i' j' k' :
  i = i' → j = j' → k = k' → common a b i j k → common a b i' j' k'.
Proof. by intros -> -> ->. Qed.

(** A match grows by one element on its right... *)
Lemma common_snoc i j k :
  common a b i j k → same_at a b (i + k) (j + k) = true →
  common a b i j (k + 1).
Proof.
  intros Hc Hs%same_at_true t Ht.
  destruct (decide (t = k)) as [->|]; [done|]. apply Hc. lia.
Qed.

(** ... and on its left. *)
Lemma common_cons i j k :
  common a b (S i) (S j) k → same_at a b i j = true →
  common a b i j (k + 1).
Proof.
  intros Hc Hs%same_at_true [|t] Ht.
  - by rewrite !Nat.add_0_r.
  - replace (i + S t)%nat with (S i + t)%nat by lia.
    replace (j + S t)%nat with (S j + t)%nat by lia. apply Hc. lia.
Qed.

Section Window.
Variables alo ahi blo bhi : nat.

Local Abbreviation row_ok := (DifflibSpec.row_ok a b alo blo bhi).

Lemma row_ok_empty i : row_ok i ∅.
Proof. intros j k. by rewrite lookup_empty. Qed.

Lemma scan_row_ok i j2len js newj2len best :
  (alo ≤ i < ahi)%nat →
  (∀ j, j ∈ js → is_Some (a !! i) ∧ a !! i = b !! j) →
  row_ok i j2len →
  row_ok (i + 1) newj2len →
  within a b alo ahi blo bhi best →
  row_ok (i + 1) (scan_row blo bhi i j2len js newj2len best).1
  ∧ within a b alo ahi blo bhi
      (scan_row blo bhi i j2len js newj2len best).2.
Proof.
  intros Hi. revert newj2len best.
  induction js as [|j js IH]; intros newj2len best Hjs Hold Hnew Hbest;
    simpl; [done|].
  assert (Hjs' : ∀ j', j' ∈ js → is_Some (a !! i) ∧ a !! i = b !! j')
    by (intros j' ?; apply Hjs; by right).
  destruct (Nat.ltb_spec j blo) as [Hlo|Hlo]; [by apply IH|].
  destruct (Nat.leb_spec bhi j) as [Hhi|Hhi]; [done|].
  set (k := (j2lenget_pred j2len j + 1)%nat).
  assert (Hk : (alo + k ≤ i + 1 ∧ blo + k ≤ j + 1)%nat
               ∧ common a b (i + 1 - k) (j + 1 - k) k).
  { destruct (Hjs j) as [Hai Hab]; [by left|].
    assert (Hsame : same_at a b i j = true) by (by apply same_at_true).
    assert (Hfresh : common a b i j 1).
    { apply (common_snoc i j 0); [apply common_nil|].
      by rewrite !Nat.add_0_r. }
    subst k. destruct j as [|j']; simpl j2lenget_pred.
    { split; [lia|]. by apply (common_eq i 0 1); [lia..|]. }
    destruct (j2len !! j') as [k'|] eqn:E; simpl default.
    - destruct (Hold j' k' E) as [(? & ? & ? & ?) Hc]. split; [lia|].
      apply (common_eq (i - k') (j' + 1 - k') (k' + 1)); [lia..|].
      apply common_snoc; [done|].
      replace (i - k' + k')%nat with i by lia.
      by replace (j' + 1 - k' + k')%nat with (S j') by lia.
    - split; [lia|]. by apply (common_eq i (S j') 1); [lia..|]. }
  destruct Hk as [[Hka Hkb] Hkc]. apply IH; [done..| |].
  - intros j0 k0. destruct (decide (j0 = j)) as [->|Hne].
    + rewrite lookup_insert_eq. intros [= <-].
      split; [subst k; lia | done].
    + rewrite lookup_insert_ne by done. apply Hnew.
  - destruct (block_size best <? k)%nat; [|done].
    split; simpl; [lia | done].
Qed.

Lemma scan_rows_ok n i j2len best :
  (alo ≤ i ∧ i + n ≤ ahi)%nat →
  row_ok i j2len →
  within a b alo ahi blo bhi best →
  within a b alo ahi blo bhi
    (scan_rows a b2j blo bhi (seq i n) j2len best).
Proof.
  revert i j2len best.
  induction n as [|n IH]; intros i j2len best Hi Hrow Hbest; simpl;
    [done|].
  set (js := match a !! i with
             | Some c => default [] (b2j !! c) | None => [] end).
  assert (Hjs : ∀ j, j ∈ js → is_Some (a !! i) ∧ a !! i = b !! j).
  { subst js. intros j. destruct (a !! i) as [c|] eqn:Ea.
    - destruct (b2j !! c) as [js|] eqn:Eb; simpl.
      + intros Hj. split; [eauto|]. symmetry. by apply (Hb2j c js).
      + by intros ?%elem_of_nil.
    - by intros ?%elem_of_nil. }
  destruct (scan_row_ok i j2len js ∅ best) as [Hrow' Hbest'];
    [lia | done | done | apply row_ok_empty | done |].
  destruct (scan_row blo bhi i j2len js ∅ best) as [new best'].
  apply IH; [lia | | done].
  by replace (S i) with (i + 1)%nat by lia.
Qed.

Lemma extend_left_ok junk besti bestj bestsize :
  within a b alo ahi blo bhi (besti, bestj, bestsize) →
  within a b alo ahi blo bhi
    (extend_left a b junk alo blo besti bestj bestsize).
Proof.
  revert bestj bestsize.
  induction besti as [|i IH]; intros bestj bestsize Hw; simpl; [done|].
  destruct bestj as [|j]; [done|].
  destruct (_ && _) eqn:Hcond; [|done].
  apply andb_prop in Hcond as [Hcond Hsame].
  apply andb_prop in Hcond as [Hcond _].
  apply andb_prop in Hcond as [Hi%Nat.ltb_lt Hj%Nat.ltb_lt].
  destruct Hw as [Hb Hc]; simpl in *.
  apply IH. split; simpl; [lia|]. by apply common_cons.
Qed.

Lemma extend_right_ok rounds junk besti bestj bestsize :
  within a b alo ahi blo bhi (besti, bestj, bestsize) →
  within a b alo ahi blo bhi
    (extend_right a b rounds junk ahi bhi besti bestj bestsize).
Proof.
  revert bestsize.
  induction rounds as [|n IH]; intros bestsize Hw; simpl; [done|].
  destruct (_ && _) eqn:Hcond; [|done].
  apply andb_prop in Hcond as [Hcond Hsame].
  apply andb_prop in Hcond as [Hcond _].
  apply andb_prop in Hcond as [Hi%Nat.ltb_lt Hj%Nat.ltb_lt].
  destruct Hw as [Hb Hc]; simpl in *.
  apply IH. split; simpl; [lia|]. by apply common_snoc.
Qed.

(** The loop to the right stops on its own test: rounds beyond
    [ahi - (besti + bestsize)] are never used. *)
Lemma extend_right_rounds n n' junk besti bestj bestsize :
  (ahi - (besti + bestsize) ≤ n)%nat → (ahi - (besti + bestsize) ≤ n')%nat →
  extend_right a b n junk ahi bhi besti bestj bestsize
  = extend_right a b n' junk ahi bhi besti bestj bestsize.
Proof.
  revert n' bestsize. induction n as [|n IH]; intros n' bestsize Hn Hn'.
  - destruct n' as [|n']; [done|]. simpl.
    by rewrite (proj2 (Nat.ltb_ge (besti + bestsize) ahi)) by lia.
  - destruct n' as [|n']; simpl.
    + by rewrite (proj2 (Nat.ltb_ge (besti + bestsize) ahi)) by lia.
    + destruct (Nat.ltb_spec (besti + bestsize) ahi); [|done].
      destruct (_ && _); [|done]. apply IH; lia.
Qed.

(** [find_longest_match] returns a block of equal elements inside
    the window it was given. *)
Lemma find_longest_match_within :
  (alo ≤ ahi)%nat → (blo ≤ bhi)%nat →
  within a b alo ahi blo bhi (find_longest_match a b b2j alo ahi blo bhi).
Proof.
  intros Ha Hb. unfold find_longest_match.
  assert (H0 : within a b alo ahi blo bhi
            (scan_rows a b2j blo bhi (seq alo (ahi - alo)) ∅
               (alo, blo, 0%nat))).
  { apply scan_rows_ok; [lia | apply row_ok_empty |].
    split; simpl; [lia | apply common_nil]. }
  destruct (scan_rows _ _ _ _ _ _ _) as [[i0 j0] k0].
  apply (extend_left_ok false) in H0.
  destruct (extend_left _ _ false _ _ _ _ _) as [[i1 j1] k1].
  apply (extend_right_ok (ahi - (i1 + k1)) false) in H0.
  destruct (extend_right _ _ _ false _ _ _ _ _) as [[i2 j2] k2].
  apply (extend_left_ok true) in H0.
  destruct (extend_left _ _ true _ _ _ _ _) as [[i3 j3] k3].
  by apply extend_right_ok.
Qed.

End Window.

(** *** The work list *)

(** One round on the window [r]: the block found and the windows left
    and right of it stay within what [r] could contribute. *)
Lemma block_capacity alo ahi blo bhi i j k :
  region_ok (alo, ahi, blo, bhi) →
  find_longest_match a b b2j alo ahi blo bhi = (i, j, k) →
  (alo ≤ i ∧ i + k ≤ ahi ∧ blo ≤ j ∧ j + k ≤ bhi)%nat
  ∧ (capacity a b (alo, i, blo, j) + k + capacity a b (i + k, ahi, j + k, bhi)
     ≤ capacity a b (alo, ahi, blo, bhi))%nat.
Proof.
  intros [Ha Hb] Hf. simpl in Ha, Hb.
  pose proof (find_longest_match_within alo ahi blo bhi Ha Hb) as [Hw Hc].
  rewrite Hf in Hw, Hc. simpl in Hw, Hc. split; [done|].
  unfold capacity. simpl.
  rewrite (slice_split a alo i k ahi), (slice_split b blo j k bhi) by lia.
  destruct (common_slice a b i j k Hc) as [<- Hlen].
  rewrite <-Hlen at 1. apply shared_middle.
Qed.

Lemma blocks_loop_bound rounds queue acc :
  Forall region_ok queue →
  (sum_list_with block_size (blocks_loop a b b2j rounds queue acc)
   ≤ sum_list_with block_size acc + sum_list_with (capacity a b) queue)%nat.
Proof.
  revert queue acc.
  induction rounds as [|n IH]; intros queue acc Hq; simpl; [lia|].
  destruct queue as [|[[[alo ahi] blo] bhi] queue]; [simpl; lia|].
  apply Forall_cons in Hq as [Hr Hq].
  destruct (find_longest_match a b b2j alo ahi blo bhi) as [[i j] k] eqn:Hf.
  destruct (block_capacity _ _ _ _ _ _ _ Hr Hf) as [Hw Hcap].
  simpl sum_list_with at 3.
  destruct (Nat.ltb_spec 0 k) as [Hk|Hk].
  - set (q1 := if (alo <? i)%nat && (blo <? j)%nat
               then (alo, i, blo, j) :: queue else queue).
    set (q2 := if (i + k <? ahi)%nat && (j + k <? bhi)%nat
               then (i + k, ahi, j + k, bhi)%nat :: q1 else q1).
    assert (H1 : Forall region_ok q1
                 ∧ (sum_list_with (capacity a b) q1
                    ≤ capacity a b (alo, i, blo, j)
                      + sum_list_with (capacity a b) queue)%nat).
    { subst q1. destruct ((alo <? i)%nat && (blo <? j)%nat); simpl;
        [|split; [done | lia]].
      split; [|lia]. apply Forall_cons. split; [|done].
      unfold region_ok; simpl; lia. }
    destruct H1 as [Hq1 Hs1].
    assert (H2 : Forall region_ok q2
                 ∧ (sum_list_with (capacity a b) q2
                    ≤ capacity a b (i + k, ahi, j + k, bhi)%nat
                      + sum_list_with (capacity a b) q1)%nat).
    { subst q2. destruct ((i + k <? ahi)%nat && (j + k <? bhi)%nat); simpl;
        [|split; [done | lia]].
      split; [|lia]. apply Forall_cons. split; [|done].
      unfold region_ok; simpl; lia. }
    destruct H2 as [Hq2 Hs2].
    etrans; [apply IH, Hq2|].
    rewrite sum_list_with_app. simpl. lia.
  - etrans; [apply IH, Hq|]. lia.
Qed.

(** The loop stops because the work list is empty: more rounds than
    [rounds_of] change nothing. *)
Lemma rounds_of_cons alo ahi blo bhi queue :
  rounds_of ((alo, ahi, blo, bhi) :: queue)
  = (2 * (ahi - alo) + 1 + rounds_of queue)%nat.
Proof. reflexivity. Qed.

Lemma blocks_loop_rounds n n' queue acc :
  Forall region_ok queue →
  (rounds_of queue ≤ n)%nat → (rounds_of queue ≤ n')%nat →
  blocks_loop a b b2j n queue acc = blocks_loop a b b2j n' queue acc.
Proof.
  revert n' queue acc.
  induction n as [|n IH]; intros n' queue acc Hq Hn Hn'.
  - destruct queue as [|[[[alo ahi] blo] bhi] queue]; [by destruct n'|].
    rewrite rounds_of_cons in Hn. lia.
  - destruct queue as [|[[[alo ahi] blo] bhi] queue]; [by destruct n'|].
    rewrite rounds_of_cons in Hn, Hn'.
    destruct n' as [|n']; [lia|].
    apply Forall_cons in Hq as [Hr Hq]. simpl.
    destruct (find_longest_match a b b2j alo ahi blo bhi)
      as [[i j] k] eqn:Hf.
    destruct (block_capacity _ _ _ _ _ _ _ Hr Hf) as [Hw _].
    destruct (Nat.ltb_spec 0 k) as [Hk|Hk]; [|apply IH; [done | lia | lia]].
    set (q1 := if (alo <? i)%nat && (blo <? j)%nat
               then (alo, i, blo, j) :: queue else queue).
    set (q2 := if (i + k <? ahi)%nat && (j + k <? bhi)%nat
               then (i + k, ahi, j + k, bhi)%nat :: q1 else q1).
    assert (H1 : Forall region_ok q1
                 ∧ (rounds_of q1
                    ≤ 2 * (i - alo) + 1 + rounds_of queue)%nat).
    { subst q1. destruct ((alo <? i)%nat && (blo <? j)%nat);
        [|split; [done | lia]].
      rewrite rounds_of_cons. split; [|lia].
      apply Forall_cons. split; [|done]. unfold region_ok; simpl; lia. }
    destruct H1 as [Hq1 Hs1].
    assert (H2 : Forall region_ok q2
                 ∧ (rounds_of q2
                    ≤ 2 * (ahi - (i + k)) + 1 + rounds_of q1)%nat).
    { subst q2. destruct ((i + k <? ahi)%nat && (j + k <? bhi)%nat);
        [|split; [done | lia]].
      rewrite rounds_of_cons. split; [|lia].
      apply Forall_cons. split; [|done]. unfold region_ok; simpl; lia. }
    destruct H2 as [Hq2 Hs2].
    apply IH; [done | lia | lia].
Qed.

Lemma collapse_sum i1 j1 k1 blocks :
  sum_list_with block_size (collapse i1 j1 k1 blocks)
  = (k1 + sum_list_with block_size blocks)%nat.
Proof.
  revert i1 j1 k1.
  induction blocks as [|[[i2 j2] k2] blocks IH]; intros i1 j1 k1; simpl.
  - destruct (Nat.ltb_spec 0 k1); simpl; unfold block_size; simpl; lia.
  - destruct (_ && _).
    + rewrite IH. unfold block_size; simpl; lia.
    + rewrite sum_list_with_app, IH.
      destruct (Nat.ltb_spec 0 k1); simpl; unfold block_size; simpl; lia.
Qed.

(** The blocks of [get_matching_blocks] never hold more elements than
    the two sequences have in common. *)
Lemma matches_le_shared : (matches a b b2j ≤ shared a b)%nat.
Proof.
  unfold matches, get_matching_blocks.
  rewrite sum_list_with_app, collapse_sum, merge_sort_Permutation.
  change (sum_list_with block_size [(length a, length b, 0%nat)])
    with 0%nat.
  rewrite Nat.add_0_l, Nat.add_0_r.
  etrans; [apply blocks_loop_bound|].
  - apply Forall_singleton. unfold region_ok; simpl; lia.
  - simpl. unfold capacity. simpl. by rewrite !slice_all, Nat.add_0_r.
Qed.

End MatcherFacts.

(** ** [quick_ratio] *)

Section QuickRatioFacts.
Import Difflib DifflibSpec.
Variables a b : list ascii.

Lemma fullbcount_lookup c :
  default 0%Z (fullbcount b !! c)
  = Z.of_nat (multiplicity c (list_to_set_disj b : gmultiset ascii)).
Proof.
  unfold fullbcount.
  assert (H : ∀ (l : list ascii) (m : gmap ascii Z),
    default 0%Z
      (foldl (λ (m : gmap ascii Z) elt,
                <[elt := (default 0 (m !! elt) + 1)%Z]> m) m l !! c)
    = (default 0 (m !! c)
       + Z.of_nat (multiplicity c (list_to_set_disj l : gmultiset ascii)))%Z).
  { induction l as [|x l IH]; intros m; simpl.
    - rewrite multiplicity_empty. lia.
    - rewrite IH, multiplicity_disj_union, multiplicity_singleton.
      destruct (decide (c = x)) as [->|Hne].
      + rewrite lookup_insert_eq. simpl. lia.
      + rewrite lookup_insert_ne by done. lia. }
  rewrite H, lookup_empty. simpl. lia.
Qed.

Lemma quick_loop_shared elts P avail acc :
  avail_ok b P avail →
  (quick_loop b elts avail acc + size (P ∩ list_to_set_disj b)
   = acc + size ((P ⊎ list_to_set_disj elts) ∩ list_to_set_disj b))%nat.
Proof.
  revert P avail acc.
  induction elts as [|x elts IH]; intros P avail acc Hav; simpl.
  - by rewrite (right_id_L ∅ (⊎)).
  - set (B := list_to_set_disj b : gmultiset ascii) in *.
    set (numb := match avail !! x with
                 | Some n => n
                 | None => default 0%Z (fullbcount b !! x)
                 end).
    assert (Hnumb : numb = (Z.of_nat (multiplicity x B)
                            - Z.of_nat (multiplicity x P))%Z).
    { subst numb. pose proof (Hav x) as Hx.
      destruct (avail !! x); [done|]. rewrite fullbcount_lookup. fold B. lia. }
    assert (Hav' : avail_ok b (P ⊎ {[+ x +]}) (<[x := (numb - 1)%Z]> avail)).
    { intros c. rewrite multiplicity_disj_union, multiplicity_singleton.
      destruct (decide (c = x)) as [->|Hne].
      - rewrite lookup_insert_eq. fold B. lia.
      - rewrite lookup_insert_ne by done. pose proof (Hav c) as Hc.
        destruct (avail !! c); fold B in Hc |- *; lia. }
    specialize (IH _ _ (if (0 <? numb)%Z then (acc + 1)%nat else acc) Hav').
    fold B in IH.
    replace (P ⊎ ({[+ x +]} ⊎ list_to_set_disj elts))
      with (P ⊎ {[+ x +]} ⊎ list_to_set_disj elts) by multiset_solver.
    destruct (Z.ltb_spec 0 numb) as [Hpos|Hpos].
    + assert (Heq : (P ⊎ {[+ x +]}) ∩ B = (P ∩ B) ⊎ {[+ x +]})
        by multiset_solver.
      rewrite Heq, gmultiset_size_disj_union, gmultiset_size_singleton in IH.
      lia.
    + assert (Heq : (P ⊎ {[+ x +]}) ∩ B = P ∩ B) by multiset_solver.
      rewrite Heq in IH. lia.
Qed.

(** [quick_ratio] counts the elements in common. *)
Lemma quick_loop_counts : quick_loop b a ∅ 0%nat = shared a b.
Proof.
  assert (Hav : avail_ok b ∅ ∅) by (intros c; by rewrite lookup_empty).
  pose proof (quick_loop_shared a ∅ ∅ 0%nat Hav) as H.
  replace (∅ ∩ list_to_set_disj b) with (∅ : gmultiset ascii) in H
    by multiset_solver.
  replace (∅ ⊎ list_to_set_disj a)
    with (list_to_set_disj a : gmultiset ascii) in H by multiset_solver.
  pose proof (gmultiset_size_empty (A:=ascii)) as H0.
  unfold shared. lia.
Qed.

End QuickRatioFacts.

(** ** [difflib.get_close_matches] *)

Section RankingFacts.
Import Difflib DifflibSpec.

Lemma calculate_ratio_mono (m m' len : nat) :
  (m ≤ m')%nat → Qle (_calculate_ratio m len) (_calculate_ratio m' len).
Proof.
  intros Hm. unfold _calculate_ratio.
  destruct (len =? 0)%nat; [apply Qle_refl|].
  unfold Qle. simpl. nia.
Qed.

Lemma calculate_ratio_range (m len : nat) :
  (2 * m ≤ len)%nat →
  Qle 0 (_calculate_ratio m len) ∧ Qle (_calculate_ratio m len) 1.
Proof.
  intros Hm. unfold _calculate_ratio.
  destruct len as [|n]; [done|].
  change (S n =? 0)%nat with false. cbv iota.
  unfold Qle. cbn [Qnum Qden].
  rewrite <-Pos.of_nat_succ, Zpos_P_of_succ_nat. lia.
Qed.

Variables (a b : list ascii) (b2j : gmap ascii (list nat)).
Hypothesis Hb2j : b2j_sound b b2j.

Lemma ratio_le_quick_ratio : Qle (ratio a b b2j) (quick_ratio a b).
Proof.
  unfold ratio, quick_ratio. apply calculate_ratio_mono.
  rewrite quick_loop_counts. by apply matches_le_shared.
Qed.

Lemma ratio_le_real_quick_ratio : Qle (ratio a b b2j) (real_quick_ratio a b).
Proof.
  unfold ratio, real_quick_ratio. apply calculate_ratio_mono.
  pose proof (matches_le_shared a b b2j Hb2j).
  pose proof (shared_le_l a b). pose proof (shared_le_r a b). lia.
Qed.

(** A ratio is a number between 0 and 1. *)
Lemma ratio_range : Qle 0 (ratio a b b2j) ∧ Qle (ratio a b b2j) 1.
Proof.
  apply calculate_ratio_range.
  pose proof (matches_le_shared a b b2j Hb2j).
  pose proof (shared_le_l a b). pose proof (shared_le_r a b). lia.
Qed.

(** The two cheap tests of [get_close_matches] never reject what the
    real ratio accepts. *)
Lemma three_tests cutoff :
  Qle_bool cutoff (real_quick_ratio a b)
  && Qle_bool cutoff (quick_ratio a b)
  && Qle_bool cutoff (ratio a b b2j)
  = Qle_bool cutoff (ratio a b b2j).
Proof.
  destruct (Qle_bool cutoff (ratio a b b2j)) eqn:E;
    [|by rewrite andb_false_r].
  apply Qle_bool_iff in E.
  assert (H1 : Qle_bool cutoff (real_quick_ratio a b) = true).
  { apply Qle_bool_iff. eapply Qle_trans; [exact E|].
    apply ratio_le_real_quick_ratio. }
  assert (H2 : Qle_bool cutoff (quick_ratio a b) = true).
  { apply Qle_bool_iff. eapply Qle_trans; [exact E|].
    apply ratio_le_quick_ratio. }
  by rewrite H1, H2.
Qed.

End RankingFacts.

(** ** The ranking *)

Section OrderFacts.
Import Difflib DifflibSpec.

(** [scored_le] in terms of the order of the rationals. *)
Lemma scored_le_alt (p q : Q * string) :
  scored_le p q ↔ Qlt p.1 q.1 ∨ (Qeq p.1 q.1 ∧ String.le p.2 q.2).
Proof.
  unfold scored_le. destruct (Qeq_bool p.1 q.1) eqn:E.
  - apply Qeq_bool_iff in E. split; [by right|].
    intros [Hlt|[_ ?]]; [|done]. by apply Qlt_not_eq in Hlt.
  - apply Qeq_bool_neq in E. rewrite Qle_bool_iff, Qle_lteq. tauto.
Qed.

Global Instance scored_le_total : Total scored_le.
Proof.
  intros p q. rewrite !scored_le_alt.
  destruct (Q_dec p.1 q.1) as [[Hlt|Hgt]|Heq]; [by left; left | by right; left|].
  destruct (total String.le p.2 q.2).
  - left; right. done.
  - right; right. split; [by symmetry | done].
Qed.

Global Instance scored_le_trans : Transitive scored_le.
Proof.
  intros p q r. rewrite !scored_le_alt.
  intros [H1|[H1 L1]] [H2|[H2 L2]].
  - left. by eapply Qlt_trans.
  - left. by rewrite <-H2.
  - left. by rewrite H1.
  - right. split; [by rewrite H1 | by etrans].
Qed.

Global Instance flip_scored_le_total : Total (flip scored_le).
Proof. intros p q. unfold flip. destruct (total scored_le p q); auto. Qed.

Global Instance flip_scored_le_trans : Transitive (flip scored_le).
Proof. intros p q r ? ?. unfold flip in *. by etrans. Qed.

Lemma flat_map_filter {A B} (f : A → bool) (g : A → B) (l : list A) :
  List.flat_map (λ x, if f x then [g x] else []) l = g <$> List.filter f l.
Proof.
  induction l as [|x l IH]; simpl; [done|].
  rewrite IH. by destruct (f x).
Qed.

(** The possibilities that pass the three tests, with their scores, are
    the possibilities whose ratio reaches the cutoff. *)
Lemma close_enough (word : string) (cutoff : Q) (possibilities : list string) :
  let seq2 := list_ascii_of_string word in
  List.flat_map
    (λ x,
       let seq1 := list_ascii_of_string x in
       if Qle_bool cutoff (real_quick_ratio seq1 seq2)
          && Qle_bool cutoff (quick_ratio seq1 seq2)
          && Qle_bool cutoff (ratio seq1 seq2 (chain_b seq2))
       then [(ratio seq1 seq2 (chain_b seq2), x)] else [])
    possibilities
  = (λ x, (score word x, x))
      <$> List.filter (λ x, Qle_bool cutoff (score word x)) possibilities.
Proof.
  intros seq2.
  rewrite <-(flat_map_filter (λ x, Qle_bool cutoff (score word x))
               (λ x, (score word x, x))).
  apply List.flat_map_ext. intros x. cbv zeta.
  by rewrite three_tests by apply chain_b_sound.
Qed.

(** What [get_close_matches] returns for a positive [n] and a cutoff
    between 0 and 1. *)
Lemma get_close_matches_ranked (word : string) (possibilities : list string)
    (n : Z) (cutoff : Q) :
  (0 < n)%Z → Qle 0 cutoff → Qle cutoff 1 →
  ∃ ranked : list string,
    get_close_matches word possibilities n cutoff
    = Ok (take (Z.to_nat n) ranked)
    ∧ ranked ≡ₚ List.filter (λ x, Qle_bool cutoff (score word x)) possibilities
    ∧ StronglySorted
        (λ x y, scored_le (score word y, y) (score word x, x)) ranked.
Proof.
  intros Hn H0 H1. unfold get_close_matches.
  rewrite (proj2 (Z.ltb_lt 0 n) Hn).
  rewrite (proj2 (Qle_bool_iff _ _) H0), (proj2 (Qle_bool_iff _ _) H1).
  cbn [negb andb]. rewrite close_enough. unfold nlargest.
  set (close := List.filter _ possibilities).
  set (scored := (λ x, (score word x, x)) <$> close).
  exists ((merge_sort (flip scored_le) scored).*2).
  assert (Hperm : merge_sort (flip scored_le) scored ≡ₚ scored)
    by apply merge_sort_Permutation.
  split_and!.
  - by rewrite fmap_take.
  - rewrite Hperm. subst scored. rewrite <-list_fmap_compose.
    by rewrite list_fmap_id.
  - assert (Hs : StronglySorted (flip scored_le)
                   (merge_sort (flip scored_le) scored))
      by apply (StronglySorted_merge_sort _).
    assert (Hall : Forall (λ p, p = (score word p.2, p.2))
                     (merge_sort (flip scored_le) scored)).
    { rewrite Hperm. subst scored. by apply Forall_fmap, Forall_true. }
    clear Hperm.
    induction Hs as [|p l Hl IH Hp]; simpl; [constructor|].
    apply Forall_cons in Hall as [Hp0 Hall].
    constructor; [by apply IH|].
    rewrite Forall_fmap. rewrite Forall_forall in Hp, Hall |- *.
    intros q Hq. simpl. rewrite <-(Hall q Hq), <-Hp0. by apply Hp.
Qed.

End OrderFacts.

(** ** Claim about [suggest] *)

Section SuggestClaims.
Import PyDict Difflib DifflibSpec.

(** C2, as stated, fails twice on [{"abc": _, "abd": _}] and the query
    ["ab"]: with [max_results = 0] the call raises [ValueError] instead
    of returning an empty list, and the two keys, whose ratios are
    equal, come back as ["abd"], ["abc"], the reverse of their order in
    the mapping. *)
Lemma suggest_counterexample :
  let self := AgentV3.mkAgent [("abc", "first"); ("abd", "second")] in
  AgentV3.suggest "ab" 0 self = Raise ValueError
  ∧ Qeq (score "ab" "abc") (score "ab" "abd")
  ∧ AgentV3.suggest "ab" 5 self = Ok ["abd"; "abc"].
Proof. split_and!; vm_compute; reflexivity. Qed.

(** C2, amended.  For a positive [max_results], [suggest] returns the
    first [max_results] entries of a list that holds exactly the keys
    whose ratio to the query is at least 0.4 (the cutoff is fixed), in
    descending order of the pair (ratio, key): keys of equal ratio come
    in descending [str] order.  For [max_results <= 0] it raises
    [ValueError].  With no keys the result is empty;
    [suggest("exampl")] over the keys example, function, cache is
    [["example"]], whose ratio exceeds 0.4; [suggest("zzzzz")] over the
    built-in keys is empty. *)
Theorem suggest_ranking (query : string) (max_results : Z)
    (self : AgentV3.DictionaryAgent) :
  (if decide (0 < max_results)%Z then
     ∃ ranked : list string,
       AgentV3.suggest query max_results self
       = Ok (take (Z.to_nat max_results) ranked)
       ∧ ranked ≡ₚ List.filter (λ k, Qle_bool (Qmake 4 10) (score query k))
                     (keys (AgentV3.data self))
       ∧ StronglySorted
           (λ x y, scored_le (score query y, y) (score query x, x)) ranked
   else AgentV3.suggest query max_results self = Raise ValueError)
  ∧ (∀ n : positive,
       AgentV3.suggest query (Z.pos n) (AgentV3.mkAgent []) = Ok [])
  ∧ AgentV3.suggest "exampl" 5
      (AgentV3.mkAgent [("example", ""); ("function", ""); ("cache", "")])
    = Ok ["example"]
  ∧ Qlt (Qmake 4 10) (score "exampl" "example")
  ∧ AgentV3.suggest "zzzzz" 5 AgentV3.default = Ok [].
Proof.
  split_and!.
  - case_decide as Hn.
    + by apply get_close_matches_ranked.
    + unfold AgentV3.suggest, get_close_matches.
      by rewrite (proj2 (Z.ltb_ge 0 max_results)) by lia.
  - intros n. unfold AgentV3.suggest, get_close_matches, nlargest.
    simpl. change (merge_sort (flip scored_le) []) with (@nil (Q * string)).
    by rewrite take_nil.
  - vm_compute. reflexivity.
  - vm_compute. reflexivity.
  - vm_compute. reflexivity.
Qed.

End SuggestClaims.

(** ** [json]: decoding what [dumps] wrote *)

Section JsonFacts.
Import PyDict Json JsonSpec.

Lemma append_cons (c : ascii) (s t : string) :
  (String c s ++ t = String c (s ++ t))%string.
Proof. reflexivity. Qed.

Lemma append_nil_l (t : string) : (EmptyString ++ t = t)%string.
Proof. reflexivity. Qed.

Lemma append_assoc (s t u : string) :
  ((s ++ t) ++ u = s ++ (t ++ u))%string.
Proof. induction s as [|c s IH]; [done|]. by rewrite !append_cons, IH. Qed.

Lemma length_append (s t : string) :
  String.length (s ++ t) = (String.length s + String.length t)%nat.
Proof. induction s as [|c s IH]; [done|]. rewrite append_cons. simpl. lia. Qed.

(** One escaped character decodes to the character. *)
Lemma scanstring_escape_char (c : ascii) (tail : string) :
  scanstring (escape_char c ++ tail)
  = '(str, r) ← scanstring tail; Ok (String c str, r).
Proof. destruct c as [[] [] [] [] [] [] [] []]; reflexivity. Qed.

(** [scanstring] undoes [escape] up to the closing quote. *)
Lemma scanstring_escape (s tail : string) :
  scanstring (escape s ++ String dquote tail) = Ok (s, tail).
Proof.
  induction s as [|c s IH]; [done|].
  cbn [escape]. rewrite append_assoc, scanstring_escape_char, IH. done.
Qed.

Create Rewrite HintDb string_app.
Hint Rewrite append_cons append_nil_l append_assoc : string_app.

Variable py : Interpreter.
Local Abbreviation match_number := (Json.match_number py).
Local Abbreviation scan_once := (Json.scan_once py).
Local Abbreviation object_loop := (Json.object_loop py).
Local Abbreviation array_loop := (Json.array_loop py).
Local Abbreviation decode := (Json.decode py).
Local Abbreviation loads := (Json.loads py).

Lemma encode_items_text (items : list (string * string)) (tail : string) :
  (encode_items false items ++ tail)%string = items_text items tail.
Proof.
  induction items as [|[k v] items IH]; [done|].
  cbn [encode_items items_text]. rewrite <-IH.
  unfold member_text, encode_basestring, newline_indent.
  autorewrite with string_app. reflexivity.
Qed.

Lemma dumps_text (k v : string) (items : list (string * string)) :
  dumps ((k, v) :: items)
  = String "{" (String "010" (String " " (String " " (String dquote
      (member_text k v (items_text items (String "010" "}"))))))).
Proof.
  unfold dumps. cbn [encode_items]. rewrite <-encode_items_text.
  unfold member_text, encode_basestring, newline_indent.
  autorewrite with string_app. reflexivity.
Qed.

Lemma skip_ws_dquote (s : string) :
  skip_ws (String dquote s) = String dquote s.
Proof. reflexivity. Qed.

Lemma scan_once_dquote (n depth : nat) (rest : string) :
  scan_once (S n) depth (String dquote rest)
  = '(str, r) ← scanstring rest; Ok (PStr str, r).
Proof. reflexivity. Qed.

Lemma object_loop_S (n depth : nat) (s : string)
    (pairs : list (string * pyval)) :
  object_loop (S n) depth s pairs
  = '(key, s1) ← scanstring s;
    match skip_ws s1 with
    | String c2 s2 =>
        if Ascii.eqb c2 ":" then
          '(value, s3) ← scan_once n depth (skip_ws s2);
          let pairs := (pairs ++ [(key, value)])%list in
          match skip_ws s3 with
          | String c4 s4 =>
              if Ascii.eqb c4 "}" then Ok (PDict (dict_of_pairs pairs), s4)
              else if Ascii.eqb c4 "," then
                match skip_ws s4 with
                | String c5 s5 =>
                    if Ascii.eqb c5 dquote
                    then object_loop n depth s5 pairs
                    else Raise JSONDecodeError
                | EmptyString => Raise JSONDecodeError
                end
              else Raise JSONDecodeError
          | EmptyString => Raise JSONDecodeError
          end
        else Raise JSONDecodeError
    | EmptyString => Raise JSONDecodeError
    end.
Proof. reflexivity. Qed.

Lemma array_loop_S (n depth : nat) (s : string) (values : list pyval) :
  array_loop (S n) depth s values
  = '(value, s1) ← scan_once n depth s;
    let values := (values ++ [value])%list in
    match skip_ws s1 with
    | String c2 s2 =>
        if Ascii.eqb c2 "]" then Ok (PList values, s2)
        else if Ascii.eqb c2 "," then array_loop n depth (skip_ws s2) values
        else Raise JSONDecodeError
    | EmptyString => Raise JSONDecodeError
    end.
Proof. reflexivity. Qed.

Lemma scan_once_S (n depth : nat) (c : ascii) (rest : string) :
  scan_once (S n) depth (String c rest)
  = if Ascii.eqb c dquote then
      '(str, r) ← scanstring rest; Ok (PStr str, r)
    else if Ascii.eqb c "{" then
      match depth with
      | O => Raise RecursionError
      | S depth' =>
          match skip_ws rest with
          | String c1 r1 =>
              if Ascii.eqb c1 dquote then object_loop n depth' r1 []
              else if Ascii.eqb c1 "}" then Ok (PDict [], r1)
              else Raise JSONDecodeError
          | EmptyString => Raise JSONDecodeError
          end
      end
    else if Ascii.eqb c "[" then
      match depth with
      | O => Raise RecursionError
      | S depth' =>
          match skip_ws rest with
          | String c1 r1 =>
              if Ascii.eqb c1 "]" then Ok (PList [], r1)
              else array_loop n depth' (String c1 r1) []
          | EmptyString => array_loop n depth' EmptyString []
          end
      end
    else
      let s := String c rest in
      match strip "null" s, strip "true" s, strip "false" s with
      | Some r, _, _ => Ok (PNone, r)
      | _, Some r, _ => Ok (PBool true, r)
      | _, _, Some r => Ok (PBool false, r)
      | None, None, None =>
          match match_number s with
          | Some number => number
          | None =>
              match strip "NaN" s, strip "Infinity" s,
                    strip "-Infinity" s with
              | Some r, _, _ => Ok (PFloat "nan", r)
              | _, Some r, _ => Ok (PFloat "inf", r)
              | _, _, Some r => Ok (PFloat "-inf", r)
              | None, None, None => Raise JSONDecodeError
              end
          end
      end.
Proof. reflexivity. Qed.

(** One round of the loop of [JSONObject] on an item [dumps] wrote. *)
Lemma object_loop_member (n depth : nat) (k v tail : string)
    (pairs : list (string * pyval)) :
  object_loop (S (S n)) depth (member_text k v tail) pairs
  = let pairs := (pairs ++ [(k, PStr v)])%list in
    match skip_ws tail with
    | String c4 s4 =>
        if Ascii.eqb c4 "}" then Ok (PDict (dict_of_pairs pairs), s4)
        else if Ascii.eqb c4 "," then
          match skip_ws s4 with
          | String c5 s5 =>
              if Ascii.eqb c5 dquote then object_loop (S n) depth s5 pairs
              else Raise JSONDecodeError
          | EmptyString => Raise JSONDecodeError
          end
        else Raise JSONDecodeError
    | EmptyString => Raise JSONDecodeError
    end.
Proof.
  rewrite object_loop_S. unfold member_text. rewrite scanstring_escape.
  cbn [mbind result_bind].
  change (skip_ws (String ":" (String " " (String dquote
            (escape v ++ String dquote tail)))))
    with (String ":" (String " " (String dquote
            (escape v ++ String dquote tail)))).
  cbv iota beta. cbn [Ascii.eqb Bool.eqb].
  change (skip_ws (String " " (String dquote
            (escape v ++ String dquote tail))))
    with (String dquote (escape v ++ String dquote tail)).
  rewrite scan_once_dquote, scanstring_escape. reflexivity.
Qed.

(** The loop of [JSONObject] reads the items [dumps] wrote. *)
Lemma object_loop_items (items : list (string * string)) :
  ∀ (n depth : nat) (k v rest : string) (pairs : list (string * pyval)),
    (length items + 2 ≤ n)%nat →
    object_loop n depth (member_text k v
                     (items_text items (String "010" (String "}" rest))))
      pairs
    = Ok (PDict (dict_of_pairs
                   (pairs ++ (k, PStr v) :: as_object items)%list), rest).
Proof.
  induction items as [|[k2 v2] items IH]; intros n depth k v rest pairs Hn.
  - destruct n as [|[|n]]; [simpl in Hn; lia..|].
    rewrite object_loop_member. reflexivity.
  - destruct n as [|[|n]]; [simpl in Hn; lia..|].
    rewrite object_loop_member. cbn [items_text].
    change (skip_ws (String "," ?x)) with (String "," x).
    cbv zeta. cbn [Ascii.eqb Bool.eqb].
    change (skip_ws (String "010" (String " " (String " "
              (String dquote ?x)))))
      with (String dquote x).
    cbv iota beta. rewrite Ascii.eqb_refl.
    rewrite IH by (simpl in Hn |- *; lia).
    by rewrite <-app_assoc.
Qed.

(** Binding keys that are all new, one after the other, lists them. *)
Lemma foldl_set_fresh {V W} (f : W → V) (l : list (string * W)) :
  ∀ acc : dict V,
    NoDup (keys acc ++ l.*1) →
    foldl (λ d kv, set kv.1 (f kv.2) d) acc l
    = (acc ++ ((λ kv, (kv.1, f kv.2)) <$> l))%list.
Proof.
  induction l as [|[k v] l IH]; intros acc Hnd; simpl.
  - by rewrite app_nil_r.
  - rewrite set_absent.
    + rewrite IH, <-app_assoc; [done|].
      unfold keys. rewrite fmap_app. simpl. by rewrite <-app_assoc.
    + apply NoDup_app in Hnd as (_ & Hnd & _). intros Hin.
      apply (Hnd k Hin). left.
Qed.

Lemma dict_of_pairs_fresh (pairs : list (string * pyval)) :
  NoDup pairs.*1 → dict_of_pairs pairs = pairs.
Proof.
  intros Hnd. unfold dict_of_pairs.
  rewrite (foldl_set_fresh (λ v, v) pairs []) by done.
  simpl. induction pairs as [|[k v] pairs IH]; [done|].
  apply list.NoDup_cons in Hnd as [_ Hnd]. simpl. f_equal. by apply IH.
Qed.

Lemma wf_dict_of_pairs (pairs : list (string * pyval)) :
  wf (dict_of_pairs pairs).
Proof.
  unfold dict_of_pairs.
  assert (H : ∀ acc : dict pyval, wf acc →
                wf (foldl (λ d kv, set kv.1 kv.2 d) acc pairs)).
  { induction pairs as [|[k v] pairs IH]; intros acc Hacc; simpl; [done|].
    apply IH. by apply wf_set. }
  apply H. apply NoDup_nil_2.
Qed.

Lemma length_items_text (items : list (string * string)) (tail : string) :
  (length items ≤ String.length (items_text items tail))%nat.
Proof.
  induction items as [|[k v] items IH]; simpl; [lia|].
  unfold member_text. rewrite length_append. simpl.
  rewrite length_append. simpl. lia.
Qed.

(** [loads] reads back what [dumps] wrote: the same keys, in the same
    order, each bound to its string. *)
Lemma loads_dumps (d : dict string) :
  wf d → loads (dumps d) = Ok (PDict (as_object d)).
Proof.
  intros Hd. destruct d as [|[k v] items]; [reflexivity|].
  rewrite dumps_text. unfold Json.loads, Json.decode.
  set (body := member_text k v (items_text items (String "010" "}"))).
  change (skip_ws (String "{" ?x)) with (String "{" x).
  assert (Hlen : (length items + 2 ≤ String.length body)%nat).
  { subst body. unfold member_text. rewrite length_append. simpl.
    rewrite length_append. simpl.
    pose proof (length_items_text items (String "010" "}")). lia. }
  replace (2 * String.length (String "{" (String "010" (String " "
             (String " " (String dquote body))))) + 1)%nat
    with (S (2 * String.length body + 10)) by (simpl; lia).
  change (scan_once (S ?n) (S ?room) (String "{" (String "010" (String " "
             (String " " (String dquote ?x))))))
    with (object_loop n room x []).
  subst body. rewrite object_loop_items by lia.
  cbn [mbind result_bind skip_ws app]. f_equal. f_equal.
  apply (dict_of_pairs_fresh ((k, PStr v) :: as_object items)).
  change (NoDup (as_object ((k, v) :: items)).*1).
  unfold as_object. rewrite <-list_fmap_compose. exact Hd.
Qed.

(** *** What [loads] can return *)

Lemma match_number_scalar (s : string) (v : pyval) (r : string) :
  match_number s = Some (Ok (v, r)) →
  (∃ z, v = PInt z) ∨ (∃ lexeme, v = PFloat lexeme).
Proof.
  unfold Json.match_number.
  destruct (match_integer s) as [[integer r0]|]; [|done].
  destruct (match_frac r0) as [frac r1]. destruct (match_exp r1) as [exp r2].
  destruct frac, exp; try (intros [= <- <-]; by eauto).
  destruct (too_many_digits py integer); [done|]. intros [= <- <-]. eauto.
Qed.

Lemma array_loop_list (n depth : nat) :
  ∀ s values v r, array_loop n depth s values = Ok (v, r) → ∃ l, v = PList l.
Proof.
  induction n as [|n IH]; intros s values v r; [done|].
  rewrite array_loop_S.
  destruct (scan_once n depth s) as [[value s1]| |]; [|done..].
  cbn [mbind result_bind]. cbv zeta.
  destruct (skip_ws s1) as [|c2 s2]; [done|].
  destruct (Ascii.eqb c2 "]"); [intros [= <- <-]; eauto|].
  destruct (Ascii.eqb c2 ","); [apply IH | done].
Qed.

(** An object is built by [dict(pairs)]: its keys are unique. *)
Lemma object_loop_wf (n depth : nat) :
  ∀ s pairs v r,
    object_loop n depth s pairs = Ok (v, r) → ∃ d, v = PDict d ∧ wf d.
Proof.
  induction n as [|n IH]; intros s pairs v r; [done|].
  rewrite object_loop_S. destruct (scanstring s) as [[key s1]| |]; [|done..].
  cbn [mbind result_bind].
  destruct (skip_ws s1) as [|c2 s2]; [done|].
  destruct (Ascii.eqb c2 ":"); [|done].
  destruct (scan_once n depth (skip_ws s2)) as [[value s3]| |]; [|done..].
  cbn [mbind result_bind]. cbv zeta.
  destruct (skip_ws s3) as [|c4 s4]; [done|].
  destruct (Ascii.eqb c4 "}").
  { intros [= <- <-]. eauto using wf_dict_of_pairs. }
  destruct (Ascii.eqb c4 ","); [|done].
  destruct (skip_ws s4) as [|c5 s5]; [done|].
  destruct (Ascii.eqb c5 dquote); [apply IH | done].
Qed.

Lemma scan_once_dict_wf (n depth : nat) (s : string) (d : dict pyval)
    (r : string) :
  scan_once n depth s = Ok (PDict d, r) → wf d.
Proof.
  destruct n as [|n]; [done|]. destruct s as [|c rest]; [done|].
  rewrite scan_once_S. destruct (Ascii.eqb c dquote).
  { destruct (scanstring rest) as [[str r0]| |]; done. }
  destruct (Ascii.eqb c "{").
  { destruct depth as [|depth']; [done|].
    destruct (skip_ws rest) as [|c1 r1]; [done|].
    destruct (Ascii.eqb c1 dquote).
    - intros (d' & [= ->] & Hd)%object_loop_wf. done.
    - destruct (Ascii.eqb c1 "}"); [|done]. intros [= <- <-]. apply NoDup_nil_2. }
  destruct (Ascii.eqb c "[").
  { destruct depth as [|depth']; [done|].
    destruct (skip_ws rest) as [|c1 r1].
    - by intros [l [=]]%array_loop_list.
    - destruct (Ascii.eqb c1 "]"); [done|]. by intros [l [=]]%array_loop_list. }
  cbv zeta.
  destruct (strip "null" _); [done|]. destruct (strip "true" _); [done|].
  destruct (strip "false" _); [done|].
  destruct (match_number _) as [[[v r0]| |]|] eqn:E; [|done..|].
  - intros [= -> ->]. by apply match_number_scalar in E as [[? [=]]|[? [=]]].
  - destruct (strip "NaN" _); [done|]. destruct (strip "Infinity" _); [done|].
    by destruct (strip "-Infinity" _).
Qed.

Lemma loads_dict_wf (text : string) (d : dict pyval) :
  loads text = Ok (PDict d) → wf d.
Proof.
  unfold Json.loads, Json.decode.
  destruct (scan_once _ _) as [[obj rest]| |] eqn:E; [|done..].
  cbn [mbind result_bind]. destruct (skip_ws rest); [|done].
  intros [= ->]. by apply scan_once_dict_wf in E.
Qed.

(** *** What [loads] can raise *)

Ltac break_result :=
  repeat match goal with
    | |- context [mbind _ ?r] =>
        let E := fresh "E" in
        destruct r as [[? ?]| |] eqn:E; cbn [mbind result_bind]
    | |- context [match ?x with _ => _ end] =>
        let E := fresh "E" in destruct x eqn:E
    | |- context [if ?x then _ else _] =>
        let E := fresh "E" in destruct x eqn:E
    end.

Lemma scanstring_raises (s : string) (e : exn) :
  scanstring s = Raise e → e = JSONDecodeError.
Proof.
  revert e. induction s as [s IH] using (induction_ltof1 _ String.length).
  unfold ltof in IH. intros e. destruct s as [|c rest]; [by intros [=]|].
  cbn [scanstring].
  destruct (Ascii.eqb c dquote); [done|].
  destruct (Ascii.eqb c backslash).
  - destruct rest as [|esc rest']; [by intros [=]|].
    destruct (Ascii.eqb esc "u").
    + destruct rest' as [|h1 [|h2 [|h3 [|h4 rest'']]]]; try by intros [=].
      destruct (decode_uXXXX h1 h2 h3 h4) as [uni|]; [|by intros [=]].
      destruct (uni <? 256)%nat; [|done].
      destruct (scanstring rest'') as [[str r]| |] eqn:E; [done| |done].
      cbn [mbind result_bind]. intros [= <-]. apply (IH rest''); [simpl; lia|done].
    + destruct (unescape esc); [|by intros [=]].
      destruct (scanstring rest') as [[str r]| |] eqn:E; [done| |done].
      cbn [mbind result_bind]. intros [= <-]. apply (IH rest'); [simpl; lia|done].
  - destruct (nat_of_ascii c <? 32)%nat; [by intros [=]|].
    destruct (scanstring rest) as [[str r]| |] eqn:E; [done| |done].
    cbn [mbind result_bind]. intros [= <-]. apply (IH rest); [simpl; lia|done].
Qed.

(** *** The bound on the calls is never reached *)

Lemma skip_ws_length (s : string) :
  (String.length (skip_ws s) ≤ String.length s)%nat.
Proof.
  induction s as [|c s IH]; simpl; [done|]. destruct (is_ws c); simpl; lia.
Qed.

Lemma scanstring_rest (s str r : string) :
  scanstring s = Ok (str, r) → (String.length r < String.length s)%nat.
Proof.
  revert str r. induction s as [s IH] using (induction_ltof1 _ String.length).
  unfold ltof in IH. intros str r. destruct s as [|c rest]; [done|].
  cbn [scanstring].
  destruct (Ascii.eqb c dquote); [intros [= <- <-]; simpl; lia|].
  destruct (Ascii.eqb c backslash).
  - destruct rest as [|esc rest']; [done|].
    destruct (Ascii.eqb esc "u").
    + destruct rest' as [|h1 [|h2 [|h3 [|h4 rest'']]]]; try done.
      destruct (decode_uXXXX h1 h2 h3 h4) as [uni|]; [|done].
      destruct (uni <? 256)%nat; [|done].
      destruct (scanstring rest'') as [[str0 r0]| |] eqn:E; [|done..].
      cbn [mbind result_bind]. intros [= <- <-].
      apply IH in E; simpl in *; lia.
    + destruct (unescape esc); [|done].
      destruct (scanstring rest') as [[str0 r0]| |] eqn:E; [|done..].
      cbn [mbind result_bind]. intros [= <- <-].
      apply IH in E; simpl in *; lia.
  - destruct (nat_of_ascii c <? 32)%nat; [done|].
    destruct (scanstring rest) as [[str0 r0]| |] eqn:E; [|done..].
    cbn [mbind result_bind]. intros [= <- <-].
    apply IH in E; simpl in *; lia.
Qed.

Lemma strip_length (word s r : string) :
  strip word s = Some r →
  (String.length r + String.length word = String.length s)%nat.
Proof.
  revert s. induction word as [|w word IH]; intros s; simpl.
  - intros [= ->]. lia.
  - destruct s as [|c s]; [done|]. destruct (Ascii.eqb w c); [|done].
    intros ?%IH. simpl. lia.
Qed.

Lemma span_digits_length (s : string) :
  (String.length (span_digits s).2 ≤ String.length s)%nat.
Proof.
  induction s as [|c s IH]; simpl; [done|].
  destruct (is_digit c); [|simpl; lia].
  destruct (span_digits s) as [d r]. simpl in *. lia.
Qed.

Lemma match_integer_rest (s integer r : string) :
  match_integer s = Some (integer, r) →
  (String.length r < String.length s)%nat.
Proof.
  unfold match_integer.
  assert (H : ∀ sign s1, (String.length s1 ≤ String.length s)%nat →
    match s1 with
    | String c r0 =>
        if Ascii.eqb c "0" then Some (sign ++ "0", r0)
        else if is_digit c then
          let '(d, r') := span_digits r0 in Some (sign ++ String c d, r')
        else None
    | EmptyString => None
    end = Some (integer, r) → (String.length r < String.length s)%nat).
  { intros sign [|c r0] Hlen; [done|]. simpl in Hlen.
    destruct (Ascii.eqb c "0"); [intros [= <- <-]; lia|].
    destruct (is_digit c); [|done].
    pose proof (span_digits_length r0) as Hs.
    destruct (span_digits r0) as [d r']. intros [= <- <-]. simpl in Hs. lia. }
  destruct s as [|c0 s0]; [done|].
  destruct (Ascii.eqb c0 "-"); intros Hm.
  - apply (H "-" s0); [simpl; lia | exact Hm].
  - apply (H EmptyString (String c0 s0)); [simpl; lia | exact Hm].
Qed.

Lemma match_frac_rest (s : string) :
  (String.length (match_frac s).2 ≤ String.length s)%nat.
Proof.
  unfold match_frac. destruct s as [|c r]; [done|].
  destruct (Ascii.eqb c "."); [|done].
  pose proof (span_digits_length r) as Hs.
  destruct (span_digits r) as [[|d0 d] r']; simpl in *; lia.
Qed.

Lemma match_exp_rest (s : string) :
  (String.length (match_exp s).2 ≤ String.length s)%nat.
Proof.
  unfold match_exp. destruct s as [|e r]; [done|].
  destruct (_ || _); [|done].
  assert (H : ∀ sign r1, (String.length r1 ≤ String.length r)%nat →
    (String.length
       (match span_digits r1 with
        | (EmptyString, _) => (EmptyString, String e r)
        | (d, r2) => (String e (sign ++ d), r2)
        end).2 ≤ String.length (String e r))%nat).
  { intros sign r1 Hr1. pose proof (span_digits_length r1) as Hs.
    destruct (span_digits r1) as [[|d0 d] r2]; simpl in *; lia. }
  destruct r as [|c r']; [by apply (H EmptyString EmptyString)|].
  destruct (Ascii.eqb c "+"); [apply (H "+" r'); simpl; lia|].
  destruct (Ascii.eqb c "-");
    [apply (H "-" r') | apply (H EmptyString (String c r'))]; simpl; lia.
Qed.

Lemma match_number_rest (s : string) (v : pyval) (r : string) :
  match_number s = Some (Ok (v, r)) →
  (String.length r < String.length s)%nat.
Proof.
  unfold Json.match_number.
  destruct (match_integer s) as [[integer r0]|] eqn:E; [|done].
  apply match_integer_rest in E.
  pose proof (match_frac_rest r0) as Hf.
  destruct (match_frac r0) as [frac r1].
  pose proof (match_exp_rest r1) as He.
  destruct (match_exp r1) as [exp r2]. simpl in *.
  destruct frac, exp; try (intros [= <- <-]; lia).
  destruct (too_many_digits py integer); [done|]. intros [= <- <-]. lia.
Qed.

Lemma span_digits_lengths (s : string) :
  (String.length (span_digits s).1 + String.length (span_digits s).2
   = String.length s)%nat.
Proof.
  induction s as [|c s IH]; simpl; [done|].
  destruct (is_digit c); [|done].
  destruct (span_digits s) as [d r]. simpl in *. lia.
Qed.

Lemma match_integer_length (s integer r : string) :
  match_integer s = Some (integer, r) →
  (String.length (digits_of integer) ≤ String.length s)%nat.
Proof.
  unfold match_integer.
  assert (H : ∀ sign s1,
    (String.length sign ≤ 1)%nat →
    (String.length sign + String.length s1 ≤ String.length s)%nat →
    match s1 with
    | String c r0 =>
        if Ascii.eqb c "0" then Some (sign ++ "0", r0)
        else if is_digit c then
          let '(d, r') := span_digits r0 in Some (sign ++ String c d, r')
        else None
    | EmptyString => None
    end = Some (integer, r) →
    (String.length integer ≤ String.length s)%nat).
  { intros sign [|c r0] Hsign Hlen; [done|]. simpl in Hlen.
    destruct (Ascii.eqb c "0").
    { intros [= <- <-]. rewrite length_append. simpl. lia. }
    destruct (is_digit c); [|done].
    pose proof (span_digits_lengths r0) as Hs.
    destruct (span_digits r0) as [d r']. intros [= <- <-].
    rewrite length_append. simpl in *. lia. }
  assert (Hd : (String.length (digits_of integer)
                ≤ String.length integer)%nat).
  { destruct integer as [|c d]; [done|]. simpl.
    destruct (Ascii.eqb c "-"); simpl; lia. }
  destruct s as [|c0 s0]; [done|].
  destruct (Ascii.eqb c0 "-"); intros Hm.
  - apply (H "-" s0) in Hm; [lia | simpl; lia..].
  - apply (H EmptyString (String c0 s0)) in Hm; [lia | simpl; lia..].
Qed.

(** [int] refuses a number only when there is a limit on digits and
    the text has more characters than it. *)
Lemma match_number_raises (s : string) (e : exn) :
  match_number s = Some (Raise e) →
  e = ValueError
  ∧ (0 < int_max_str_digits py < String.length s)%nat.
Proof.
  unfold Json.match_number.
  destruct (match_integer s) as [[integer r0]|] eqn:E; [|done].
  apply match_integer_length in E.
  destruct (match_frac r0) as [frac r1].
  destruct (match_exp r1) as [exp r2].
  destruct frac, exp; try done.
  unfold too_many_digits.
  destruct (Nat.ltb_spec 640 (String.length (digits_of integer))); [|done].
  destruct (Nat.ltb_spec 0 (int_max_str_digits py)); [|done].
  destruct (Nat.ltb_spec (int_max_str_digits py)
              (String.length (digits_of integer))); [|done].
  intros [= <-]. split; [done | lia].
Qed.

Lemma match_number_modelled (s : string) : match_number s ≠ Some Unmodelled.
Proof.
  unfold Json.match_number.
  destruct (match_integer s) as [[integer r0]|]; [|done].
  destruct (match_frac r0) as [frac r1].
  destruct (match_exp r1) as [exp r2].
  destruct frac, exp; try done. by destruct (too_many_digits py integer).
Qed.

(** Every successful call consumes text. *)
Lemma scan_rest (n : nat) :
  ∀ depth,
    (∀ s v r, scan_once n depth s = Ok (v, r) →
              (String.length r < String.length s)%nat)
    ∧ (∀ s pairs v r, object_loop n depth s pairs = Ok (v, r) →
              (String.length r < String.length s)%nat)
    ∧ (∀ s values v r, array_loop n depth s values = Ok (v, r) →
              (String.length r < String.length s)%nat).
Proof.
  induction n as [|n IH]; intros depth; [done|].
  destruct (IH depth) as (IHs & IHo & IHa). split_and!.
  - intros [|c rest] v r; [done|]. rewrite scan_once_S.
    destruct (Ascii.eqb c dquote).
    { destruct (scanstring rest) as [[str r0]| |] eqn:E; [|done..].
      intros [= <- <-]. apply scanstring_rest in E. simpl. lia. }
    destruct (Ascii.eqb c "{").
    { destruct depth as [|depth']; [done|].
      destruct (IH depth') as (_ & IHo' & _).
      pose proof (skip_ws_length rest) as Hw.
      destruct (skip_ws rest) as [|c1 r1]; [done|]. simpl in Hw.
      destruct (Ascii.eqb c1 dquote); [intros ?%IHo'; simpl; lia|].
      destruct (Ascii.eqb c1 "}"); [|done]. intros [= <- <-]. simpl. lia. }
    destruct (Ascii.eqb c "[").
    { destruct depth as [|depth']; [done|].
      destruct (IH depth') as (_ & _ & IHa').
      pose proof (skip_ws_length rest) as Hw.
      destruct (skip_ws rest) as [|c1 r1]; [intros ?%IHa'; simpl in *; lia|].
      simpl in Hw. destruct (Ascii.eqb c1 "]").
      - intros [= <- <-]. simpl. lia.
      - intros ?%IHa'. simpl in *. lia. }
    cbv zeta.
    destruct (strip "null" _) eqn:E1.
    { intros [= <- <-]. apply strip_length in E1. simpl in *. lia. }
    destruct (strip "true" _) eqn:E2.
    { intros [= <- <-]. apply strip_length in E2. simpl in *. lia. }
    destruct (strip "false" _) eqn:E3.
    { intros [= <- <-]. apply strip_length in E3. simpl in *. lia. }
    destruct (match_number _) as [number|] eqn:E4.
    { intros ->. by apply match_number_rest in E4. }
    destruct (strip "NaN" _) eqn:E5.
    { intros [= <- <-]. apply strip_length in E5. simpl in *. lia. }
    destruct (strip "Infinity" _) eqn:E6.
    { intros [= <- <-]. apply strip_length in E6. simpl in *. lia. }
    destruct (strip "-Infinity" _) eqn:E7; [|done].
    intros [= <- <-]. apply strip_length in E7. simpl in *. lia.
  - intros s pairs v r. rewrite object_loop_S.
    destruct (scanstring s) as [[key s1]| |] eqn:E; [|done..].
    apply scanstring_rest in E. cbn [mbind result_bind].
    pose proof (skip_ws_length s1) as Hw1.
    destruct (skip_ws s1) as [|c2 s2]; [done|]. simpl in Hw1.
    destruct (Ascii.eqb c2 ":"); [|done].
    pose proof (skip_ws_length s2) as Hw2.
    destruct (scan_once n depth (skip_ws s2)) as [[value s3]| |] eqn:E2;
      [|done..].
    apply IHs in E2. cbn [mbind result_bind]. cbv zeta.
    pose proof (skip_ws_length s3) as Hw3.
    destruct (skip_ws s3) as [|c4 s4]; [done|]. simpl in Hw3.
    destruct (Ascii.eqb c4 "}"); [intros [= <- <-]; lia|].
    destruct (Ascii.eqb c4 ","); [|done].
    pose proof (skip_ws_length s4) as Hw4.
    destruct (skip_ws s4) as [|c5 s5]; [done|]. simpl in Hw4.
    destruct (Ascii.eqb c5 dquote); [|done]. intros ?%IHo. lia.
  - intros s values v r. rewrite array_loop_S.
    destruct (scan_once n depth s) as [[value s1]| |] eqn:E; [|done..].
    apply IHs in E. cbn [mbind result_bind]. cbv zeta.
    pose proof (skip_ws_length s1) as Hw1.
    destruct (skip_ws s1) as [|c2 s2]; [done|]. simpl in Hw1.
    destruct (Ascii.eqb c2 "]"); [intros [= <- <-]; lia|].
    destruct (Ascii.eqb c2 ","); [|done].
    pose proof (skip_ws_length s2) as Hw2. intros ?%IHa. lia.
Qed.

(** *** What [loads] can raise *)

Local Abbreviation may_raise := (JsonSpec.may_raise py).

Lemma may_raise_longer (e : exn) (depth depth' : nat) (s s' : string) :
  may_raise e depth' s' →
  (String.length s' ≤ String.length s)%nat →
  (depth + String.length s' ≤ depth' + String.length s)%nat →
  may_raise e depth s.
Proof.
  unfold JsonSpec.may_raise.
  intros [->|[[-> ?]|[-> ?]]] Hlen Hdepth;
    [by left | right; left | right; right]; (split; [done | lia]).
Qed.

Lemma scan_raises (n : nat) :
  ∀ depth,
    (∀ s e, scan_once n depth s = Raise e → may_raise e depth s)
    ∧ (∀ s pairs e, object_loop n depth s pairs = Raise e →
                    may_raise e depth s)
    ∧ (∀ s values e, array_loop n depth s values = Raise e →
                     may_raise e depth s).
Proof.
  induction n as [|n IH]; intros depth; [done|].
  destruct (IH depth) as (IHs & IHo & IHa).
  assert (Hjson : ∀ s, may_raise JSONDecodeError depth s) by by left.
  split_and!.
  - intros [|c rest] e; [by intros [= <-]|]. rewrite scan_once_S.
    destruct (Ascii.eqb c dquote).
    { destruct (scanstring rest) as [[str r]| |] eqn:E; [done| |done].
      intros [= <-]. by apply scanstring_raises in E as ->. }
    pose proof (skip_ws_length rest) as Hw.
    destruct (Ascii.eqb c "{").
    { destruct depth as [|depth'].
      { intros [= <-]. right. right. split; [done | simpl; lia]. }
      destruct (IH depth') as (_ & IHo' & _).
      destruct (skip_ws rest) as [|c1 r1]; [by intros [= <-]|].
      simpl in Hw. destruct (Ascii.eqb c1 dquote).
      - intros H%IHo'. eapply may_raise_longer; [done | simpl; lia..].
      - destruct (Ascii.eqb c1 "}"); [done | by intros [= <-]]. }
    destruct (Ascii.eqb c "[").
    { destruct depth as [|depth'].
      { intros [= <-]. right. right. split; [done | simpl; lia]. }
      destruct (IH depth') as (_ & _ & IHa').
      destruct (skip_ws rest) as [|c1 r1].
      - intros H%IHa'. eapply may_raise_longer; [done | simpl; lia..].
      - simpl in Hw. destruct (Ascii.eqb c1 "]"); [done|].
        intros H%IHa'. eapply may_raise_longer; [done | simpl in *; lia..]. }
    cbv zeta.
    destruct (strip "null" _); [done|]. destruct (strip "true" _); [done|].
    destruct (strip "false" _); [done|].
    destruct (match_number _) as [number|] eqn:E.
    { intros ->. apply match_number_raises in E as [-> ?].
      right. left. done. }
    destruct (strip "NaN" _); [done|]. destruct (strip "Infinity" _); [done|].
    destruct (strip "-Infinity" _); [done | by intros [= <-]].
  - intros s pairs e. rewrite object_loop_S.
    destruct (scanstring s) as [[key s1]| |] eqn:E; [| |done].
    2:{ intros [= <-]. by apply scanstring_raises in E as ->. }
    apply scanstring_rest in E. cbn [mbind result_bind].
    pose proof (skip_ws_length s1) as Hw1.
    destruct (skip_ws s1) as [|c2 s2]; [by intros [= <-]|]. simpl in Hw1.
    destruct (Ascii.eqb c2 ":"); [|by intros [= <-]].
    pose proof (skip_ws_length s2) as Hw2.
    destruct (scan_once n depth (skip_ws s2)) as [[value s3]| |] eqn:E2;
      [| |done].
    2:{ intros [= <-]. apply IHs in E2.
        eapply may_raise_longer; [done | lia..]. }
    apply (scan_rest n depth) in E2. cbn [mbind result_bind]. cbv zeta.
    pose proof (skip_ws_length s3) as Hw3.
    destruct (skip_ws s3) as [|c4 s4]; [by intros [= <-]|]. simpl in Hw3.
    destruct (Ascii.eqb c4 "}"); [done|].
    destruct (Ascii.eqb c4 ","); [|by intros [= <-]].
    pose proof (skip_ws_length s4) as Hw4.
    destruct (skip_ws s4) as [|c5 s5]; [by intros [= <-]|]. simpl in Hw4.
    destruct (Ascii.eqb c5 dquote); [|by intros [= <-]].
    intros H%IHo. eapply may_raise_longer; [done | lia..].
  - intros s values e. rewrite array_loop_S.
    destruct (scan_once n depth s) as [[value s1]| |] eqn:E; [| |done].
    2:{ intros [= <-]. by apply IHs in E. }
    apply (scan_rest n depth) in E. cbn [mbind result_bind]. cbv zeta.
    pose proof (skip_ws_length s1) as Hw1.
    destruct (skip_ws s1) as [|c2 s2]; [by intros [= <-]|]. simpl in Hw1.
    destruct (Ascii.eqb c2 "]"); [done|].
    destruct (Ascii.eqb c2 ","); [|by intros [= <-]].
    pose proof (skip_ws_length s2) as Hw2.
    intros H%IHa. eapply may_raise_longer; [done | lia..].
Qed.

(** A document that [loads] rejects is rejected with [JSONDecodeError],
    or with [ValueError] when there is a limit on digits and the text
    is longer than it, or with [RecursionError] when the text is longer
    than the depth allowed. *)
Lemma loads_raises (text : string) (e : exn) :
  loads text = Raise e → may_raise e (S (recursion_room py)) text.
Proof.
  unfold Json.loads, Json.decode.
  pose proof (skip_ws_length text) as Hw.
  destruct (Json.scan_once _ _ _ _) as [[obj rest]| |] eqn:E;
    cbn [mbind result_bind].
  - destruct (skip_ws rest); [done|]. intros [= <-]. by left.
  - intros [= <-]. apply scan_raises in E.
    eapply may_raise_longer; [done | lia..].
  - done.
Qed.

(** *** The bound on the calls is never reached *)

(** A larger bound changes nothing: none of the calls is cut short. *)
Lemma scan_bound (n : nat) :
  ∀ n' depth,
    (∀ s, (2 * String.length s < n)%nat → (2 * String.length s < n')%nat →
          scan_once n depth s = scan_once n' depth s)
    ∧ (∀ s pairs,
          (2 * String.length s < n)%nat → (2 * String.length s < n')%nat →
          object_loop n depth s pairs = object_loop n' depth s pairs)
    ∧ (∀ s values,
          (2 * String.length s + 1 < n)%nat →
          (2 * String.length s + 1 < n')%nat →
          array_loop n depth s values = array_loop n' depth s values).
Proof.
  induction n as [|n IH]; intros n' depth; [split_and!; intros; lia|].
  destruct n' as [|n']; [split_and!; intros; lia|].
  destruct (IH n' depth) as (IHs & IHo & IHa). split_and!.
  - intros [|c rest] Hn Hn'; [done|]. rewrite !scan_once_S. simpl in Hn, Hn'.
    destruct (Ascii.eqb c dquote); [done|].
    pose proof (skip_ws_length rest) as Hw.
    destruct (Ascii.eqb c "{").
    { destruct depth as [|depth']; [done|].
      destruct (IH n' depth') as (_ & IHo' & _).
      destruct (skip_ws rest) as [|c1 r1]; [done|]. simpl in Hw.
      destruct (Ascii.eqb c1 dquote); [apply IHo'; lia | done]. }
    destruct (Ascii.eqb c "["); [|done].
    destruct depth as [|depth']; [done|].
    destruct (IH n' depth') as (_ & _ & IHa').
    destruct (skip_ws rest) as [|c1 r1]; [apply IHa'; simpl; lia|].
    simpl in Hw. destruct (Ascii.eqb c1 "]"); [done|]. apply IHa'; simpl; lia.
  - intros s pairs Hn Hn'. rewrite !object_loop_S.
    destruct (scanstring s) as [[key s1]| |] eqn:E; [|done..].
    apply scanstring_rest in E. cbn [mbind result_bind].
    pose proof (skip_ws_length s1) as Hw1.
    destruct (skip_ws s1) as [|c2 s2]; [done|]. simpl in Hw1.
    destruct (Ascii.eqb c2 ":"); [|done].
    pose proof (skip_ws_length s2) as Hw2.
    rewrite (IHs (skip_ws s2)) by lia.
    destruct (scan_once n' depth (skip_ws s2)) as [[value s3]| |] eqn:E2;
      [|done..].
    apply (scan_rest n' depth) in E2. cbn [mbind result_bind]. cbv zeta.
    pose proof (skip_ws_length s3) as Hw3.
    destruct (skip_ws s3) as [|c4 s4]; [done|]. simpl in Hw3.
    destruct (Ascii.eqb c4 "}"); [done|].
    destruct (Ascii.eqb c4 ","); [|done].
    pose proof (skip_ws_length s4) as Hw4.
    destruct (skip_ws s4) as [|c5 s5]; [done|]. simpl in Hw4.
    destruct (Ascii.eqb c5 dquote); [apply IHo; lia | done].
  - intros s values Hn Hn'. rewrite !array_loop_S.
    rewrite (IHs s) by lia.
    destruct (scan_once n' depth s) as [[value s1]| |] eqn:E; [|done..].
    apply (scan_rest n' depth) in E. cbn [mbind result_bind]. cbv zeta.
    pose proof (skip_ws_length s1) as Hw1.
    destruct (skip_ws s1) as [|c2 s2]; [done|]. simpl in Hw1.
    destruct (Ascii.eqb c2 "]"); [done|].
    destruct (Ascii.eqb c2 ","); [|done].
    pose proof (skip_ws_length s2) as Hw2. apply IHa; lia.
Qed.

(** [loads] allows enough calls: allowing more gives the same result. *)
Lemma decode_bound (n : nat) (s : string) :
  (2 * String.length s < n)%nat →
  decode n (S (recursion_room py)) s = loads s.
Proof.
  intros Hn. unfold Json.loads, Json.decode.
  pose proof (skip_ws_length s) as Hw.
  by rewrite (proj1 (scan_bound n (2 * String.length s + 1) _) (skip_ws s))
    by lia.
Qed.

(** *** When the decoder has no answer *)

Lemma suffix_trans (a b c : string) :
  suffix_of a b → suffix_of b c → suffix_of a c.
Proof. intros Hab Hbc. induction Hbc; [done | by constructor]. Qed.

Lemma suffix_length (r s : string) :
  suffix_of r s → (String.length r ≤ String.length s)%nat.
Proof. induction 1; simpl; lia. Qed.

Lemma suffix_names (r s : string) :
  suffix_of r s →
  names_beyond_latin1 r = true → names_beyond_latin1 s = true.
Proof.
  induction 1 as [|c s _ IH]; [done|]. intros H%IH.
  cbn [names_beyond_latin1]. rewrite H. apply orb_true_r.
Qed.

Lemma skip_ws_suffix (s : string) : suffix_of (skip_ws s) s.
Proof.
  induction s as [|c s IH]; simpl; [constructor|].
  destruct (is_ws c); by constructor.
Qed.

Lemma strip_suffix (word s r : string) :
  strip word s = Some r → suffix_of r s.
Proof.
  revert s. induction word as [|w word IH]; intros s; simpl.
  - intros [= ->]. constructor.
  - destruct s as [|c s]; [done|]. destruct (Ascii.eqb w c); [|done].
    intros ?%IH. by constructor.
Qed.

Lemma span_digits_suffix (s : string) : suffix_of (span_digits s).2 s.
Proof.
  induction s as [|c s IH]; simpl; [constructor|].
  destruct (is_digit c); [|constructor].
  destruct (span_digits s) as [d r]. by constructor.
Qed.

Lemma match_integer_suffix (s integer r : string) :
  match_integer s = Some (integer, r) → suffix_of r s.
Proof.
  unfold match_integer.
  assert (H : ∀ sign s1, suffix_of s1 s →
    match s1 with
    | String c r0 =>
        if Ascii.eqb c "0" then Some (sign ++ "0", r0)
        else if is_digit c then
          let '(d, r') := span_digits r0 in Some (sign ++ String c d, r')
        else None
    | EmptyString => None
    end = Some (integer, r) → suffix_of r s).
  { intros sign [|c r0] Hs; [done|].
    destruct (Ascii.eqb c "0").
    { intros [= <- <-]. eapply suffix_trans; [|done]. by repeat constructor. }
    destruct (is_digit c); [|done].
    pose proof (span_digits_suffix r0) as Hd.
    destruct (span_digits r0) as [d r']. intros [= <- <-].
    eapply suffix_trans; [|done]. by constructor. }
  destruct s as [|c0 s0]; [done|].
  destruct (Ascii.eqb c0 "-"); intros Hm.
  - apply (H "-" s0); [by repeat constructor | exact Hm].
  - apply (H EmptyString (String c0 s0)); [constructor | exact Hm].
Qed.

Lemma match_frac_suffix (s : string) : suffix_of (match_frac s).2 s.
Proof.
  unfold match_frac. destruct s as [|c r]; [constructor|].
  destruct (Ascii.eqb c "."); [|constructor].
  pose proof (span_digits_suffix r) as Hs.
  destruct (span_digits r) as [[|d0 d] r']; simpl in *;
    [constructor | by constructor].
Qed.

Lemma match_exp_suffix (s : string) : suffix_of (match_exp s).2 s.
Proof.
  unfold match_exp. destruct s as [|e r]; [constructor|].
  destruct (_ || _); [|constructor].
  assert (H : ∀ sign r1, suffix_of r1 r →
    suffix_of
       (match span_digits r1 with
        | (EmptyString, _) => (EmptyString, String e r)
        | (d, r2) => (String e (sign ++ d), r2)
        end).2 (String e r)).
  { intros sign r1 Hr1. pose proof (span_digits_suffix r1) as Hs.
    destruct (span_digits r1) as [[|d0 d] r2]; simpl in *; [constructor|].
    constructor. by eapply suffix_trans. }
  destruct r as [|c r']; [apply (H EmptyString EmptyString); constructor|].
  destruct (Ascii.eqb c "+"); [apply (H "+" r'); by repeat constructor|].
  destruct (Ascii.eqb c "-");
    [apply (H "-" r') | apply (H EmptyString (String c r'))];
    by repeat constructor.
Qed.

Lemma match_number_suffix (s : string) (v : pyval) (r : string) :
  match_number s = Some (Ok (v, r)) → suffix_of r s.
Proof.
  unfold Json.match_number.
  destruct (match_integer s) as [[integer r0]|] eqn:E; [|done].
  apply match_integer_suffix in E.
  pose proof (match_frac_suffix r0) as Hf.
  destruct (match_frac r0) as [frac r1].
  pose proof (match_exp_suffix r1) as He.
  destruct (match_exp r1) as [exp r2]. simpl in *.
  assert (suffix_of r2 s) by eauto using suffix_trans.
  destruct frac, exp; try (by intros [= <- <-]).
  destruct (too_many_digits py integer); [done|]. by intros [= <- <-].
Qed.

Lemma scanstring_suffix (s str r : string) :
  scanstring s = Ok (str, r) → suffix_of r s.
Proof.
  revert str r.
  induction s as [s IH] using (induction_ltof1 _ String.length).
  unfold ltof in IH. intros str r. destruct s as [|c rest]; [done|].
  cbn [scanstring].
  destruct (Ascii.eqb c dquote); [intros [= <- <-]; by repeat constructor|].
  destruct (Ascii.eqb c backslash).
  - destruct rest as [|esc rest']; [done|].
    destruct (Ascii.eqb esc "u").
    + destruct rest' as [|h1 [|h2 [|h3 [|h4 rest'']]]]; try done.
      destruct (decode_uXXXX h1 h2 h3 h4) as [uni|]; [|done].
      destruct (uni <? 256)%nat; [|done].
      destruct (scanstring rest'') as [[str0 r0]| |] eqn:E; [|done..].
      cbn [mbind result_bind]. intros [= <- <-].
      apply IH in E; [|simpl; lia]. by repeat constructor.
    + destruct (unescape esc); [|done].
      destruct (scanstring rest') as [[str0 r0]| |] eqn:E; [|done..].
      cbn [mbind result_bind]. intros [= <- <-].
      apply IH in E; [|simpl; lia]. by repeat constructor.
  - destruct (nat_of_ascii c <? 32)%nat; [done|].
    destruct (scanstring rest) as [[str0 r0]| |] eqn:E; [|done..].
    cbn [mbind result_bind]. intros [= <- <-].
    apply IH in E; [|simpl; lia]. by constructor.
Qed.

(** [scanstring] has no answer only at an escape of a code point above
    U+00FF. *)
Lemma scanstring_unmodelled (s : string) :
  scanstring s = Unmodelled → names_beyond_latin1 s = true.
Proof.
  induction s as [s IH] using (induction_ltof1 _ String.length).
  unfold ltof in IH. destruct s as [|c rest]; [done|].
  cbn [scanstring].
  destruct (Ascii.eqb c dquote); [done|].
  destruct (Ascii.eqb c backslash) eqn:Hc.
  - destruct rest as [|esc rest']; [done|].
    destruct (Ascii.eqb esc "u") eqn:Hu.
    + destruct rest' as [|h1 [|h2 [|h3 [|h4 rest'']]]]; try done.
      destruct (decode_uXXXX h1 h2 h3 h4) as [uni|] eqn:Hd; [|done].
      destruct (Nat.ltb_spec uni 256) as [Hlt|Hge].
      * destruct (scanstring rest'') as [[str0 r0]| |] eqn:E; [done..|].
        intros _. apply IH in E; [|simpl; lia].
        eapply suffix_names; [|exact E]. by repeat constructor.
      * intros _. cbn [names_beyond_latin1]. rewrite Hc, Hu, Hd.
        by apply Nat.leb_le in Hge as ->.
    + destruct (unescape esc); [|done].
      destruct (scanstring rest') as [[str0 r0]| |] eqn:E; [done..|].
      intros _. apply IH in E; [|simpl; lia].
      by apply (suffix_names rest'); [repeat constructor|].
  - destruct (nat_of_ascii c <? 32)%nat; [done|].
    destruct (scanstring rest) as [[str0 r0]| |] eqn:E; [done..|].
    intros _. apply IH in E; [|simpl; lia].
    by apply (suffix_names rest); [repeat constructor|].
Qed.

Lemma scan_suffix (n : nat) :
  ∀ depth,
    (∀ s v r, scan_once n depth s = Ok (v, r) → suffix_of r s)
    ∧ (∀ s pairs v r, object_loop n depth s pairs = Ok (v, r) →
                      suffix_of r s)
    ∧ (∀ s values v r, array_loop n depth s values = Ok (v, r) →
                       suffix_of r s).
Proof.
  induction n as [|n IH]; intros depth; [done|].
  destruct (IH depth) as (IHs & IHo & IHa). split_and!.
  - intros [|c rest] v r; [done|]. rewrite scan_once_S.
    destruct (Ascii.eqb c dquote).
    { destruct (scanstring rest) as [[str r0]| |] eqn:E; [|done..].
      intros [= <- <-]. apply scanstring_suffix in E. by constructor. }
    pose proof (skip_ws_suffix rest) as Hw.
    destruct (Ascii.eqb c "{").
    { destruct depth as [|depth']; [done|].
      destruct (IH depth') as (_ & IHo' & _).
      destruct (skip_ws rest) as [|c1 r1]; [done|].
      destruct (Ascii.eqb c1 dquote).
      - intros H%IHo'. constructor.
        eapply suffix_trans; [|done]. by constructor.
      - destruct (Ascii.eqb c1 "}"); [|done]. intros [= <- <-].
        constructor. eapply suffix_trans; [|done]. by repeat constructor. }
    destruct (Ascii.eqb c "[").
    { destruct depth as [|depth']; [done|].
      destruct (IH depth') as (_ & _ & IHa').
      destruct (skip_ws rest) as [|c1 r1].
      - intros H%IHa'. constructor. by eapply suffix_trans.
      - destruct (Ascii.eqb c1 "]").
        + intros [= <- <-]. constructor.
          eapply suffix_trans; [|done]. by repeat constructor.
        + intros H%IHa'. constructor. by eapply suffix_trans. }
    cbv zeta.
    destruct (strip "null" _) eqn:E1.
    { intros [= <- <-]. by apply strip_suffix in E1. }
    destruct (strip "true" _) eqn:E2.
    { intros [= <- <-]. by apply strip_suffix in E2. }
    destruct (strip "false" _) eqn:E3.
    { intros [= <- <-]. by apply strip_suffix in E3. }
    destruct (match_number _) as [number|] eqn:E4.
    { intros ->. by apply match_number_suffix in E4. }
    destruct (strip "NaN" _) eqn:E5.
    { intros [= <- <-]. by apply strip_suffix in E5. }
    destruct (strip "Infinity" _) eqn:E6.
    { intros [= <- <-]. by apply strip_suffix in E6. }
    destruct (strip "-Infinity" _) eqn:E7; [|done].
    intros [= <- <-]. by apply strip_suffix in E7.
  - intros s pairs v r. rewrite object_loop_S.
    destruct (scanstring s) as [[key s1]| |] eqn:E; [|done..].
    apply scanstring_suffix in E. cbn [mbind result_bind].
    pose proof (skip_ws_suffix s1) as Hw1.
    destruct (skip_ws s1) as [|c2 s2]; [done|].
    destruct (Ascii.eqb c2 ":"); [|done].
    pose proof (skip_ws_suffix s2) as Hw2.
    destruct (scan_once n depth (skip_ws s2)) as [[value s3]| |] eqn:E2;
      [|done..].
    apply IHs in E2. cbn [mbind result_bind]. cbv zeta.
    pose proof (skip_ws_suffix s3) as Hw3.
    assert (H3 : suffix_of s3 s).
    { eapply suffix_trans; [done|]. eapply suffix_trans; [done|].
      eapply suffix_trans; [|done]. eapply suffix_trans; [|done].
      by repeat constructor. }
    destruct (skip_ws s3) as [|c4 s4]; [done|].
    assert (H4 : suffix_of s4 s).
    { eapply suffix_trans; [|done]. eapply suffix_trans; [|done].
      by repeat constructor. }
    destruct (Ascii.eqb c4 "}"); [by intros [= <- <-]|].
    destruct (Ascii.eqb c4 ","); [|done].
    pose proof (skip_ws_suffix s4) as Hw4.
    destruct (skip_ws s4) as [|c5 s5]; [done|].
    destruct (Ascii.eqb c5 dquote); [|done]. intros H%IHo.
    eapply suffix_trans; [done|]. eapply suffix_trans; [|done].
    eapply suffix_trans; [|done]. by repeat constructor.
  - intros s values v r. rewrite array_loop_S.
    destruct (scan_once n depth s) as [[value s1]| |] eqn:E; [|done..].
    apply IHs in E. cbn [mbind result_bind]. cbv zeta.
    pose proof (skip_ws_suffix s1) as Hw1.
    destruct (skip_ws s1) as [|c2 s2]; [done|].
    assert (H2 : suffix_of s2 s).
    { eapply suffix_trans; [|done]. eapply suffix_trans; [|done].
      by repeat constructor. }
    destruct (Ascii.eqb c2 "]"); [by intros [= <- <-]|].
    destruct (Ascii.eqb c2 ","); [|done].
    pose proof (skip_ws_suffix s2) as Hw2. intros H%IHa.
    eapply suffix_trans; [done|]. by eapply suffix_trans.
Qed.

(** With calls enough for the text, the decoder has no answer only when
    the text names a code point above U+00FF. *)
Lemma scan_unmodelled (n : nat) :
  ∀ depth,
    (∀ s, (2 * String.length s < n)%nat →
          scan_once n depth s = Unmodelled → names_beyond_latin1 s = true)
    ∧ (∀ s pairs, (2 * String.length s < n)%nat →
          object_loop n depth s pairs = Unmodelled →
          names_beyond_latin1 s = true)
    ∧ (∀ s values, (2 * String.length s + 1 < n)%nat →
          array_loop n depth s values = Unmodelled →
          names_beyond_latin1 s = true).
Proof.
  induction n as [|n IH]; intros depth; [split_and!; intros; lia|].
  destruct (IH depth) as (IHs & IHo & IHa). split_and!.
  - intros [|c rest] Hn; [done|]. rewrite scan_once_S. simpl in Hn.
    assert (Hrest : ∀ r, suffix_of r rest → names_beyond_latin1 r = true →
                          names_beyond_latin1 (String c rest) = true).
    { intros r Hr. apply suffix_names. by constructor. }
    destruct (Ascii.eqb c dquote).
    { destruct (scanstring rest) as [[str r0]| |] eqn:E; [done..|].
      intros _. apply scanstring_unmodelled in E.
      by apply (Hrest rest); [constructor|]. }
    pose proof (skip_ws_suffix rest) as Hw.
    pose proof (skip_ws_length rest) as Hl.
    destruct (Ascii.eqb c "{").
    { destruct depth as [|depth']; [done|].
      destruct (IH depth') as (_ & IHo' & _).
      destruct (skip_ws rest) as [|c1 r1]; [done|]. simpl in Hl.
      destruct (Ascii.eqb c1 dquote).
      - intros H%IHo'; [|lia]. apply (Hrest r1); [|done].
        eapply suffix_trans; [|done]. by repeat constructor.
      - by destruct (Ascii.eqb c1 "}"). }
    destruct (Ascii.eqb c "[").
    { destruct depth as [|depth']; [done|].
      destruct (IH depth') as (_ & _ & IHa').
      destruct (skip_ws rest) as [|c1 r1].
      - intros H%IHa'; [|simpl; lia]. done.
      - simpl in Hl. destruct (Ascii.eqb c1 "]"); [done|].
        intros H%IHa'; [|simpl; lia]. by apply (Hrest (String c1 r1)). }
    cbv zeta.
    destruct (strip "null" _); [done|]. destruct (strip "true" _); [done|].
    destruct (strip "false" _); [done|].
    destruct (match_number _) as [number|] eqn:E.
    { intros ->. by apply match_number_modelled in E. }
    destruct (strip "NaN" _); [done|]. destruct (strip "Infinity" _); [done|].
    by destruct (strip "-Infinity" _).
  - intros s pairs Hn. rewrite object_loop_S.
    destruct (scanstring s) as [[key s1]| |] eqn:E; [|done|].
    2:{ intros _. by apply scanstring_unmodelled. }
    pose proof (scanstring_rest _ _ _ E) as El.
    apply scanstring_suffix in E. cbn [mbind result_bind].
    pose proof (skip_ws_suffix s1) as Hw1.
    pose proof (skip_ws_length s1) as Hl1.
    destruct (skip_ws s1) as [|c2 s2]; [done|]. simpl in Hl1.
    destruct (Ascii.eqb c2 ":"); [|done].
    pose proof (skip_ws_suffix s2) as Hw2.
    pose proof (skip_ws_length s2) as Hl2.
    assert (H2 : suffix_of (skip_ws s2) s).
    { eapply suffix_trans; [done|]. eapply suffix_trans; [|done].
      eapply suffix_trans; [|done]. by repeat constructor. }
    destruct (scan_once n depth (skip_ws s2)) as [[value s3]| |] eqn:E2;
      [|done|].
    2:{ intros _. apply IHs in E2; [|lia]. by eapply suffix_names. }
    pose proof (proj1 (scan_rest n depth) _ _ _ E2) as El2.
    apply (scan_suffix n depth) in E2. cbn [mbind result_bind]. cbv zeta.
    pose proof (skip_ws_suffix s3) as Hw3.
    pose proof (skip_ws_length s3) as Hl3.
    destruct (skip_ws s3) as [|c4 s4]; [done|]. simpl in Hl3.
    destruct (Ascii.eqb c4 "}"); [done|].
    destruct (Ascii.eqb c4 ","); [|done].
    pose proof (skip_ws_suffix s4) as Hw4.
    pose proof (skip_ws_length s4) as Hl4.
    destruct (skip_ws s4) as [|c5 s5]; [done|]. simpl in Hl4.
    destruct (Ascii.eqb c5 dquote); [|done].
    intros H%IHo; [|lia]. eapply suffix_names; [|done].
    eapply suffix_trans; [|exact H2]. eapply suffix_trans; [|exact E2].
    eapply suffix_trans; [|exact Hw3].
    constructor. eapply suffix_trans; [|exact Hw4]. by repeat constructor.
  - intros s values Hn. rewrite array_loop_S.
    destruct (scan_once n depth s) as [[value s1]| |] eqn:E; [|done|].
    2:{ intros _. apply IHs in E; [done | lia]. }
    pose proof (proj1 (scan_rest n depth) _ _ _ E) as El.
    apply (scan_suffix n depth) in E. cbn [mbind result_bind]. cbv zeta.
    pose proof (skip_ws_suffix s1) as Hw1.
    pose proof (skip_ws_length s1) as Hl1.
    destruct (skip_ws s1) as [|c2 s2]; [done|]. simpl in Hl1.
    destruct (Ascii.eqb c2 "]"); [done|].
    destruct (Ascii.eqb c2 ","); [|done].
    pose proof (skip_ws_suffix s2) as Hw2.
    pose proof (skip_ws_length s2) as Hl2.
    intros H%IHa; [|lia]. eapply suffix_names; [|done].
    eapply suffix_trans; [exact Hw2|]. eapply suffix_trans; [|exact E].
    eapply suffix_trans; [|exact Hw1]. by repeat constructor.
Qed.

(** [loads] has an answer for every text that names no code point
    above U+00FF by an escape: it returns or it raises. *)
Lemma loads_modelled (text : string) :
  names_beyond_latin1 text = false → loads text ≠ Unmodelled.
Proof.
  intros Hn. unfold Json.loads, Json.decode.
  pose proof (skip_ws_length text) as Hl.
  pose proof (skip_ws_suffix text) as Hw.
  destruct (Json.scan_once _ _ _ _) as [[obj rest]| |] eqn:E;
    cbn [mbind result_bind].
  - by destruct (skip_ws rest).
  - done.
  - apply scan_unmodelled in E; [|lia].
    eapply suffix_names in E; [|done]. congruence.
Qed.

End JsonFacts.

(** ** [str] of an [int] *)

Section IntText.
Import Json.
Variable py : Interpreter.

Local Abbreviation step :=
  (λ (acc : Z) (c : ascii), (acc * 10 + Z.of_nat (nat_of_ascii c - 48))%Z).

Lemma digits_value_acc (d : Decimal.uint) (p : positive) :
  fold_left step (list_ascii_of_string (NilEmpty.string_of_uint d)) (Z.pos p)
  = Z.pos (Pos.of_uint_acc d p).
Proof.
  revert p. induction d as [|d IH|d IH|d IH|d IH|d IH|d IH|d IH|d IH|d IH|d IH];
    intros p; [reflexivity|..];
    cbn [NilEmpty.string_of_uint list_ascii_of_string fold_left Pos.of_uint_acc];
    rewrite <-IH; f_equal; vm_compute nat_of_ascii; lia.
Qed.

Lemma digits_value (d : Decimal.uint) :
  int_of_digits (NilEmpty.string_of_uint d) = Z.of_N (Pos.of_uint d).
Proof.
  unfold int_of_digits.
  induction d as [|d IH|d IH|d IH|d IH|d IH|d IH|d IH|d IH|d IH|d IH];
    [reflexivity| |..];
    cbn [NilEmpty.string_of_uint list_ascii_of_string fold_left Pos.of_uint];
    [exact IH|..]; cbn [Z.of_N]; rewrite <-digits_value_acc; reflexivity.
Qed.

Lemma span_digits_text (d : Decimal.uint) :
  span_digits (NilEmpty.string_of_uint d)
  = (NilEmpty.string_of_uint d, EmptyString).
Proof.
  induction d; [reflexivity|..];
    cbn [NilEmpty.string_of_uint span_digits];
    rewrite IHd; reflexivity.
Qed.

Lemma nzhead_head (d d' : Decimal.uint) : Decimal.nzhead d ≠ Decimal.D0 d'.
Proof. induction d; done. Qed.

(** The decimal digits of a positive number start with a digit from 1
    to 9. *)
Lemma to_uint_head (p : positive) : ∀ d, Pos.to_uint p ≠ Decimal.D0 d.
Proof.
  intros d E.
  pose proof (DecimalPos.Unsigned.to_of (Pos.to_uint p)) as H.
  rewrite DecimalPos.Unsigned.of_to in H. cbn [N.to_uint] in H.
  rewrite E in H. unfold Decimal.unorm in H. cbn [Decimal.nzhead] in H.
  destruct (Decimal.nzhead d) eqn:Hd; try done.
  - injection H as H'. subst d.
    by apply (DecimalPos.Unsigned.to_uint_nonzero p).
  - by apply (nzhead_head d u).
Qed.

Lemma str_pos (p : positive) :
  let text := NilEmpty.string_of_uint (Pos.to_uint p) in
  py_str py (PInt (Z.pos p)) = text
  ∧ py_str py (PInt (Z.neg p)) = String "-" text
  ∧ int_of_digits text = Z.pos p
  ∧ match_integer text = Some (text, EmptyString)
  ∧ match_integer (String "-" text) = Some (String "-" text, EmptyString).
Proof.
  intros text. subst text.
  pose proof (to_uint_head p) as Hhead.
  pose proof (DecimalPos.Unsigned.of_to p) as Hof.
  pose proof (digits_value (Pos.to_uint p)) as Hv. rewrite Hof in Hv.
  cbn [py_str Z.to_int NilZero.string_of_int NilZero.string_of_uint].
  destruct (Pos.to_uint p) as [|d|d|d|d|d|d|d|d|d|d] eqn:E;
    [done | by destruct (Hhead d) |..];
    (split_and!; [done | done | exact Hv |..]);
    cbn [NilEmpty.string_of_uint]; unfold match_integer;
    cbn -[span_digits]; rewrite span_digits_text; reflexivity.
Qed.

(** [str] of an [int] is the JSON text of that number: the integer
    pattern of the decoder matches all of it, so that it is an optional
    minus sign and then either 0 or digits of which the first is not 0,
    and [int] reads the number back from it. *)
Lemma str_int (z : Z) :
  parse_int (py_str py (PInt z)) = z
  ∧ match_integer (py_str py (PInt z))
    = Some (py_str py (PInt z), EmptyString).
Proof.
  destruct z as [|p|p].
  - done.
  - pose proof (str_pos p) as H. cbv zeta in H.
    destruct H as (-> & _ & Hv & Hm & _). split; [|done].
    unfold parse_int.
    destruct (NilEmpty.string_of_uint (Pos.to_uint p)) as [|c r] eqn:E;
      [done|].
    destruct (Pos.to_uint p); simplify_eq/=; done.
  - pose proof (str_pos p) as H. cbv zeta in H.
    destruct H as (_ & -> & Hv & _ & Hm). split; [|done].
    unfold parse_int. change (Ascii.eqb "-" "-") with true. cbv iota.
    rewrite Hv. done.
Qed.

End IntText.

(** ** Claims about [load] and [save] *)

Section PersistenceClaims.
Import PyDict Json JsonSpec AgentAiGen.
Variable py : Interpreter.
Implicit Types (self : DictionaryAgent) (fs : FileSystem).

Local Abbreviation loads := (Json.loads py).

(** The comprehension of [load] keeps the keys of an object, in their
    order, and binds each to the [str] of its value. *)
Lemma coerce_object (data : dict pyval) :
  wf data →
  coerce py data = (λ kv, (kv.1, py_str py kv.2)) <$> data.
Proof.
  intros Hd. unfold coerce, items. cbn [py_str].
  by rewrite (foldl_set_fresh (py_str py) data []).
Qed.

Lemma coerce_as_object (d : dict string) :
  wf d → coerce py (as_object d) = d.
Proof.
  intros Hd. rewrite coerce_object.
  - unfold as_object. rewrite <-list_fmap_compose.
    rewrite <-(list_fmap_id d) at 2. apply list_fmap_ext. by intros ? [? ?].
  - unfold wf, keys, as_object. by rewrite <-list_fmap_compose.
Qed.

(** What [load] does, by what reading the file and decoding its text
    do. *)
Lemma load_cases self fs :
  load py self fs
  = match read_text fs (storage_path self) with
    | Ok text =>
        match loads text with
        | Ok (PDict d) => (Ok tt, with_dict self (coerce py d))
        | Ok _ => (Ok tt, with_dict self [])
        | Raise e => (Raise e, self)
        | Unmodelled => (Unmodelled, self)
        end
    | Raise FileNotFoundError => (Ok tt, with_dict self [])
    | Raise e => (Raise e, self)
    | Unmodelled => (Unmodelled, self)
    end.
Proof.
  unfold load, load_body.
  destruct (read_text fs (storage_path self)) as [text|e|];
    cbn [mbind result_bind]; [|done..].
  destruct (Json.loads py text) as [data|e|] eqn:E; cbn [mbind result_bind].
  - by destruct data.
  - apply loads_raises in E.
    destruct E as [->|[[-> _]|[-> _]]]; done.
  - done.
Qed.

(** The limit on the digits of an integer and the limit on recursion
    at work: with the limits of an interpreter that was not configured,
    an integer of 4301 digits makes [load] raise [ValueError], and 992
    arrays inside one another make it raise [RecursionError]. *)
Lemma load_beyond_limits :
  let py0 := mkInterpreter 4300 990 (λ _, EmptyString) in
  let self := mkAgent [("cache", "a store")] "dictionary.json" in
  let file text :=
    mkFS {[ "dictionary.json" := Some text ]} (λ _, false) (λ _, true) in
  load py0 self (file (string_of_list_ascii (repeat "1"%char 4301)))
  = (Raise ValueError, self)
  ∧ load py0 self (file (string_of_list_ascii (repeat "["%char 992)))
    = (Raise RecursionError, self).
Proof. split; vm_compute; reflexivity. Qed.

(** C1, as stated, fails: on a file that holds only an opening brace,
    and on an empty file, [load] raises [JSONDecodeError] and leaves the
    mapping it had, instead of leaving an empty mapping. *)
Lemma load_malformed_counterexample :
  let py0 := mkInterpreter 4300 990 (λ _, EmptyString) in
  let self := mkAgent [("cache", "a store")] "dictionary.json" in
  let file text :=
    mkFS {[ "dictionary.json" := Some text ]} (λ _, false) (λ _, true) in
  load py0 self (file "{") = (Raise JSONDecodeError, self)
  ∧ load py0 self (file EmptyString) = (Raise JSONDecodeError, self).
Proof. split; vm_compute; reflexivity. Qed.

(** C1, amended.  [load] returns normally when the file is missing or
    is read and holds a JSON document within the limits of the
    interpreter: a missing file and a document whose top-level value is
    not an object leave an empty mapping, and an object replaces the
    mapping by its items, keys in their order, each value passed
    through [str].  No other case is treated as empty.  An error of
    reading the file other than [FileNotFoundError] reaches the caller.
    So does what the decoder raises, which is [JSONDecodeError] for a
    text that does not parse, [ValueError] only if the text is longer
    than the limit on the digits of an integer, and [RecursionError]
    only if the text is longer than the number of containers the
    decoder may enter.  Whenever [load] raises, the agent, and so its
    mapping, is left as it was.  These cases are all there are for a
    text of characters up to U+00FF that names none above by a
    [\uXXXX] escape. *)
Theorem load_outcomes self fs :
  let path := storage_path self in
  (read_text fs path = Raise FileNotFoundError →
     load py self fs = (Ok tt, mkAgent [] path))
  ∧ (∀ text v, read_text fs path = Ok text → loads text = Ok v →
       load py self fs
       = (Ok tt,
          mkAgent match v with
                  | PDict d => (λ kv, (kv.1, py_str py kv.2)) <$> d
                  | _ => []
                  end path))
  ∧ (∀ e, read_text fs path = Raise e → e ≠ FileNotFoundError →
       load py self fs = (Raise e, self))
  ∧ (∀ text e, read_text fs path = Ok text → loads text = Raise e →
       load py self fs = (Raise e, self)
       ∧ may_raise py e (S (recursion_room py)) text)
  ∧ (∀ e, (load py self fs).1 = Raise e → (load py self fs).2 = self)
  ∧ (∀ text, read_text fs path = Ok text →
       names_beyond_latin1 text = false →
       (load py self fs).1 ≠ Unmodelled).
Proof.
  intros path. subst path. rewrite load_cases. split_and!.
  - by intros ->.
  - intros text v -> Hv. rewrite Hv. destruct v; try done.
    by rewrite coerce_object by by eapply loads_dict_wf.
  - intros e -> He. by destruct e.
  - intros text e -> He. rewrite He. split; [done|].
    by apply loads_raises.
  - intros e.
    destruct (read_text fs (storage_path self)) as [text|e'|].
    + by destruct (loads text) as [[]| |].
    + by destruct e'.
    + done.
  - intros text -> Hn. apply (loads_modelled py) in Hn.
    by destruct (loads text) as [[]| |].
Qed.



(** C10. When the file is read and holds a document, within the limits
    of the interpreter, whose top-level value is an object, [load]
    succeeds and the mapping it leaves, a [dict] from [str] to [str],
    has the keys of the object, in their order and without repetition,
    each bound to the [str] of its value.  Nothing is rejected.  A
    string is kept as it is; [null], [true] and [false] become
    ["None"], ["True"] and ["False"]; an integer becomes its decimal
    text, that is the text which the integer pattern of JSON matches
    whole and from which [int] reads the same number, ["0"] for zero;
    floats, arrays and objects become their [str] too, which is the
    interpreter's. *)
Theorem load_coerces self fs (text : string) (d : dict pyval) :
  read_text fs (storage_path self) = Ok text →
  loads text = Ok (PDict d) →
  let mapping := (λ kv, (kv.1, py_str py kv.2)) <$> d in
  load py self fs = (Ok tt, mkAgent mapping (storage_path self))
  ∧ keys mapping = keys d
  ∧ wf mapping
  ∧ (∀ k, get k mapping = py_str py <$> get k d)
  ∧ (∀ s, py_str py (PStr s) = s)
  ∧ py_str py PNone = "None"
  ∧ py_str py (PBool true) = "True"
  ∧ py_str py (PBool false) = "False"
  ∧ (∀ z, parse_int (py_str py (PInt z)) = z
          ∧ match_integer (py_str py (PInt z))
            = Some (py_str py (PInt z), EmptyString))
  ∧ py_str py (PInt 0) = "0"
  ∧ py_str py (PInt (-12)) = "-12"
  ∧ py_str py (PInt 4300) = "4300"
  ∧ (∀ x, py_str py (PFloat x) = str_other py (PFloat x))
  ∧ (∀ l, py_str py (PList l) = str_other py (PList l))
  ∧ (∀ o, py_str py (PDict o) = str_other py (PDict o)).
Proof.
  intros Hfile Hloads mapping.
  pose proof (loads_dict_wf py text d Hloads) as Hwf.
  assert (Hkeys : keys mapping = keys d).
  { unfold keys, mapping. rewrite <-list_fmap_compose.
    apply list_fmap_ext. by intros ? [? ?]. }
  split_and!; try done.
  - rewrite load_cases, Hfile, Hloads. by rewrite coerce_object.
  - unfold wf. by rewrite Hkeys.
  - intros k. subst mapping. clear.
    induction d as [|[k' v'] d IH]; simpl; [done|].
    destruct (String.eqb k' k); [done | apply IH].
  - apply str_int.
Qed.

End PersistenceClaims.

Section PersistenceExamples.
Import PyDict Json JsonSpec AgentAiGen.


Lemma load_coerces_witness :
  let py0 := mkInterpreter 4300 990 (λ _, EmptyString) in
  let text := "{ " ++ String dquote ("n" ++ String dquote (": -120, "
                ++ String dquote ("b" ++ String dquote (": true, "
                ++ String dquote ("s" ++ String dquote (": "
                ++ String dquote ("x" ++ String dquote ", "
                ++ String dquote ("z" ++ String dquote ": null }"))))))))
  in
  AgentAiGen.load py0 (mkAgent [] "d.json")
    (mkFS {[ "d.json" := Some text ]} (λ _, false) (λ _, true))
  = (Ok tt,
     mkAgent [("n", "-120"); ("b", "True"); ("s", "x"); ("z", "None")]
       "d.json").
Proof.
  intros py0 text.
  apply (load_coerces py0 (mkAgent [] "d.json")
           (mkFS {[ "d.json" := Some text ]} (λ _, false) (λ _, true)) text
           [("n", PInt (-120)); ("b", PBool true); ("s", PStr "x");
            ("z", PNone)]).
  - reflexivity.
  - vm_compute. reflexivity.
Defined.

End PersistenceExamples.

(** ** More on the in-memory operations *)

Section StoreMore.
Import PyDict.
Implicit Types (s : AgentV3.DictionaryAgent) (t : AgentAiGen.DictionaryAgent).

Lemma del_last_absent {V} (d : dict V) (k : string) (v : V) :
  k ∉ keys d → del k (d ++ [(k, v)])%list = d.
Proof.
  unfold keys. induction d as [|[k0 v0] d IH]; simpl.
  - by rewrite String.eqb_refl.
  - rewrite not_elem_of_cons. intros [Hne Hd].
    rewrite eqb_decide, bool_decide_eq_false_2 by done. f_equal. by apply IH.
Qed.

Lemma add_fresh (w d : string) (ov : bool) s t :
  contains w (AgentV3.data s) = false →
  contains w (AgentAiGen._dict t) = false →
  AgentV3.add w d ov s
  = (true, AgentV3.mkAgent (AgentV3.data s ++ [(w, d)])%list)
  ∧ AgentAiGen.add w d ov t
    = (true, AgentAiGen.mkAgent (AgentAiGen._dict t ++ [(w, d)])%list
               (AgentAiGen.storage_path t)).
Proof.
  intros Hs Ht. unfold AgentV3.add, AgentAiGen.add, AgentAiGen.with_dict.
  rewrite Hs, Ht. simpl.
  apply contains_false in Hs, Ht. by rewrite !set_absent by done.
Qed.

(** Adding a word that is not a key succeeds with either value of
    [overwrite]: the new item goes after the others, which are left as
    they were. *)
Theorem add_new_word (w d : string) (ov : bool) s t :
  contains w (AgentV3.data s) = false →
  contains w (AgentAiGen._dict t) = false →
  AgentV3.add w d ov s
  = (true, AgentV3.mkAgent (AgentV3.data s ++ [(w, d)])%list)
  ∧ AgentAiGen.add w d ov t
    = (true, AgentAiGen.mkAgent (AgentAiGen._dict t ++ [(w, d)])%list
               (AgentAiGen.storage_path t))
  ∧ (∀ k, get k (AgentV3.data s ++ [(w, d)])%list
          = if decide (k = w) then Some d else get k (AgentV3.data s)).
Proof.
  intros Hs Ht. destruct (add_fresh w d ov s t Hs Ht) as (-> & ->).
  split_and!; [done..|]. apply contains_false in Hs.
  intros k. rewrite <-(set_absent _ _ d) by done. apply get_set.
Qed.

Lemma add_new_word_witness :
  AgentV3.add "heap" "a tree" false AgentV3.default
  = (true, AgentV3.mkAgent
             (AgentV3.BUILT_IN_DICT ++ [("heap", "a tree")])%list).
Proof.
  destruct (add_new_word "heap" "a tree" false AgentV3.default
              (AgentAiGen.mkAgent [] "dictionary.json"))
    as (H & _); [reflexivity | reflexivity | exact H].
Defined.

Lemma remove_scan_last (lower : string → string) (word k : string)
    (ks : list string) s :
  (∀ k0, k0 ∈ ks → lower k0 ≠ lower word) →
  lower k = lower word →
  AgentV3.remove_scan lower word (ks ++ [k]) s
  = (true, AgentV3.mkAgent (del k (AgentV3.data s))).
Proof.
  intros Hks Hk. induction ks as [|k0 ks IH]; cbn [app AgentV3.remove_scan].
  - by rewrite Hk, String.eqb_refl.
  - destruct (String.eqb_spec (lower k0) (lower word)) as [E|_].
    + destruct (Hks k0); [by left | done].
    + apply IH. intros k1 Hin. apply Hks. by right.
Qed.

(** Removing a word right after adding it as a new word gives back the
    mapping as it was before, in both modules.  In [agentv3.py] this
    holds on the exact path of [remove], when the word is removed as it
    was added, and on the case-insensitive path, when it is removed
    under another spelling and no key of the mapping has the
    lower-cased form of the word. *)
Theorem add_then_remove (lower : string → string) (w d : string) (ov : bool)
    s t :
  contains w (AgentV3.data s) = false →
  contains w (AgentAiGen._dict t) = false →
  AgentV3.remove lower w (AgentV3.add w d ov s).2 = (true, s)
  ∧ AgentAiGen.remove w (AgentAiGen.add w d ov t).2 = (true, t)
  ∧ ∀ w', w' ≠ w → lower w' = lower w →
      (∀ k, k ∈ keys (AgentV3.data s) → lower k ≠ lower w) →
      AgentV3.remove lower w' (AgentV3.add w d ov s).2 = (true, s).
Proof.
  intros Hs Ht.
  destruct (add_fresh w d ov s t Hs Ht) as (-> & ->).
  apply contains_false in Hs as Hs', Ht as Ht'. split_and!.
  - unfold AgentV3.remove. cbn [snd AgentV3.data].
    assert (Hc : contains w (AgentV3.data s ++ [(w, d)])%list = true).
    { apply contains_true. unfold keys. rewrite fmap_app.
      apply elem_of_app. right. left. }
    rewrite Hc, del_last_absent by done. by destruct s.
  - unfold AgentAiGen.remove, AgentAiGen.with_dict.
    cbn [snd AgentAiGen._dict AgentAiGen.storage_path].
    assert (Hg : get w (AgentAiGen._dict t ++ [(w, d)])%list = Some d).
    { rewrite <-(set_absent _ _ d) by done. by rewrite get_set, decide_True. }
    rewrite Hg, del_last_absent by done. by destruct t.
  - intros w' Hne Hl Hks. unfold AgentV3.remove. cbn [snd AgentV3.data].
    assert (Hc : contains w' (AgentV3.data s ++ [(w, d)])%list = false).
    { apply contains_false. unfold keys. rewrite fmap_app.
      intros [Hin|Hin%list_elem_of_singleton]%elem_of_app; [|done].
      by destruct (Hks w' Hin). }
    rewrite Hc. unfold keys. rewrite fmap_app. cbn [fmap list_fmap fst].
    rewrite remove_scan_last.
    + cbn [AgentV3.data]. rewrite del_last_absent by done. by destruct s.
    + intros k Hin. rewrite Hl. by apply Hks.
    + done.
Qed.

Lemma add_then_remove_witness :
  AgentV3.remove Str.lower "heap"
    (AgentV3.add "heap" "a tree" false AgentV3.default).2
  = (true, AgentV3.default)
  ∧ AgentV3.remove Str.lower "HEAP"
      (AgentV3.add "heap" "a tree" false AgentV3.default).2
    = (true, AgentV3.default).
Proof.
  destruct (add_then_remove Str.lower "heap" "a tree" false AgentV3.default
              (AgentAiGen.mkAgent [] "dictionary.json"))
    as (H & _ & H'); [reflexivity | reflexivity |].
  split; [exact H|].
  apply H'; [intros [=] | reflexivity |].
  intros k Hin. vm_compute in Hin.
  repeat (apply elem_of_cons in Hin as [->|Hin]; [by vm_compute|]).
  by apply elem_of_nil in Hin.
Defined.

(** [pop] in [agent_ai_gen.py]: removing a key drops that item only and
    keeps the order and the values of the others. *)
Theorem pop_present (w : string) t :
  wf (AgentAiGen._dict t) →
  contains w (AgentAiGen._dict t) = true →
  let r := AgentAiGen.remove w t in
  r.1 = true
  ∧ AgentAiGen.storage_path r.2 = AgentAiGen.storage_path t
  ∧ keys (AgentAiGen._dict r.2)
    = List.filter (λ k, negb (String.eqb k w)) (keys (AgentAiGen._dict t))
  ∧ ∀ k, AgentAiGen.lookup k r.2
         = if decide (k = w) then None else AgentAiGen.lookup k t.
Proof.
  intros Hwf Hc r. subst r. unfold AgentAiGen.remove, contains in *.
  destruct (get w (AgentAiGen._dict t)); [|done]. simpl.
  split_and!; [done..| |].
  - by apply keys_del.
  - intros k. unfold AgentAiGen.lookup. simpl. by apply get_del.
Qed.

Lemma pop_present_witness :
  AgentAiGen.lookup "b"
    (AgentAiGen.remove "a"
       (AgentAiGen.mkAgent [("a", "1"); ("b", "2")] "d.json")).2
  = Some "2".
Proof.
  destruct (pop_present "a"
              (AgentAiGen.mkAgent [("a", "1"); ("b", "2")] "d.json"))
    as (_ & _ & _ & H).
  - unfold wf. apply (bool_decide_unpack _). vm_compute. exact I.
  - reflexivity.
  - exact (H "b").
Defined.

(** The default [define] finds every key, under some key of the same
    lower-cased form; when no two keys share their lower-cased form, it
    returns for a key what the case-sensitive [define] returns. *)
Theorem define_on_keys (lower : string → string) (w : string) s :
  wf (AgentV3.data s) →
  contains w (AgentV3.data s) = true →
  (∃ k v, AgentV3.define lower w false s = Some v
          ∧ (k, v) ∈ AgentV3.data s ∧ lower k = lower w)
  ∧ ((∀ k1 k2, k1 ∈ keys (AgentV3.data s) → k2 ∈ keys (AgentV3.data s) →
               lower k1 = lower k2 → k1 = k2) →
     AgentV3.define lower w false s = AgentV3.define lower w true s).
Proof.
  intros Hwf Hc. apply contains_true in Hc.
  assert (H : ∃ k v, AgentV3.define lower w false s = Some v
                     ∧ (k, v) ∈ AgentV3.data s ∧ lower k = lower w).
  { unfold AgentV3.define. rewrite define_scan_list_find.
    destruct (list_find _ _) as [[i [k v]]|] eqn:E.
    - apply list_find_Some in E as (Hi & Hk & _).
      exists k, v. split_and!; [done | | done].
      by apply list_elem_of_lookup_2 in Hi.
    - apply list_find_None in E. rewrite Forall_forall in E.
      apply list_elem_of_fmap in Hc as ([k v] & -> & Hin).
      by destruct (E _ Hin). }
  split; [done|]. intros Hinj. destruct H as (k & v & -> & Hin & Hk).
  assert (k = w) as ->.
  { apply Hinj; [|done..]. by apply (list_elem_of_fmap_2 fst) in Hin. }
  unfold AgentV3.define. symmetry. by apply elem_get_Some.
Qed.

Lemma define_on_keys_witness :
  ∃ k v, AgentV3.define Str.lower "cache" false AgentV3.default = Some v
         ∧ (k, v) ∈ AgentV3.data AgentV3.default
         ∧ Str.lower k = Str.lower "cache".
Proof.
  apply (define_on_keys Str.lower "cache" AgentV3.default).
  - unfold wf. apply (bool_decide_unpack _). vm_compute. exact I.
  - reflexivity.
Defined.

Lemma filter_Permutation_list {A} (f : A → bool) (l1 l2 : list A) :
  l1 ≡ₚ l2 → List.filter f l1 ≡ₚ List.filter f l2.
Proof.
  induction 1 as [|x l1 l2 _ IH|x y l|l1 l2 l3 _ IH1 _ IH2]; simpl.
  - done.
  - destruct (f x); by rewrite IH.
  - destruct (f x), (f y); try done. apply perm_swap.
  - by etrans.
Qed.

Lemma filter_StronglySorted_list {A} (R : relation A) (f : A → bool) l :
  StronglySorted R l → StronglySorted R (List.filter f l).
Proof.
  induction 1 as [|k l Hl IH Hk]; simpl; [constructor|].
  destruct (f k); [|done]. constructor; [done|].
  rewrite Forall_forall in Hk |- *. intros x Hx. apply Hk.
  rewrite list_elem_of_In in Hx |- *. by apply List.filter_In in Hx as [? _].
Qed.

Lemma sorted_Permutation (l1 l2 : list string) :
  l1 ≡ₚ l2 → AgentV3.sorted l1 = AgentV3.sorted l2.
Proof.
  intros Hp. unfold AgentV3.sorted.
  apply (StronglySorted_unique String.le);
    [apply (StronglySorted_merge_sort _)..|].
  by rewrite !merge_sort_Permutation.
Qed.

(** [list] does not depend on the order in which the words were added:
    two agents with the same keys list the same, for every prefix. *)
Theorem list_ignores_insertion_order (prefix : option string) s1 s2 :
  keys (AgentV3.data s1) ≡ₚ keys (AgentV3.data s2) →
  AgentV3.list_ prefix s1 = AgentV3.list_ prefix s2.
Proof.
  intros Hp. unfold AgentV3.list_. by rewrite (sorted_Permutation _ _ Hp).
Qed.

Lemma list_ignores_insertion_order_witness :
  AgentV3.list_ None (AgentV3.mkAgent [("b", "2"); ("a", "1")])
  = AgentV3.list_ None (AgentV3.mkAgent [("a", "1"); ("b", "2")]).
Proof.
  apply (list_ignores_insertion_order None
           (AgentV3.mkAgent [("b", "2"); ("a", "1")])
           (AgentV3.mkAgent [("a", "1"); ("b", "2")])).
  simpl. apply perm_swap.
Defined.

(** After a [remove] that returns [True], [list()] is what it was
    without the key that was removed, a key whose lower-cased form is
    that of the word; after one that returns [False] it is unchanged. *)
Theorem list_after_remove (lower : string → string) (w : string) s :
  wf (AgentV3.data s) →
  let r := AgentV3.remove lower w s in
  if r.1 then
    ∃ k, k ∈ keys (AgentV3.data s) ∧ lower k = lower w
         ∧ AgentV3.list_ None r.2
           = List.filter (λ k', negb (String.eqb k' k)) (AgentV3.list_ None s)
  else AgentV3.list_ None r.2 = AgentV3.list_ None s.
Proof.
  intros Hwf r.
  assert (Hdel : ∀ k, AgentV3.list_ None (AgentV3.mkAgent (del k (AgentV3.data s)))
                 = List.filter (λ k', negb (String.eqb k' k))
                     (AgentV3.list_ None s)).
  { intros k. unfold AgentV3.list_, AgentV3.sorted. cbn [AgentV3.data].
    rewrite keys_del by done.
    apply (StronglySorted_unique String.le).
    - apply (StronglySorted_merge_sort _).
    - apply filter_StronglySorted_list, (StronglySorted_merge_sort _).
    - rewrite merge_sort_Permutation. apply filter_Permutation_list.
      by rewrite merge_sort_Permutation. }
  subst r. unfold AgentV3.remove.
  destruct (contains w (AgentV3.data s)) eqn:Hc; cbn [fst snd].
  - exists w. apply contains_true in Hc. by rewrite Hdel.
  - rewrite remove_scan_list_find.
    destruct (list_find _ _) as [[i k]|] eqn:Hf; cbn [fst snd]; [|done].
    apply list_find_Some in Hf as (Hi & Hk & _).
    exists k. apply list_elem_of_lookup_2 in Hi. by rewrite Hdel.
Qed.

Lemma list_after_remove_witness :
  ∃ k, k ∈ keys (AgentV3.data AgentV3.default)
       ∧ Str.lower k = Str.lower "Cache"
       ∧ AgentV3.list_ None
           (AgentV3.remove Str.lower "Cache" AgentV3.default).2
         = List.filter (λ k', negb (String.eqb k' k))
             (AgentV3.list_ None AgentV3.default).
Proof.
  assert (Hwf : wf (AgentV3.data AgentV3.default))
    by (unfold wf; apply (bool_decide_unpack _); vm_compute; exact I).
  exact (list_after_remove Str.lower "Cache" AgentV3.default Hwf).
Defined.

(** After an [add] that returns [True], [list()] holds the word and the
    words it held before, and nothing else. *)
Theorem list_after_add (w d : string) (ov : bool) s :
  (AgentV3.add w d ov s).1 = true →
  ∀ k, k ∈ AgentV3.list_ None (AgentV3.add w d ov s).2
       ↔ k = w ∨ k ∈ AgentV3.list_ None s.
Proof.
  unfold AgentV3.add. destruct (_ && _); [done|]. intros _ k.
  unfold AgentV3.list_, AgentV3.sorted. cbn [snd AgentV3.data].
  rewrite !merge_sort_Permutation.
  destruct (decide (w ∈ keys (AgentV3.data s))) as [Hin|Hin].
  - rewrite keys_set_present by done. split; [auto|]. by intros [->|?].
  - rewrite set_absent by done. unfold keys. rewrite fmap_app, elem_of_app.
    simpl. rewrite list_elem_of_singleton. tauto.
Qed.

Lemma list_after_add_witness :
  "heap" ∈ AgentV3.list_ None
             (AgentV3.add "heap" "a tree" false AgentV3.default).2.
Proof.
  apply (list_after_add "heap" "a tree" false AgentV3.default);
    [reflexivity | by left].
Defined.

End StoreMore.

(** ** More on [suggest] *)

Section SuggestMore.
Import PyDict Difflib DifflibSpec.

(** On a positive [max_results], [suggest] returns at most that many
    words, none of them twice, each a key whose ratio to the query lies
    between 0.4 and 1. *)
Theorem suggest_returns_close_keys (query : string) (max_results : Z)
    (self : AgentV3.DictionaryAgent) :
  wf (AgentV3.data self) →
  (0 < max_results)%Z →
  ∃ l, AgentV3.suggest query max_results self = Ok l
       ∧ (length l ≤ Z.to_nat max_results)%nat
       ∧ NoDup l
       ∧ ∀ k, k ∈ l →
              k ∈ keys (AgentV3.data self)
              ∧ Qle (Qmake 4 10) (score query k)
              ∧ Qle (score query k) 1.
Proof.
  intros Hwf Hn.
  destruct (get_close_matches_ranked query (keys (AgentV3.data self))
              max_results (Qmake 4 10) Hn) as (ranked & Hs & Hp & _);
    [done..|].
  exists (take (Z.to_nat max_results) ranked). split_and!; [done | | |].
  - rewrite length_take. lia.
  - apply (sublist_NoDup _ ranked); [|apply sublist_take].
    rewrite Hp. apply NoDup_ListNoDup, List.NoDup_filter, NoDup_ListNoDup, Hwf.
  - intros k Hk. apply subseteq_take in Hk. rewrite Hp in Hk.
    apply list_elem_of_In, List.filter_In in Hk as [Hin Hq].
    apply list_elem_of_In in Hin. apply Qle_bool_iff in Hq.
    split_and!; [done..|]. apply ratio_range, chain_b_sound.
Qed.

Lemma suggest_returns_close_keys_witness :
  ∃ l, AgentV3.suggest "examp" 3 AgentV3.default = Ok l
       ∧ (length l ≤ 3)%nat.
Proof.
  destruct (suggest_returns_close_keys "examp" 3 AgentV3.default)
    as (l & H1 & H2 & _).
  - unfold wf. apply (bool_decide_unpack _). vm_compute. exact I.
  - reflexivity.
  - exists l. split; [exact H1 | exact H2].
Defined.

Lemma shared_disjoint (x y : list ascii) :
  (∀ c, c ∈ x → c ∉ y) → shared x y = 0%nat.
Proof.
  intros Hd. unfold shared.
  replace (list_to_set_disj x ∩ list_to_set_disj y)
    with (∅ : gmultiset ascii); [done|].
  apply gmultiset_eq. intros c.
  rewrite multiplicity_empty, multiplicity_intersection.
  destruct (decide (c ∈ x)) as [Hx|Hx].
  - assert (Hy : c ∉ (list_to_set_disj y : gmultiset ascii))
      by (rewrite elem_of_list_to_set_disj; by apply Hd).
    apply not_elem_of_multiplicity in Hy. lia.
  - assert (Hx' : c ∉ (list_to_set_disj x : gmultiset ascii))
      by (by rewrite elem_of_list_to_set_disj).
    apply not_elem_of_multiplicity in Hx'. lia.
Qed.

(** A key that has no character in common with the query is never
    suggested (unless both are the empty string). *)
Theorem suggest_needs_common_character (query k : string) (max_results : Z)
    (self : AgentV3.DictionaryAgent) (l : list string) :
  (∀ c, c ∈ list_ascii_of_string k → c ∉ list_ascii_of_string query) →
  k ≠ EmptyString ∨ query ≠ EmptyString →
  AgentV3.suggest query max_results self = Ok l →
  k ∉ l.
Proof.
  intros Hd Hne Hs Hk.
  destruct (decide (0 < max_results)%Z) as [Hn|Hn].
  2:{ unfold AgentV3.suggest, get_close_matches in Hs.
      by rewrite (proj2 (Z.ltb_ge 0 max_results)) in Hs by lia. }
  destruct (get_close_matches_ranked query (keys (AgentV3.data self))
              max_results (Qmake 4 10) Hn) as (ranked & Hs' & Hp & _);
    [done..|].
  unfold AgentV3.suggest in Hs. rewrite Hs' in Hs. injection Hs as <-.
  apply subseteq_take in Hk. rewrite Hp in Hk.
  apply list_elem_of_In, List.filter_In in Hk as [_ Hq].
  apply Qle_bool_iff in Hq. unfold score, ratio in Hq.
  pose proof (matches_le_shared (list_ascii_of_string k)
                (list_ascii_of_string query) _
                (chain_b_sound (list_ascii_of_string query))) as Hm.
  rewrite (shared_disjoint _ _ Hd) in Hm.
  assert (matches (list_ascii_of_string k) (list_ascii_of_string query)
            (chain_b (list_ascii_of_string query)) = 0%nat) as Hz by lia.
  rewrite Hz in Hq. unfold _calculate_ratio in Hq.
  destruct (Nat.eqb_spec (length (list_ascii_of_string k)
                          + length (list_ascii_of_string query)) 0)
    as [Hlen|Hlen].
  - destruct k, query; simpl in Hlen; try lia. by destruct Hne.
  - unfold Qle in Hq. simpl in Hq. lia.
Qed.

Lemma suggest_needs_common_character_witness :
  "dog" ∉ ["binary"].
Proof.
  apply (suggest_needs_common_character "binar" "dog" 1
           (AgentV3.mkAgent [("dog", "d"); ("binary", "b")])).
  - intros c Hc Hq. apply list_elem_of_In in Hc, Hq. simpl in Hc, Hq.
    intuition congruence.
  - by left.
  - vm_compute. reflexivity.
Defined.

End SuggestMore.

(** ** The command line of [agentv3.py] *)

Section MainFacts.
Import PyDict AgentV3 AgentV3Main.
Variable lower : string → string.

(** Some built-in key has the lower-cased form of [w]. *)
Local Abbreviation known w :=
  (Exists (λ k, lower k = lower w) (keys BUILT_IN_DICT)).

Lemma built_in_truthy :
  Forall (λ kv : string * string, Str.truthy kv.2 = true) BUILT_IN_DICT.
Proof. repeat constructor. Qed.

Lemma define_default (w : string) :
  if decide (known w)
  then ∃ d, define lower w false default = Some d ∧ Str.truthy d = true
  else define lower w false default = None.
Proof.
  unfold define, default, items. cbn [data].
  rewrite define_scan_list_find. case_decide as Hk.
  - apply Exists_exists in Hk as (k & Hin & Hl).
    apply list_elem_of_fmap in Hin as ([k' d] & -> & Hin).
    destruct (list_find (λ kv, lower kv.1 = lower w) BUILT_IN_DICT)
      as [[i [k1 d1]]|] eqn:E.
    + exists d1. split; [done|].
      apply list_find_Some in E as (Hi & _ & _).
      apply list_elem_of_lookup_2 in Hi.
      by apply (proj1 (Forall_forall _ _) built_in_truthy _ Hi).
    + apply list_find_None in E.
      by apply (proj1 (Forall_forall _ _) E _) in Hin.
  - rewrite (proj2 (list_find_None _ _)); [done|].
    apply Forall_forall. intros [k d] Hin Hl. apply Hk.
    apply Exists_exists. exists k. split; [|done].
    apply list_elem_of_fmap. by exists (k, d).
Qed.

Lemma remove_default (w : string) :
  (remove lower w default).1 = bool_decide (known w).
Proof.
  unfold remove. destruct (contains w (data default)) eqn:E.
  - apply contains_true in E. symmetry. apply bool_decide_eq_true_2.
    apply Exists_exists. by exists w.
  - rewrite remove_scan_list_find.
    destruct (list_find _ _) as [[i k]|] eqn:F; cbn [fst]; symmetry.
    + apply list_find_Some in F as (Hi & Hl & _).
      apply bool_decide_eq_true_2, Exists_exists. exists k.
      split; [by eapply list_elem_of_lookup_2 | done].
    + apply list_find_None in F.
      apply bool_decide_eq_false_2. by apply Forall_Exists_neg in F.
Qed.

Lemma suggest_returns (query : string) (n : Z) (self : DictionaryAgent) :
  (0 < n)%Z → ∃ l, suggest query n self = Ok l.
Proof.
  intros Hn. unfold suggest.
  destruct (get_close_matches_ranked query (keys (data self)) n (Qmake 4 10))
    as (ranked & -> & _); [done..|]. by eexists.
Qed.

Lemma main_define (w : string) :
  ∃ out, main lower (Define w)
         = Ok (out, if decide (known w) then 0%Z else 2%Z)
         ∧ (known w → ∃ d, out = [w ++ ": " ++ d]).
Proof.
  pose proof (define_default w) as Hd. unfold main.
  destruct (suggest_returns w 5 default) as [l Hl]; [done|]. rewrite Hl.
  cbn [mbind result_bind]. case_decide as Hk.
  - destruct Hd as (d & -> & ->). eexists. split; [done|]. by exists d.
  - rewrite Hd. eexists. split; [done|]. done.
Qed.

Lemma main_remove (w : string) :
  main lower (Remove w)
  = if decide (known w) then Ok (["Removed '" ++ w ++ "'."], 0%Z)
    else Ok (["Word '" ++ w ++ "' not found."], 4%Z).
Proof.
  pose proof (remove_default w) as Hr. unfold main.
  destruct (remove lower w default) as [ok a]. cbn [fst] in Hr. subst ok.
  case_bool_decide; [rewrite decide_True | rewrite decide_False]; done.
Qed.

Lemma main_add (w d : string) (ov : bool) :
  main lower (Add w d ov)
  = if decide (w ∈ keys BUILT_IN_DICT ∧ ov = false)
    then Ok (["Word '" ++ w
              ++ "' already exists. Use --overwrite to replace."], 3%Z)
    else Ok (["Added '" ++ w ++ "'."], 0%Z).
Proof.
  unfold main, add. destruct (contains w (data default)) eqn:E.
  - apply contains_true in E. destruct ov; cbn [negb andb].
    + rewrite decide_False; [done | by intros [_ ?]].
    + by rewrite decide_True.
  - apply contains_false in E. cbn [andb].
    rewrite decide_False; [done | by intros [? _]].
Qed.

(** The value [main] returns, by subcommand.  [define] returns 0 when
    some built-in key has the lower-cased form of the word and 2
    otherwise; [add] returns 3 for a built-in key without
    [--overwrite] and 0 otherwise; [remove] returns 0 when some built-in
    key has the lower-cased form of the word and 4 otherwise; [list]
    returns 0; [suggest] returns 0 for a positive [--max] and raises
    [ValueError] for any other.  The final [return 1] is never
    reached. *)
Theorem main_exit_codes :
  (∀ w, ∃ out, main lower (Define w)
               = Ok (out, if decide (known w) then 0%Z else 2%Z))
  ∧ (∀ q n, if decide (0 < n)%Z
            then ∃ out, main lower (Suggest q n) = Ok (out, 0%Z)
            else main lower (Suggest q n) = Raise ValueError)
  ∧ (∀ w d ov, ∃ out,
       main lower (Add w d ov)
       = Ok (out, if decide (w ∈ keys BUILT_IN_DICT ∧ ov = false)
                  then 3%Z else 0%Z))
  ∧ (∀ w, ∃ out, main lower (Remove w)
                 = Ok (out, if decide (known w) then 0%Z else 4%Z))
  ∧ (∀ p, ∃ out, main lower (List p) = Ok (out, 0%Z))
  ∧ (∀ args out code, main lower args = Ok (out, code) → code ≠ 1%Z).
Proof.
  assert (Hsug : ∀ q n, if decide (0 < n)%Z
            then ∃ out, main lower (Suggest q n) = Ok (out, 0%Z)
            else main lower (Suggest q n) = Raise ValueError).
  { intros q n. unfold main. case_decide as Hn.
    - destruct (suggest_returns q n default Hn) as [l ->]. by eexists.
    - unfold suggest, Difflib.get_close_matches.
      by rewrite (proj2 (Z.ltb_ge 0 n)) by lia. }
  split_and!.
  - intros w. destruct (main_define w) as (out & H & _). by exists out.
  - exact Hsug.
  - intros w d ov. rewrite main_add. case_decide; by eexists.
  - intros w. rewrite main_remove. case_decide; by eexists.
  - intros p. by eexists.
  - intros [w|q n|w d ov|w|p] out code.
    + destruct (main_define w) as (out' & -> & _).
      case_decide; by intros [= _ <-].
    + specialize (Hsug q n). case_decide.
      * destruct Hsug as [out' ->]. by intros [= _ <-].
      * by rewrite Hsug.
    + rewrite main_add. case_decide; by intros [= _ <-].
    + rewrite main_remove. case_decide; by intros [= _ <-].
    + by intros [= _ <-].
Qed.

(** Every call of [main] starts from the built-in words, so nothing a
    call did is seen by the next: a word that [add] reported as added
    is still not found by [define], and a word that [remove] reported
    as removed is still defined. *)
Theorem main_keeps_nothing (w d : string) (ov : bool) :
  (¬ known w →
   main lower (Add w d ov) = Ok (["Added '" ++ w ++ "'."], 0%Z)
   ∧ ∃ out, main lower (Define w) = Ok (out, 2%Z))
  ∧ (known w →
     main lower (Remove w) = Ok (["Removed '" ++ w ++ "'."], 0%Z)
     ∧ ∃ v, main lower (Define w) = Ok ([w ++ ": " ++ v], 0%Z)).
Proof.
  split; intros Hk.
  - split.
    + rewrite main_add, decide_False; [done|]. intros [Hin _]. apply Hk.
      apply Exists_exists. by exists w.
    + destruct (main_define w) as (out & H & _).
      rewrite decide_False in H by done. by exists out.
  - split.
    + by rewrite main_remove, decide_True.
    + destruct (main_define w) as (out & H & Hout).
      rewrite decide_True in H by done.
      destruct (Hout Hk) as [v ->]. by exists v.
Qed.

End MainFacts.

Lemma main_keeps_nothing_witness :
  (AgentV3Main.main Str.lower (AgentV3Main.Add "heap" "a tree" false)
   = Ok (["Added 'heap'."], 0%Z)
   ∧ ∃ out, AgentV3Main.main Str.lower (AgentV3Main.Define "heap")
            = Ok (out, 2%Z))
  ∧ (AgentV3Main.main Str.lower (AgentV3Main.Remove "Cache")
     = Ok (["Removed 'Cache'."], 0%Z)
     ∧ ∃ v, AgentV3Main.main Str.lower (AgentV3Main.Define "Cache")
            = Ok (["Cache: " ++ v], 0%Z)).
Proof.
  split.
  - apply (main_keeps_nothing Str.lower "heap" "a tree" false).
    apply (bool_decide_unpack _). vm_compute. exact I.
  - apply (main_keeps_nothing Str.lower "Cache" "a tree" false).
    apply (bool_decide_unpack _). vm_compute. exact I.
Defined.

(** ** [strip] and [split] as the interactive loop uses them *)

Section TextFacts.
Import Text.

Lemma lstrip_head (s : string) (c : ascii) (r : string) :
  lstrip s = String c r → is_space c = false.
Proof.
  induction s as [|a s IH]; simpl; [done|].
  destruct (is_space a) eqn:E; [done|]. by intros [= <- _].
Qed.

Lemma rstrip_head (c : ascii) (r : string) :
  is_space c = false → ∃ r', rstrip (String c r) = String c r'.
Proof. intros H. simpl. rewrite H. destruct (rstrip r); eauto. Qed.

Lemma strip_head (line : string) (c : ascii) (r : string) :
  strip line = String c r → is_space c = false.
Proof.
  unfold strip. destruct (lstrip line) as [|a t] eqn:E; [done|].
  apply lstrip_head in E. destruct (rstrip_head a t E) as [r' ->].
  by intros [= <- _].
Qed.

Lemma split_length (n : nat) (s : string) : (length (split n s) ≤ S n)%nat.
Proof.
  revert s. induction n as [|n IH]; intros s; simpl.
  - destruct (lstrip s); simpl; lia.
  - destruct (lstrip s) as [|a t]; simpl; [lia|].
    destruct (if is_space a then _ else _) as [w r].
    simpl. specialize (IH r). lia.
Qed.

Lemma split_stripped (n : nat) (c : ascii) (r : string) :
  is_space c = false →
  ∃ w rest, split (S n) (String c r) = String c w :: rest.
Proof.
  intros H. simpl. rewrite H. rewrite H.
  destruct (span_word r) as [w r']. by eexists _, _.
Qed.

(** In the interactive loop [parts[0]] always exists: a line that is
    not empty once stripped splits into one, two or three parts, and
    the first of them is not empty. *)
Theorem parts_nonempty (line : string) :
  Str.truthy (strip line) = true →
  ∃ cmd rest,
    split 2 (strip line) = cmd :: rest
    ∧ cmd ≠ EmptyString
    ∧ (length rest ≤ 2)%nat.
Proof.
  intros Ht. destruct (strip line) as [|c r] eqn:E; [done|].
  apply strip_head in E. destruct (split_stripped 1 c r E) as (w & rest & Hs).
  exists (String c w), rest. split_and!; [done..|].
  pose proof (split_length 2 (String c r)) as Hl. rewrite Hs in Hl.
  simpl in Hl. lia.
Qed.

Lemma parts_nonempty_witness :
  ∃ cmd rest,
    split 2 (strip "  add heap a tree of keys  ") = cmd :: rest
    ∧ cmd ≠ EmptyString
    ∧ (length rest ≤ 2)%nat.
Proof. apply (parts_nonempty "  add heap a tree of keys  "). reflexivity. Defined.

End TextFacts.

(** ** The command line of [agent_ai_gen.py] *)

Section CliFacts.
Import PyDict Json JsonSpec AgentAiGen AgentAiGenCli.
Variable lower : string → string.
Variable py : Interpreter.
Variable default_path : string.
Implicit Types (agent : DictionaryAgent) (fs : FileSystem).

Local Abbreviation run_agent := (run_agent lower py default_path).
Local Abbreviation interact := (interact lower py).
Local Abbreviation command := (command lower py).
Local Abbreviation start := (load py (mkAgent [] default_path)).
Local Abbreviation loads := (Json.loads py).

(** After [fs], with [text] stored at [path]. *)
Local Abbreviation stored path text fs :=
  (mkFS (<[path%string := Some text%string]> (files fs)) (unreadable fs)
     (writable fs)).

(** [fs'] is [fs], or [fs] after a mapping was saved at [path]. *)
Local Abbreviation saved_at path fs fs' :=
  (fs' = fs
   ∨ ∃ d : dict string,
       wf d
       ∧ writable fs path = true
       ∧ fs' = stored path (dumps d) fs).

Lemma load_ok agent fs agent' :
  load py agent fs = (Ok tt, agent') →
  storage_path agent' = storage_path agent
  ∧ wf (_dict agent')
  ∧ unreadable fs (storage_path agent) = false.
Proof.
  rewrite load_cases. unfold read_text.
  destruct (unreadable fs (storage_path agent)); [done|].
  destruct (files fs !! storage_path agent) as [[text|]|]; [|done|].
  - destruct (loads text) as [[]| |] eqn:E; try done; intros [= <-];
      (split_and!; [done| |done]); cbn [_dict with_dict];
      try apply NoDup_nil_2.
    apply loads_dict_wf in E. rewrite coerce_object by done.
    unfold wf, keys in *. rewrite <-list_fmap_compose.
    replace ((fst ∘ _) <$> d) with (d.*1); [done|].
    apply list_fmap_ext. by intros ? [? ?].
  - intros [= <-]. split_and!; [done | apply NoDup_nil_2 | done].
Qed.

Lemma load_same_file agent fs fs' :
  files fs' !! storage_path agent = files fs !! storage_path agent →
  unreadable fs' = unreadable fs →
  load py agent fs' = load py agent fs.
Proof. intros H Hu. unfold load, load_body, read_text. by rewrite H, Hu. Qed.

Lemma load_saved agent fs (d : dict string) :
  wf d →
  unreadable fs (storage_path agent) = false →
  load py agent (stored (storage_path agent) (dumps d) fs)
  = (Ok tt, with_dict agent d).
Proof.
  intros Hd Hr. rewrite load_cases. unfold read_text.
  cbn [files unreadable].
  by rewrite Hr, lookup_insert_eq, loads_dumps, coerce_as_object.
Qed.

Lemma save_ok agent fs fs' :
  save agent fs = Ok fs' →
  writable fs (storage_path agent) = true
  ∧ fs' = stored (storage_path agent) (dumps (_dict agent)) fs.
Proof.
  unfold save, write_text. destruct (writable fs _); [|done].
  by intros [= <-].
Qed.

Lemma saved_at_trans path fs fs1 fs2 :
  saved_at path fs fs1 → saved_at path fs1 fs2 → saved_at path fs fs2.
Proof.
  intros [->|(d1 & Hd1 & Hw1 & ->)]; [done|].
  intros [->|(d2 & Hd2 & Hw2 & ->)]; right.
  - by exists d1.
  - exists d2. cbn [files writable unreadable] in *. split_and!; [done..|].
    by rewrite insert_insert_eq.
Qed.

Lemma add_ok (w d : string) (ov : bool) agent :
  wf (_dict agent) →
  storage_path (add w d ov agent).2 = storage_path agent
  ∧ wf (_dict (add w d ov agent).2).
Proof.
  intros Hwf. unfold add. destruct (_ && _); [done|].
  split; [done|]. by apply wf_set.
Qed.

Lemma remove_ok (w : string) agent :
  wf (_dict agent) →
  storage_path (remove w agent).2 = storage_path agent
  ∧ wf (_dict (remove w agent).2).
Proof.
  intros Hwf. unfold remove. destruct (get w _); [|done].
  split; [done|]. by apply wf_del.
Qed.

(** One round of the loop keeps the path and the unique keys, and
    touches the files only by saving the mapping. *)
Lemma command_ok (raw : string) agent fs printed agent' fs' :
  wf (_dict agent) →
  command raw agent fs = Ok (printed, agent', fs') →
  storage_path agent' = storage_path agent
  ∧ wf (_dict agent')
  ∧ saved_at (storage_path agent) fs fs'.
Proof.
  intros Hwf. unfold AgentAiGenCli.command.
  destruct (Text.split 2 raw) as [|part0 parts]; [done|].
  set (arg1 := nth 1 (part0 :: parts) EmptyString).
  set (arg2 := nth 2 (part0 :: parts) EmptyString).
  destruct (String.eqb (lower part0) "list"); [intros [= <- <- <-]; by auto|].
  destruct (String.eqb (lower part0) "lookup" && _).
  { destruct (lookup arg1 agent); intros [= <- <- <-]; by auto. }
  destruct (String.eqb (lower part0) "add" && _).
  { destruct (add_ok arg1 arg2 false agent Hwf) as [Hp Hd].
    destruct (add arg1 arg2 false agent) as [added a].
    intros [= <- <- <-]. by auto. }
  destruct (String.eqb (lower part0) "remove" && _).
  { destruct (remove_ok arg1 agent Hwf) as [Hp Hd].
    destruct (remove arg1 agent) as [removed a].
    intros [= <- <- <-]. by auto. }
  destruct (String.eqb (lower part0) "save").
  { destruct (save agent fs) as [fs1| |] eqn:E; [|done..].
    apply save_ok in E as [Hw ->]. intros [= <- <- <-].
    split_and!; [done..|]. right. by exists (_dict agent). }
  destruct (String.eqb (lower part0) "load"); [|intros [= <- <- <-]; by auto].
  destruct (load py agent fs) as [[[]| |] a] eqn:E; [|done..].
  apply load_ok in E as (Hp & Hd & _). intros [= <- <- <-]. by auto.
Qed.

Lemma interact_ok (stdin : list string) :
  ∀ agent fs out out' code fs',
    wf (_dict agent) →
    interact stdin agent fs out = Ok (out', code, fs') →
    code = 0%Z ∧ saved_at (storage_path agent) fs fs'.
Proof.
  induction stdin as [|line stdin IH]; intros agent fs out out' code fs' Hwf;
    cbn [AgentAiGenCli.interact].
  - intros [= <- <- <-]. by auto.
  - destruct (negb (Str.truthy (Text.strip line))); [by apply IH|].
    destruct (_ || _); [intros [= <- <- <-]; by auto|].
    destruct (String.eqb (lower (Text.strip line)) "help"); [by apply IH|].
    destruct (command (Text.strip line) agent fs) as [[[printed a] fs1]| |]
      eqn:E; [|done..].
    apply command_ok in E as (Hp & Hd & Hs); [|done].
    cbn [mbind result_bind]. intros H. apply IH in H as [-> H]; [|done].
    split; [done|]. rewrite Hp in H. by eapply saved_at_trans.
Qed.

(** What a run that returns has done: the initial [load] returned an
    agent, and the files are as they were, or a mapping with unique
    keys was saved at the default path or, for [save --path p], at
    [p]. *)
Lemma run_agent_ok (args : Args) (stdin : list string) fs out code fs' :
  run_agent args stdin fs = Ok (out, code, fs') →
  ∃ agent,
    start fs = (Ok tt, agent)
    ∧ saved_at (match args with
                | CmdSave (Some p) => if Str.truthy p then p else default_path
                | _ => default_path
                end) fs fs'.
Proof.
  unfold AgentAiGenCli.run_agent.
  destruct (start fs) as [[[]| |] agent] eqn:E; [|done..].
  cbn [mbind result_bind]. intros H. exists agent. split; [done|].
  apply load_ok in E as (Hp & Hd & _). cbn [storage_path] in Hp.
  destruct args as [| |w|w d ov|w|path|path].
  - apply interact_ok in H as [_ H]; [|done]. by rewrite Hp in H.
  - injection H as <- <- <-. by left.
  - destruct (lookup w agent); injection H as <- <- <-; by left.
  - destruct (add_ok w d ov agent Hd) as [Hp' Hd'].
    destruct (add w d ov agent) as [added a]. cbn [snd] in *.
    destruct added; cbn [negb] in H; [|injection H as <- <- <-; by left].
    destruct (save a fs) as [fs1| |] eqn:S; [|done..].
    apply save_ok in S as [Hw ->]. injection H as <- <- <-.
    right. exists (_dict a). by rewrite <-Hp, <-Hp'.
  - destruct (remove_ok w agent Hd) as [Hp' Hd'].
    destruct (remove w agent) as [removed a]. cbn [snd] in *.
    destruct removed; cbn [negb] in H; [|injection H as <- <- <-; by left].
    destruct (save a fs) as [fs1| |] eqn:S; [|done..].
    apply save_ok in S as [Hw ->]. injection H as <- <- <-.
    right. exists (_dict a). by rewrite <-Hp, <-Hp'.
  - destruct (save (with_path path agent) fs) as [fs1| |] eqn:S; [|done..].
    apply save_ok in S as [Hw ->]. injection H as <- <- <-.
    right. exists (_dict agent). unfold with_path in *.
    destruct path as [p|]; [destruct (Str.truthy p)|];
      cbn [storage_path _dict] in *; rewrite ?Hp in *; done.
  - destruct (load py (with_path path agent) fs) as [[[]| |] a]; [|done..].
    injection H as <- <- <-. by left.
Qed.

(** A run that returns changes at most one file: the one at the
    default path or, for [save --path p] with [p] not empty, the one at
    [p] and no other, the one at the default path included.  The
    subcommands [list], [lookup] and [load], an [add] that returns 3
    and a [remove] that returns 2 change no file at all. *)
Theorem run_agent_file_effects (args : Args) (stdin : list string) fs
    (out : list string) (code : Z) fs' :
  run_agent args stdin fs = Ok (out, code, fs') →
  let target :=
    match args with
    | CmdSave (Some q) => if Str.truthy q then q else default_path
    | _ => default_path
    end in
  (∀ p, p ≠ target → files fs' !! p = files fs !! p)
  ∧ (match args with
     | CmdList | CmdLookup _ | CmdLoad _ => True
     | CmdAdd _ _ _ | CmdRemove _ => code ≠ 0%Z
     | NoCommand | CmdSave _ => False
     end → fs' = fs).
Proof.
  intros H target. pose proof H as (agent & Hstart & Hs)%run_agent_ok.
  split.
  - intros p Hp. destruct Hs as [->|(d & _ & _ & ->)]; [done|].
    cbn [files]. by apply lookup_insert_ne.
  - unfold AgentAiGenCli.run_agent in H. rewrite Hstart in H.
    cbn [mbind result_bind] in H.
    destruct args as [| |w|w d ov|w|path|path]; try done; intros Hc.
    + by injection H as <- <- <-.
    + by destruct (lookup w agent); injection H as <- <- <-.
    + destruct (add w d ov agent) as [[] a]; cbn [negb] in H.
      * destruct (save a fs); [|done..]. by injection H as <- <- <-.
      * by injection H as <- <- <-.
    + destruct (remove w agent) as [[] a]; cbn [negb] in H.
      * destruct (save a fs); [|done..]. by injection H as <- <- <-.
      * by injection H as <- <- <-.
    + destruct (load py (with_path path agent) fs) as [[[]| |] a];
        [|done..].
      by injection H as <- <- <-.
Qed.

(** A run that returns never leaves the dictionary file in a state the
    next run cannot start from: whatever the subcommand or the lines
    typed, the [load] that opens the next run returns. *)
Theorem run_agent_file_stays_loadable (args : Args) (stdin : list string)
    fs (out : list string) (code : Z) fs' :
  run_agent args stdin fs = Ok (out, code, fs') →
  ∃ agent', start fs' = (Ok tt, agent').
Proof.
  intros (agent & Hstart & Hs)%run_agent_ok.
  destruct Hs as [->|(d & Hd & _ & ->)]; [by exists agent|].
  pose proof (load_ok _ _ _ Hstart) as (_ & _ & Hr).
  set (target := match args with
                 | CmdSave (Some p) =>
                     if Str.truthy p then p else default_path
                 | _ => default_path
                 end).
  destruct (decide (target = default_path)) as [->|Hne].
  - eexists. by apply (load_saved (mkAgent [] default_path)).
  - exists agent. rewrite <-Hstart. apply load_same_file; [|done].
    cbn [files storage_path]. by apply lookup_insert_ne.
Qed.

(** When the dictionary file is read and the decoder raises on its
    text, every subcommand, [save] and [load --path] of another file
    among them, and the interactive loop too, raises the same before
    doing anything.  What is raised is [JSONDecodeError], unless the
    text is longer than the limit on the digits of an integer or than
    the number of containers the decoder may enter. *)
Theorem malformed_file_blocks_every_command (args : Args)
    (stdin : list string) fs (text : string) (e : exn) :
  read_text fs default_path = Ok text →
  loads text = Raise e →
  run_agent args stdin fs = Raise e
  ∧ may_raise py e (S (recursion_room py)) text.
Proof.
  intros Hf Hl. split.
  - unfold AgentAiGenCli.run_agent.
    rewrite load_cases. cbn [storage_path]. by rewrite Hf, Hl.
  - by apply loads_raises.
Qed.

Lemma start_agent fs agent :
  start fs = (Ok tt, agent) →
  agent = mkAgent (_dict agent) default_path
  ∧ wf (_dict agent)
  ∧ unreadable fs default_path = false.
Proof.
  intros (Hp & Hd & Hr)%load_ok. cbn [storage_path] in Hp, Hr.
  destruct agent as [d p]. cbn in *. by subst p.
Qed.

Lemma lookup_across_runs (w : string) (stdin : list string) fs
    (d : dict string) :
  wf d →
  unreadable fs default_path = false →
  run_agent (CmdLookup w) stdin (stored default_path (dumps d) fs)
  = match get w d with
    | None => Ok (["(not found)"], 2%Z, stored default_path (dumps d) fs)
    | Some res => Ok ([res], 0%Z, stored default_path (dumps d) fs)
    end.
Proof.
  intros Hd Hr. unfold AgentAiGenCli.run_agent.
  rewrite (load_saved (mkAgent [] default_path)) by done.
  cbn [mbind result_bind]. unfold lookup. cbn [_dict with_dict]. done.
Qed.

(** A word added by one run is found by the next.  When the initial
    [load] returns, the default path can be written and the word is new
    or [--overwrite] is given, [add] prints [added] and returns 0;
    on the files it leaves, [lookup] of the word prints the definition
    and returns 0, and [lookup] of any other word prints and returns
    what it did before. *)
Theorem add_then_lookup_across_runs (w d : string) (ov : bool)
    (stdin stdin' : list string) fs agent :
  start fs = (Ok tt, agent) →
  writable fs default_path = true →
  lookup w agent = None ∨ ov = true →
  ∃ fs',
    run_agent (CmdAdd w d ov) stdin fs = Ok (["added"], 0%Z, fs')
    ∧ run_agent (CmdLookup w) stdin' fs' = Ok ([d], 0%Z, fs')
    ∧ ∀ w', w' ≠ w →
        ∃ out code,
          run_agent (CmdLookup w') stdin' fs = Ok (out, code, fs)
          ∧ run_agent (CmdLookup w') stdin' fs' = Ok (out, code, fs').
Proof.
  intros Hstart Hw Hnew.
  destruct (start_agent fs agent Hstart) as (Hagent & Hd & Hr).
  exists (stored default_path (dumps (set w d (_dict agent))) fs).
  assert (Hset : wf (set w d (_dict agent))) by by apply wf_set.
  split_and!.
  - unfold AgentAiGenCli.run_agent. rewrite Hstart.
    cbn [mbind result_bind]. unfold add.
    replace (contains w (_dict agent) && negb ov) with false.
    + cbn [negb]. unfold save, write_text, with_dict. rewrite Hagent.
      cbn [storage_path _dict]. by rewrite Hw.
    + destruct Hnew as [Hn| ->]; [|by rewrite andb_false_r].
      unfold contains, lookup in *. by rewrite Hn.
  - rewrite lookup_across_runs by done. by rewrite get_set, decide_True.
  - intros w' Hne. rewrite lookup_across_runs by done.
    rewrite get_set, decide_False by done.
    unfold AgentAiGenCli.run_agent. rewrite Hstart.
    cbn [mbind result_bind]. unfold lookup.
    destruct (get w' (_dict agent)); by eexists _, _.
Qed.

(** A word removed by one run is not found by the next.  When the
    initial [load] returns, the default path can be written and the
    word is a key, [remove] prints [removed] and returns 0; on the
    files it leaves, [lookup] of the word prints [(not found)] and
    returns 2, and [lookup] of any other word prints and returns what it
    did before. *)
Theorem remove_then_lookup_across_runs (w : string)
    (stdin stdin' : list string) fs agent :
  start fs = (Ok tt, agent) →
  writable fs default_path = true →
  lookup w agent ≠ None →
  ∃ fs',
    run_agent (CmdRemove w) stdin fs = Ok (["removed"], 0%Z, fs')
    ∧ run_agent (CmdLookup w) stdin' fs' = Ok (["(not found)"], 2%Z, fs')
    ∧ ∀ w', w' ≠ w →
        ∃ out code,
          run_agent (CmdLookup w') stdin' fs = Ok (out, code, fs)
          ∧ run_agent (CmdLookup w') stdin' fs' = Ok (out, code, fs').
Proof.
  intros Hstart Hw Hkey.
  destruct (start_agent fs agent Hstart) as (Hagent & Hd & Hr).
  exists (stored default_path (dumps (del w (_dict agent))) fs).
  assert (Hdel : wf (del w (_dict agent))) by by apply wf_del.
  split_and!.
  - unfold AgentAiGenCli.run_agent. rewrite Hstart.
    cbn [mbind result_bind]. unfold remove. unfold lookup in Hkey.
    destruct (get w (_dict agent)); [|done].
    cbn [negb]. unfold save, write_text, with_dict. rewrite Hagent.
    cbn [storage_path _dict]. by rewrite Hw.
  - rewrite lookup_across_runs by done. by rewrite get_del, decide_True.
  - intros w' Hne. rewrite lookup_across_runs by done.
    rewrite get_del, decide_False by done.
    unfold AgentAiGenCli.run_agent. rewrite Hstart.
    cbn [mbind result_bind]. unfold lookup.
    destruct (get w' (_dict agent)); by eexists _, _.
Qed.

(** [save --path p] copies the dictionary: when the initial [load]
    returns, [p] is not empty and [p] can be written and read, the run
    prints [saved to p], returns 0 and leaves at [p] a file from which
    [load] rebuilds the mapping stored at the default path. *)
Theorem save_path_copies (p : string) (stdin : list string) fs agent :
  start fs = (Ok tt, agent) →
  p ≠ EmptyString →
  writable fs p = true →
  unreadable fs p = false →
  ∃ fs',
    run_agent (CmdSave (Some p)) stdin fs = Ok (["saved to " ++ p], 0%Z, fs')
    ∧ load py (mkAgent [] p) fs' = (Ok tt, mkAgent (_dict agent) p).
Proof.
  intros Hstart Hp Hw Hrp.
  destruct (start_agent fs agent Hstart) as (Hagent & Hd & Hr).
  assert (Ht : Str.truthy p = true) by by destruct p.
  exists (stored p (dumps (_dict agent)) fs).
  split.
  - unfold AgentAiGenCli.run_agent. rewrite Hstart.
    cbn [mbind result_bind]. unfold with_path. rewrite Ht.
    unfold save, write_text. cbn [storage_path _dict]. by rewrite Hw.
  - by rewrite (load_saved (mkAgent [] p)).
Qed.

Lemma interact_after_exit (line : string) (after : list string)
    (before : list string) :
  Str.truthy (Text.strip line) = true →
  String.eqb (lower (Text.strip line)) "exit"
  || String.eqb (lower (Text.strip line)) "quit" = true →
  ∀ agent fs out,
    interact (before ++ line :: after) agent fs out
    = interact (before ++ [line]) agent fs out.
Proof.
  intros Ht Hx. induction before as [|l before IH]; intros agent fs out.
  - cbn [app AgentAiGenCli.interact]. by rewrite Ht, Hx.
  - cbn [app AgentAiGenCli.interact].
    destruct (negb (Str.truthy (Text.strip l))); [by apply IH|].
    destruct (String.eqb (lower (Text.strip l)) "exit" || _); [done|].
    destruct (String.eqb (lower (Text.strip l)) "help"); [by apply IH|].
    destruct (command (Text.strip l) agent fs) as [[[printed a] fs1]| |];
      [|done..].
    cbn [mbind result_bind]. apply IH.
Qed.

(** The loop ends at the first line that reads [exit] or [quit] once
    stripped and lower-cased: whatever is typed after it changes
    neither the lines printed, nor the value returned, nor the
    files. *)
Theorem lines_after_exit_ignored (before after : list string)
    (line : string) fs :
  Str.truthy (Text.strip line) = true →
  lower (Text.strip line) = "exit" ∨ lower (Text.strip line) = "quit" →
  run_agent NoCommand (before ++ line :: after) fs
  = run_agent NoCommand (before ++ [line]) fs.
Proof.
  intros Ht Hx. unfold AgentAiGenCli.run_agent.
  destruct (start fs) as [[[]| |] agent]; [|done..].
  cbn [mbind result_bind].
  apply interact_after_exit; [done|].
  destruct Hx as [-> | ->]; done.
Qed.

Lemma command_without_save (raw : string) agent fs printed agent' fs' :
  (∀ cmd rest, Text.split 2 raw = cmd :: rest → lower cmd ≠ "save") →
  command raw agent fs = Ok (printed, agent', fs') → fs' = fs.
Proof.
  intros Hns. unfold AgentAiGenCli.command.
  destruct (Text.split 2 raw) as [|part0 parts]; [done|].
  specialize (Hns part0 parts eq_refl).
  set (arg1 := nth 1 (part0 :: parts) EmptyString).
  set (arg2 := nth 2 (part0 :: parts) EmptyString).
  destruct (String.eqb (lower part0) "list"); [by intros [= _ _ <-]|].
  destruct (String.eqb (lower part0) "lookup" && _).
  { by destruct (lookup arg1 agent); intros [= _ _ <-]. }
  destruct (String.eqb (lower part0) "add" && _).
  { destruct (add arg1 arg2 false agent) as [added a]. by intros [= _ _ <-]. }
  destruct (String.eqb (lower part0) "remove" && _).
  { destruct (remove arg1 agent) as [removed a]. by intros [= _ _ <-]. }
  destruct (String.eqb_spec (lower part0) "save"); [done|].
  destruct (String.eqb (lower part0) "load"); [|by intros [= _ _ <-]].
  destruct (load py agent fs) as [[[]| |] a]; [|done..].
  by intros [= _ _ <-].
Qed.

Lemma interact_without_save (stdin : list string) :
  (∀ line cmd rest,
     line ∈ stdin → Text.split 2 (Text.strip line) = cmd :: rest →
     lower cmd ≠ "save") →
  ∀ agent fs out out' code fs',
    interact stdin agent fs out = Ok (out', code, fs') → fs' = fs.
Proof.
  induction stdin as [|line stdin IH]; intros Hns agent fs out out' code fs';
    cbn [AgentAiGenCli.interact].
  - by intros [= _ _ <-].
  - assert (Hrest : ∀ line cmd rest,
              line ∈ stdin → Text.split 2 (Text.strip line) = cmd :: rest →
              lower cmd ≠ "save").
    { intros l cmd rest Hin. apply Hns. by right. }
    destruct (negb (Str.truthy (Text.strip line))); [by apply IH|].
    destruct (_ || _); [by intros [= _ _ <-]|].
    destruct (String.eqb (lower (Text.strip line)) "help"); [by apply IH|].
    destruct (command (Text.strip line) agent fs) as [[[printed a] fs1]| |]
      eqn:E; [|done..].
    apply command_without_save in E as ->.
    + cbn [mbind result_bind]. by apply IH.
    + intros cmd rest. apply Hns. by left.
Qed.

(** What is typed in the interactive loop is lost unless [save] is
    typed too: when no line has [save] as its first word, the loop
    returns 0 and leaves every file as it was, whatever was added or
    removed. *)
Theorem unsaved_session_changes_nothing (stdin : list string) fs
    (out : list string) (code : Z) fs' :
  (∀ line cmd rest,
     line ∈ stdin → Text.split 2 (Text.strip line) = cmd :: rest →
     lower cmd ≠ "save") →
  run_agent NoCommand stdin fs = Ok (out, code, fs') →
  code = 0%Z ∧ fs' = fs.
Proof.
  intros Hns H. unfold AgentAiGenCli.run_agent in H.
  destruct (start fs) as [[[]| |] agent] eqn:E; [|done..].
  cbn [mbind result_bind] in H. apply load_ok in E as (_ & Hd & _). split.
  - by apply interact_ok in H as [-> _].
  - by eapply interact_without_save.
Qed.

End CliFacts.

Section CliExamples.
Import PyDict Json JsonSpec AgentAiGen AgentAiGenCli.

Local Abbreviation py0 := (mkInterpreter 4300 990 (λ _, EmptyString)).
Local Abbreviation run := (run_agent Str.lower py0 "dictionary.json").
Local Abbreviation disk files := (mkFS files (λ _, false) (λ _, true)).

Lemma run_agent_file_effects_witness :
  let fs :=
    disk {[ "notes.txt" := Some "keep";
            "dictionary.json" := Some "{}" ]} in
  let fs' :=
    disk (<["copy.json" := Some "{}"]>
            {[ "notes.txt" := Some "keep";
               "dictionary.json" := Some "{}" ]}) in
  files fs' !! "notes.txt" = files fs !! "notes.txt"
  ∧ files fs' !! "dictionary.json" = files fs !! "dictionary.json".
Proof.
  intros fs fs'.
  pose proof (run_agent_file_effects Str.lower py0 "dictionary.json"
                (CmdSave (Some "copy.json")) [] fs
                ["saved to copy.json"] 0%Z fs') as H.
  split; apply H; try (vm_compute; reflexivity); intros [=].
Defined.

Lemma run_agent_file_stays_loadable_witness :
  let fs := disk ∅ in
  let fs' := disk (<["dictionary.json" := Some (dumps [("heap", "a tree")])]> ∅) in
  ∃ agent', load py0 (mkAgent [] "dictionary.json") fs' = (Ok tt, agent').
Proof.
  intros fs fs'.
  apply (run_agent_file_stays_loadable Str.lower py0
           "dictionary.json" NoCommand
           ["add heap a tree"; "save"; "quit"] fs
           ["Dictionary Agent (interactive). Type 'help' for commands, 'exit' to quit.";
            "added"; "saved to dictionary.json"] 0%Z fs').
  vm_compute. reflexivity.
Defined.

Lemma malformed_file_blocks_every_command_witness :
  run (CmdLoad (Some "other.json")) []
    (disk {[ "dictionary.json" := Some "{" ]})
  = Raise JSONDecodeError
  ∧ may_raise py0 JSONDecodeError 991 "{".
Proof.
  apply (malformed_file_blocks_every_command Str.lower py0
           "dictionary.json" (CmdLoad (Some "other.json")) []
           (disk {[ "dictionary.json" := Some "{" ]})
           "{" JSONDecodeError).
  - reflexivity.
  - vm_compute. reflexivity.
Defined.

Lemma add_then_lookup_across_runs_witness :
  ∃ fs',
    run (CmdAdd "heap" "a tree" false) [] (disk ∅) = Ok (["added"], 0%Z, fs')
    ∧ run (CmdLookup "heap") [] fs' = Ok (["a tree"], 0%Z, fs').
Proof.
  destruct (add_then_lookup_across_runs Str.lower py0
              "dictionary.json" "heap" "a tree" false [] []
              (disk ∅) (mkAgent [] "dictionary.json"))
    as (fs' & Hadd & Hlookup & _).
  - reflexivity.
  - reflexivity.
  - left. reflexivity.
  - exists fs'. split; [exact Hadd | exact Hlookup].
Defined.

Lemma remove_then_lookup_across_runs_witness :
  let fs :=
    disk {[ "dictionary.json"
            := Some (dumps [("heap", "a tree"); ("map", "m")]) ]} in
  ∃ fs',
    run (CmdRemove "heap") [] fs = Ok (["removed"], 0%Z, fs')
    ∧ run (CmdLookup "heap") [] fs' = Ok (["(not found)"], 2%Z, fs').
Proof.
  intros fs.
  destruct (remove_then_lookup_across_runs Str.lower py0
              "dictionary.json" "heap" [] [] fs
              (mkAgent [("heap", "a tree"); ("map", "m")] "dictionary.json"))
    as (fs' & Hremove & Hlookup & _).
  - vm_compute. reflexivity.
  - reflexivity.
  - intros [=].
  - exists fs'. split; [exact Hremove | exact Hlookup].
Defined.

Lemma save_path_copies_witness :
  let fs :=
    disk {[ "dictionary.json" := Some (dumps [("heap", "a tree")]) ]} in
  ∃ fs',
    run (CmdSave (Some "copy.json")) [] fs
    = Ok (["saved to copy.json"], 0%Z, fs')
    ∧ load py0 (mkAgent [] "copy.json") fs'
      = (Ok tt, mkAgent [("heap", "a tree")] "copy.json").
Proof.
  intros fs.
  apply (save_path_copies Str.lower py0 "dictionary.json"
           "copy.json" [] fs (mkAgent [("heap", "a tree")] "dictionary.json")).
  - vm_compute. reflexivity.
  - intros [=].
  - reflexivity.
  - reflexivity.
Defined.

Lemma lines_after_exit_ignored_witness :
  let fs := disk ∅ in
  run NoCommand (["add heap a tree"] ++ "  Exit " :: ["save"; "list"]) fs
  = run NoCommand (["add heap a tree"] ++ ["  Exit "]) fs.
Proof.
  intros fs.
  apply (lines_after_exit_ignored Str.lower py0
           "dictionary.json" ["add heap a tree"] ["save"; "list"] "  Exit "
           fs).
  - reflexivity.
  - left. vm_compute. reflexivity.
Defined.

Lemma unsaved_session_changes_nothing_witness :
  let fs := disk ∅ in
  (0 = 0)%Z ∧ fs = fs.
Proof.
  intros fs.
  apply (unsaved_session_changes_nothing Str.lower py0
           "dictionary.json" ["add heap a tree"; "list"] fs
           ["Dictionary Agent (interactive). Type 'help' for commands, 'exit' to quit.";
            "added"; "heap: a tree"; EmptyString] 0%Z fs).
  - intros line cmd rest Hin.
    apply elem_of_cons in Hin as [->|Hin];
      [|apply elem_of_cons in Hin as [->|Hin]];
      [| |by apply elem_of_nil in Hin];
      vm_compute; intros [= <- _] [=].
  - vm_compute. reflexivity.
Defined.

End CliExamples.

(** ** A line of the interactive loop, from the text typed *)

Section InteractiveAdd.
Import PyDict Json AgentAiGen AgentAiGenCli Text.
Variable py : Interpreter.
Variable default_path : string.
Implicit Types (agent : DictionaryAgent) (fs : FileSystem).

Local Abbreviation run_agent := (run_agent Str.lower py default_path).
Local Abbreviation command := (command Str.lower py).
Local Abbreviation start := (load py (mkAgent [] default_path)).

(** A word as [split] sees it: not empty, no space in it. *)
Local Abbreviation is_word w :=
  (w%string ≠ EmptyString
   ∧ Forall (λ c, is_space c = false) (list_ascii_of_string w)).

Lemma lstrip_rstrip (s : string) : lstrip (rstrip s) = rstrip (lstrip s).
Proof.
  induction s as [|c s IH]; [done|].
  cbn [lstrip rstrip]. destruct (is_space c) eqn:E.
  - rewrite <-IH. destruct (rstrip s) as [|c' r]; [done|].
    cbn [lstrip]. by rewrite E.
  - cbn [rstrip]. rewrite E.
    destruct (rstrip s) as [|c' r]; cbn [lstrip]; by rewrite E.
Qed.

Lemma rstrip_app (s d : string) :
  rstrip d ≠ EmptyString → rstrip (s ++ d) = s ++ rstrip d.
Proof.
  intros Hd. induction s as [|c s IH]; [done|].
  rewrite !append_cons. cbn [rstrip]. rewrite IH.
  destruct (s ++ rstrip d) as [|c' r] eqn:E; [|done].
  destruct s; [by rewrite append_nil_l in E|].
  rewrite append_cons in E. discriminate.
Qed.

Lemma lstrip_word (w r : string) :
  is_word w → lstrip (w ++ r) = w ++ r.
Proof.
  intros [Hne Hw]. destruct w as [|c w]; [done|].
  apply Forall_cons in Hw as [Hc _]. rewrite append_cons. cbn [lstrip].
  by rewrite Hc.
Qed.

Lemma span_word_app (w : string) (c : ascii) (r : string) :
  Forall (λ c, is_space c = false) (list_ascii_of_string w) →
  is_space c = true →
  span_word (w ++ String c r) = (w, String c r).
Proof.
  intros Hw Hc. induction w as [|a w IH].
  - rewrite append_nil_l. cbn [span_word]. by rewrite Hc.
  - apply Forall_cons in Hw as [Ha Hw]. rewrite append_cons.
    cbn [span_word]. rewrite Ha, IH by done. done.
Qed.

(** [split] on a command word, an argument and the rest of the line:
    the rest is kept whole, less the spaces before it. *)
Lemma split_three (cmd w d : string) :
  is_word cmd → is_word w → lstrip d ≠ EmptyString →
  split 2 (cmd ++ " " ++ w ++ " " ++ d) = [cmd; w; lstrip d].
Proof.
  intros Hcmd Hw Hd.
  change (cmd ++ " " ++ w ++ " " ++ d)
    with (cmd ++ String " " (w ++ String " " d)).
  cbn [split]. rewrite lstrip_word by done.
  destruct (cmd ++ String " " (w ++ String " " d)) as [|c0 r0] eqn:E0.
  { destruct cmd; [by destruct Hcmd | by rewrite append_cons in E0]. }
  rewrite <-E0. rewrite span_word_app; [|by destruct Hcmd | done].
  change (lstrip (String " " (w ++ String " " d)))
    with (lstrip (w ++ String " " d)).
  rewrite lstrip_word by done.
  destruct (w ++ String " " d) as [|c1 r1] eqn:E1.
  { destruct w; [by destruct Hw | by rewrite append_cons in E1]. }
  rewrite <-E1. rewrite span_word_app; [|by destruct Hw | done].
  change (lstrip (String " " d)) with (lstrip d).
  by destruct (lstrip d).
Qed.

Lemma strip_line (w d : string) :
  Str.truthy (strip d) = true →
  strip ("add " ++ w ++ " " ++ d) = "add " ++ w ++ " " ++ rstrip d
  ∧ lstrip (rstrip d) = strip d.
Proof.
  intros Ht. assert (Hc : lstrip (rstrip d) = strip d) by apply lstrip_rstrip.
  split; [|done]. unfold strip at 1.
  change (lstrip ("add " ++ w ++ " " ++ d)) with ("add " ++ w ++ " " ++ d).
  assert (Hr : rstrip d ≠ EmptyString).
  { intros Hr. rewrite Hr in Hc. rewrite <-Hc in Ht. done. }
  rewrite <-!append_assoc. by apply rstrip_app.
Qed.

Lemma command_add (raw w d : string) agent fs :
  split 2 raw = ["add"; w; d] →
  command raw agent fs
  = let '(added, agent') := add w d false agent in
    Ok ([if added then "added" else "exists (use overwrite)"], agent', fs).
Proof. unfold AgentAiGenCli.command. intros ->. reflexivity. Qed.

Lemma interact_step (line : string) (stdin : list string) agent fs
    (out printed : list string) agent' fs' :
  Str.truthy (strip line) = true →
  String.eqb (Str.lower (strip line)) "exit"
  || String.eqb (Str.lower (strip line)) "quit" = false →
  String.eqb (Str.lower (strip line)) "help" = false →
  command (strip line) agent fs = Ok (printed, agent', fs') →
  interact Str.lower py (line :: stdin) agent fs out
  = interact Str.lower py stdin agent' fs' (out ++ printed)%list.
Proof.
  intros Ht Hx Hh Hc. cbn [AgentAiGenCli.interact].
  by rewrite Ht, Hx, Hh, Hc.
Qed.

(** A word typed in the loop and saved is found by the next run, and
    its definition is the rest of the line, spaces inside it kept and
    spaces around it dropped.  When the initial [load] returns, the
    default path can be written, the word is new and has no space, and
    the definition is not blank, typing [add <word> <definition>] and
    [save] prints [added] and [saved to <path>] and returns 0; on the
    files it leaves, [lookup] of the word prints the stripped
    definition and returns 0. *)
Theorem interactive_add_then_lookup (w d : string) (stdin' : list string)
    fs agent :
  start fs = (Ok tt, agent) →
  writable fs default_path = true →
  lookup w agent = None →
  is_word w →
  Str.truthy (strip d) = true →
  ∃ fs',
    run_agent NoCommand ["add " ++ w ++ " " ++ d; "save"] fs
    = Ok (["Dictionary Agent (interactive). Type 'help' for commands, 'exit' to quit.";
           "added"; "saved to " ++ default_path; EmptyString], 0%Z, fs')
    ∧ run_agent (CmdLookup w) stdin' fs' = Ok ([strip d], 0%Z, fs').
Proof.
  intros Hstart Hwr Hnew Hw Hd.
  destruct (start_agent py default_path fs agent Hstart)
    as (Hagent & Hwf & Hr).
  destruct (strip_line w d Hd) as [Hline Hdef].
  assert (Hparts : split 2 (strip ("add " ++ w ++ " " ++ d))
                   = ["add"; w; strip d]).
  { rewrite Hline, <-Hdef. apply (split_three "add" w (rstrip d)); [|done|].
    - split; [done | by repeat constructor].
    - rewrite Hdef. by destruct (strip d). }
  set (d' := set w (strip d) (_dict agent)).
  exists (mkFS (<[default_path := Some (dumps d')]> (files fs))
            (unreadable fs) (writable fs)).
  split.
  - unfold AgentAiGenCli.run_agent. rewrite Hstart.
    cbn [mbind result_bind].
    rewrite (interact_step _ _ _ _ _ ["added"] (with_dict agent d') fs).
    + rewrite (interact_step _ _ _ _ _ ["saved to " ++ default_path]
                 (with_dict agent d')
                 (mkFS (<[default_path := Some (dumps d')]> (files fs))
                    (unreadable fs) (writable fs))); [done..|].
      unfold AgentAiGenCli.command.
      change (split 2 (strip "save")) with ["save"].
      change (Str.lower "save") with "save".
      cbn [String.eqb Ascii.eqb Bool.eqb orb andb].
      unfold save, write_text, with_dict. rewrite Hagent.
      cbn [storage_path _dict]. by rewrite Hwr.
    + by rewrite Hline.
    + by rewrite Hline.
    + by rewrite Hline.
    + rewrite (command_add _ w (strip d)) by done.
      unfold add, contains. unfold lookup in Hnew. by rewrite Hnew.
  - rewrite (lookup_across_runs Str.lower) by (done || by apply wf_set).
    subst d'. by rewrite get_set, decide_True.
Qed.

End InteractiveAdd.

Section InteractiveExamples.
Import PyDict Json AgentAiGen AgentAiGenCli.

Local Abbreviation py0 := (mkInterpreter 4300 990 (λ _, EmptyString)).
Local Abbreviation run := (run_agent Str.lower py0 "dictionary.json").
Local Abbreviation disk files := (mkFS files (λ _, false) (λ _, true)).

Lemma interactive_add_then_lookup_witness :
  ∃ fs',
    run NoCommand ["add heap   a tree of keys  "; "save"] (disk ∅)
    = Ok (["Dictionary Agent (interactive). Type 'help' for commands, 'exit' to quit.";
           "added"; "saved to dictionary.json"; EmptyString], 0%Z, fs')
    ∧ run (CmdLookup "heap") [] fs' = Ok (["a tree of keys"], 0%Z, fs').
Proof.
  apply (interactive_add_then_lookup py0 "dictionary.json"
           "heap" "  a tree of keys  " [] (disk ∅)
           (mkAgent [] "dictionary.json")).
  - reflexivity.
  - reflexivity.
  - reflexivity.
  - split; [done | by repeat constructor].
  - reflexivity.
Defined.

End InteractiveExamples.

(** ** What the matching blocks have in common *)

Section SubsequenceFacts.
Import Difflib DifflibSpec MatcherSpec.
Variables a b : list ascii.
Variable b2j : gmap ascii (list nat).
Hypothesis Hb2j : b2j_sound b b2j.

(** The common subsequence a window can contribute. *)
Local Abbreviation region_subseq :=
  (λ (r : region) (k : nat),
     common_subseq (slice a r.1.1.1 r.1.1.2) (slice b r.1.2 r.2) k).

Lemma common_subseq_nil (x y : list ascii) : common_subseq x y 0.
Proof. exists []. split_and!; [apply sublist_nil_l.. | done]. Qed.

(** A block and what the windows left and right of it contribute make
    up a common subsequence of the window. *)
Lemma block_subseq alo ahi blo bhi i j k kl kr :
  region_ok (alo, ahi, blo, bhi) →
  find_longest_match a b b2j alo ahi blo bhi = (i, j, k) →
  region_subseq (alo, i, blo, j) kl →
  region_subseq ((i + k)%nat, ahi, (j + k)%nat, bhi) kr →
  region_subseq (alo, ahi, blo, bhi) (kl + k + kr).
Proof.
  intros [Ha Hb] Hf (sl & Hla & Hlb & Hl) (sr & Hra & Hrb & Hr).
  simpl in *.
  pose proof (find_longest_match_within a b b2j Hb2j alo ahi blo bhi Ha Hb)
    as [Hw Hc].
  rewrite Hf in Hw, Hc. simpl in Hw, Hc.
  destruct (common_slice a b i j k Hc) as [Heq Hlen].
  exists (sl ++ slice a i (i + k) ++ sr)%list. split_and!.
  - rewrite (slice_split a alo i k ahi) by lia.
    by repeat apply sublist_app.
  - rewrite (slice_split b blo j k bhi) by lia. rewrite <-Heq.
    by repeat apply sublist_app.
  - rewrite !length_app. lia.
Qed.

Lemma pushed_subseq (cond : bool) (r : region) (queue : list region)
    (ks : list nat) :
  Forall2 region_subseq (if cond then r :: queue else queue) ks →
  ∃ k ks', Forall2 region_subseq queue ks'
           ∧ region_subseq r k
           ∧ sum_list ks = (k + sum_list ks')%nat.
Proof.
  destruct cond.
  - intros (k & ks' & Hk & Hks & ->)%Forall2_cons_inv_l. by exists k, ks'.
  - intros Hks. exists 0%nat, ks. split_and!; [done | | done].
    apply common_subseq_nil.
Qed.

Lemma blocks_loop_subseq rounds queue acc :
  Forall region_ok queue →
  ∃ ks, Forall2 region_subseq queue ks
        ∧ sum_list_with block_size (blocks_loop a b b2j rounds queue acc)
          = (sum_list_with block_size acc + sum_list ks)%nat.
Proof.
  revert queue acc.
  assert (Hzero : ∀ queue : list region,
            ∃ ks, Forall2 region_subseq queue ks ∧ sum_list ks = 0%nat).
  { induction queue as [|r queue (ks & Hks & Hs)]; [by exists []|].
    exists (0%nat :: ks). split; [|done].
    constructor; [apply common_subseq_nil | done]. }
  induction rounds as [|n IH]; intros queue acc Hq.
  { destruct (Hzero queue) as (ks & Hks & Hs). exists ks.
    split; [done|]. simpl. lia. }
  destruct queue as [|[[[alo ahi] blo] bhi] queue].
  { exists []. split; [done|]. simpl. lia. }
  apply Forall_cons in Hq as [Hr Hq]. cbn [blocks_loop].
  destruct (find_longest_match a b b2j alo ahi blo bhi) as [[i j] k] eqn:Hf.
  destruct (block_capacity a b b2j Hb2j _ _ _ _ _ _ _ Hr Hf) as [Hw _].
  destruct (Nat.ltb_spec 0 k) as [Hk|Hk].
  - set (q1 := if (alo <? i)%nat && (blo <? j)%nat
               then (alo, i, blo, j) :: queue else queue).
    set (q2 := if (i + k <? ahi)%nat && (j + k <? bhi)%nat
               then (i + k, ahi, j + k, bhi)%nat :: q1 else q1).
    assert (Hq1 : Forall region_ok q1).
    { subst q1. destruct ((alo <? i)%nat && (blo <? j)%nat); [|done].
      apply Forall_cons. split; [|done]. unfold region_ok; simpl; lia. }
    assert (Hq2 : Forall region_ok q2).
    { subst q2. destruct ((i + k <? ahi)%nat && (j + k <? bhi)%nat); [|done].
      apply Forall_cons. split; [|done]. unfold region_ok; simpl; lia. }
    destruct (IH q2 (acc ++ [(i, j, k)])%list Hq2) as (ks2 & Hks2 & Hs2).
    apply pushed_subseq in Hks2 as (kr & ks1 & Hks1 & Hkr & Hsum2).
    apply pushed_subseq in Hks1 as (kl & ks & Hks & Hkl & Hsum1).
    exists ((kl + k + kr)%nat :: ks). split.
    + constructor; [|done]. by apply (block_subseq alo ahi blo bhi i j k).
    + rewrite Hs2, sum_list_with_app, Hsum2, Hsum1. simpl. lia.
  - destruct (IH queue acc Hq) as (ks & Hks & Hs).
    exists (0%nat :: ks). split; [|by rewrite Hs].
    constructor; [apply common_subseq_nil | done].
Qed.

(** The blocks of [get_matching_blocks] add up to the length of a
    common subsequence of the two sequences. *)
Lemma matches_common_subseq : common_subseq a b (matches a b b2j).
Proof.
  unfold matches, get_matching_blocks.
  rewrite sum_list_with_app, collapse_sum, merge_sort_Permutation.
  change (sum_list_with block_size [(length a, length b, 0%nat)])
    with 0%nat.
  rewrite Nat.add_0_l, Nat.add_0_r.
  destruct (blocks_loop_subseq
              (rounds_of [(0, length a, 0, length b)%nat])
              [(0, length a, 0, length b)%nat] [])
    as (ks & Hks & ->).
  { apply Forall_singleton. unfold region_ok; simpl; lia. }
  apply Forall2_cons_inv_l in Hks as (k & ks' & Hk & Hnil & ->).
  apply Forall2_nil_inv_l in Hnil as ->.
  simpl in Hk. rewrite !slice_all in Hk. simpl.
  by rewrite Nat.add_0_r.
Qed.

End SubsequenceFacts.

(** ** A sequence matched against itself *)

Section IndexFacts.
Import Difflib DifflibSpec MatcherSpec.

Lemma elem_of_indices (b : list ascii) (c : ascii) (j : nat) :
  j ∈ indices b c ↔ b !! j = Some c.
Proof.
  unfold indices. rewrite list_elem_of_In, List.filter_In, <-list_elem_of_In.
  rewrite elem_of_seq, bool_decide_eq_true. split; [by intros [_ ?]|].
  intros Hj. split; [|done]. apply lookup_lt_Some in Hj. lia.
Qed.

Lemma StronglySorted_seq (i n : nat) : StronglySorted lt (seq i n).
Proof.
  revert i. induction n as [|n IH]; intros i; simpl; constructor; [done|].
  apply Forall_forall. intros j Hj%elem_of_seq. lia.
Qed.

Lemma indices_sorted (b : list ascii) (c : ascii) :
  StronglySorted lt (indices b c).
Proof. apply filter_StronglySorted_list, StronglySorted_seq. Qed.

Lemma indices_snoc (b : list ascii) (x c : ascii) :
  indices (b ++ [x]) c
  = (indices b c ++ if decide (x = c) then [length b] else [])%list.
Proof.
  unfold indices. rewrite length_app. simpl length.
  rewrite seq_app, List.filter_app. simpl. f_equal.
  - apply List.filter_ext_in. intros j Hj%list_elem_of_In%elem_of_seq.
    by rewrite lookup_app_l by lia.
  - rewrite list_lookup_middle by done.
    case_decide as Hx.
    + subst. by rewrite bool_decide_eq_true_2.
    + rewrite bool_decide_eq_false_2; [done|]. by intros [= ?].
Qed.

Lemma chain_b_full (b : list ascii) : b2j_full b (chain_b b).
Proof.
  assert (Hfold : ∀ c,
    default []
      (foldl (λ (m : gmap ascii (list nat)) (ie : nat * ascii),
                <[ie.2 := (default [] (m !! ie.2) ++ [ie.1])%list]> m)
             ∅ (imap pair b) !! c)
    = indices b c).
  { induction b as [|x b IH] using rev_ind; intros c.
    - simpl. by rewrite lookup_empty.
    - rewrite imap_app, foldl_app. simpl. rewrite Nat.add_0_r.
      set (m := foldl _ _ _) in *. rewrite indices_snoc.
      case_decide as Hx.
      + subst c. rewrite lookup_insert_eq. simpl. by rewrite IH.
      + rewrite lookup_insert_ne by done. by rewrite app_nil_r. }
  intros c js Hjs. rewrite <-Hfold. unfold chain_b in Hjs.
  destruct (200 <=? length b)%nat.
  - apply map_lookup_filter_Some in Hjs as [-> _]. done.
  - by rewrite Hjs.
Qed.

End IndexFacts.

Section SelfMatch.
Import Difflib DifflibSpec MatcherSpec.
Variable a : list ascii.
Variable b2j : gmap ascii (list nat).
Hypothesis Hfull : b2j_full a b2j.

Local Abbreviation n := (length a).
Local Abbreviation run_to := (MatcherSpec.run_to a b2j).
Local Abbreviation run_before := (MatcherSpec.run_before a b2j).
Local Abbreviation present := (MatcherSpec.present a b2j).

Lemma run_to_present (i : nat) :
  present i = true → run_to i = (run_before i + 1)%nat.
Proof. intros H. destruct i as [|i]; simpl; rewrite H; simpl; lia. Qed.

Lemma run_to_absent (i : nat) : present i = false → run_to i = 0%nat.
Proof. intros H. destruct i as [|i]; simpl; by rewrite H. Qed.

Lemma run_to_le (i : nat) : (run_to i ≤ S i)%nat.
Proof.
  induction i as [|i IH]; simpl.
  - destruct (present 0); lia.
  - destruct (present (S i)); lia.
Qed.

Lemma listed_present (c : ascii) (js : list nat) (j : nat) :
  b2j !! c = Some js → a !! j = Some c → present j = true.
Proof.
  intros Hc Hj. unfold MatcherSpec.present. rewrite Hj.
  apply bool_decide_eq_true_2. by exists js.
Qed.

(** One row of the scan, once the indices before [rest] are done: no
    entry of the row exceeds the run on the diagonal, and the best
    match stays on the diagonal. *)
Lemma scan_row_diag (i : nat) (c : ascii) (js : list nat)
    (j2len : gmap nat nat) (rest : list nat) :
  b2j !! c = Some js →
  a !! i = Some c →
  (∀ j k, j2len !! j = Some k →
          (k ≤ run_to j ∧ k ≤ run_before i)%nat) →
  j2lenget_pred j2len i = run_before i →
  StronglySorted lt rest →
  (∀ j, j ∈ rest → a !! j = Some c) →
  ∀ newj2len best,
    (∀ j k, newj2len !! j = Some k → (k ≤ run_to j ∧ k ≤ run_to i)%nat) →
    (i ∈ rest
     ∨ newj2len !! i = Some (run_to i) ∧ (run_to i ≤ block_size best)%nat) →
    best.1.1 = best.1.2 →
    (best.1.1 + block_size best ≤ i + 1)%nat →
    (∀ r, (r < i)%nat → (run_to r ≤ block_size best)%nat) →
    let res := scan_row 0 n i j2len rest newj2len best in
    (∀ j k, res.1 !! j = Some k → (k ≤ run_to j ∧ k ≤ run_to i)%nat)
    ∧ res.1 !! i = Some (run_to i)
    ∧ res.2.1.1 = res.2.1.2
    ∧ (res.2.1.1 + block_size res.2 ≤ i + 1)%nat
    ∧ (∀ r, (r ≤ i)%nat → (run_to r ≤ block_size res.2)%nat).
Proof.
  intros Hc Hi Hold Hprev.
  pose proof (listed_present c js i Hc Hi) as Hpi.
  pose proof (run_to_present i Hpi) as Hri.
  induction rest as [|j rest IH];
    intros Hsorted Hrest newj2len best Hnew Hdone Hdiag Hbound Hbest.
  - cbn [scan_row]. destruct Hdone as [?%elem_of_nil|[Hd1 Hd2]]; [done|].
    split_and!; [done..|]. intros r Hr.
    destruct (decide (r = i)) as [->|]; [done|]. apply Hbest. lia.
  - cbn [scan_row]. apply StronglySorted_inv in Hsorted as [Hsorted Hlt].
    assert (Hj : a !! j = Some c) by (apply Hrest; left).
    pose proof (lookup_lt_Some _ _ _ Hj) as Hjn.
    pose proof (run_to_present j (listed_present c js j Hc Hj)) as Hrj.
    change (j <? 0)%nat with false. cbv iota.
    rewrite (proj2 (Nat.leb_gt n j)) by done.
    set (k := (j2lenget_pred j2len j + 1)%nat).
    assert (Hk : (k ≤ run_to j ∧ k ≤ run_to i)%nat).
    { subst k. destruct j as [|j']; simpl j2lenget_pred.
      - rewrite Hrj, Hri. lia.
      - destruct (j2len !! j') as [k'|] eqn:E; simpl default.
        + destruct (Hold j' k' E). rewrite Hrj, Hri. simpl. lia.
        + rewrite Hrj, Hri. lia. }
    assert (Hoff : j ≠ i → (block_size best <? k)%nat = false).
    { intros Hne. apply Nat.ltb_ge.
      destruct (decide (j < i)%nat) as [Hlt'|Hge].
      - specialize (Hbest j Hlt'). lia.
      - destruct Hdone as [Hin|[_ Hd2]]; [|lia].
        apply elem_of_cons in Hin as [?|Hin]; [congruence|].
        apply (proj1 (Forall_forall _ _) Hlt) in Hin. lia. }
    destruct (decide (j = i)) as [->|Hne].
    + assert (k = run_to i) as -> by (subst k; rewrite Hprev; lia).
      pose proof (run_to_le i) as Hle.
      apply IH; [done | by intros j' ?; apply Hrest; right | ..].
      * intros j0 k0. destruct (decide (j0 = i)) as [->|Hne].
        -- rewrite lookup_insert_eq. by intros [= <-].
        -- rewrite lookup_insert_ne by done. apply Hnew.
      * right. rewrite lookup_insert_eq. split; [done|].
        destruct (Nat.ltb_spec (block_size best) (run_to i)); [done | lia].
      * by destruct (Nat.ltb_spec (block_size best) (run_to i)).
      * destruct (Nat.ltb_spec (block_size best) (run_to i)); [|done].
        unfold block_size. simpl. lia.
      * intros r Hr. specialize (Hbest r Hr).
        destruct (Nat.ltb_spec (block_size best) (run_to i)); [|done].
        unfold block_size in *. simpl. lia.
    + rewrite (Hoff Hne).
      apply IH; [done | by intros j' ?; apply Hrest; right | ..]; try done.
      * intros j0 k0. destruct (decide (j0 = j)) as [->|Hne'].
        -- rewrite lookup_insert_eq. by intros [= <-].
        -- rewrite lookup_insert_ne by done. apply Hnew.
      * rewrite lookup_insert_ne by done.
        destruct Hdone as [Hin|Hd]; [|by right].
        left. apply elem_of_cons in Hin as [?|?]; [congruence | done].
Qed.

(** The scan of all rows leaves a match on the diagonal. *)
Lemma scan_rows_diag (m : nat) :
  ∀ (i : nat) (j2len : gmap nat nat) (best : Match),
    (i + m ≤ n)%nat →
    (∀ j k, j2len !! j = Some k →
            (k ≤ run_to j ∧ k ≤ run_before i)%nat) →
    j2lenget_pred j2len i = run_before i →
    best.1.1 = best.1.2 →
    (best.1.1 + block_size best ≤ i)%nat →
    (∀ r, (r < i)%nat → (run_to r ≤ block_size best)%nat) →
    let res := scan_rows a b2j 0 n (seq i m) j2len best in
    res.1.1 = res.1.2 ∧ (res.1.1 + block_size res ≤ i + m)%nat.
Proof.
  induction m as [|m IH]; intros i j2len best Him Hold Hprev Hdiag Hbound Hbest.
  { simpl. split; [done | lia]. }
  cbn [seq scan_rows].
  destruct (a !! i) as [c|] eqn:Hi;
    [|apply lookup_ge_None in Hi; lia].
  destruct (b2j !! c) as [js|] eqn:Hc; cbn [default from_option id].
  - pose proof (Hfull c js Hc) as Hjs.
    destruct (scan_row_diag i c js j2len js Hc Hi Hold Hprev) with
      (newj2len := (∅ : gmap nat nat)) (best := best)
      as (Hnew & Hdone & Hdiag' & Hbound' & Hbest').
    + subst js. apply indices_sorted.
    + intros j. subst js. by rewrite elem_of_indices.
    + intros j k. by rewrite lookup_empty.
    + left. subst js. by apply elem_of_indices.
    + done.
    + lia.
    + done.
    + destruct (scan_row 0 n i j2len js ∅ best) as [new best'].
      cbn [fst snd] in *.
      destruct (IH (S i) new best') as [H1 H2]; try done; try lia.
      * simpl. by rewrite Hdone.
      * intros r Hr. apply Hbest'. lia.
  - cbn [scan_row].
    assert (Hri : run_to i = 0%nat).
    { apply run_to_absent. unfold MatcherSpec.present. rewrite Hi.
      apply bool_decide_eq_false_2. rewrite Hc. by intros [? ?]. }
    destruct (IH (S i) ∅ best) as [H1 H2]; try done; try lia.
    intros r Hr. destruct (decide (r = i)) as [->|]; [lia|].
    apply Hbest. lia.
Qed.

Lemma same_at_diag (i : nat) : (i < n)%nat → same_at a a i i = true.
Proof.
  intros Hi. unfold same_at.
  destruct (lookup_lt_is_Some_2 a i Hi) as [x ->].
  by apply bool_decide_eq_true_2.
Qed.

Lemma extend_left_diag (i k : nat) :
  (i + k ≤ n)%nat →
  extend_left a a false 0 0 i i k = (0, 0, i + k)%nat.
Proof.
  revert k. induction i as [|i IH]; intros k Hik; [done|].
  cbn [extend_left]. rewrite same_at_diag by lia.
  change (junk_at a i) with (match a !! i with
                             | Some y => isbjunk y | None => false end).
  destruct (a !! i); cbn [isbjunk Bool.eqb Nat.ltb Nat.leb andb];
    rewrite IH by lia; f_equal; lia.
Qed.

Lemma extend_right_diag (rounds k : nat) :
  (k + rounds = n)%nat →
  extend_right a a rounds false n n 0 0 k = (0, 0, n)%nat.
Proof.
  revert k. induction rounds as [|rounds IH]; intros k Hk.
  - cbn [extend_right]. repeat f_equal. lia.
  - cbn [extend_right]. rewrite Nat.add_0_l.
    rewrite (proj2 (Nat.ltb_lt k n)) by lia.
    rewrite same_at_diag by lia.
    change (junk_at a k) with (match a !! k with
                               | Some y => isbjunk y | None => false end).
    destruct (a !! k); cbn [isbjunk Bool.eqb andb]; apply IH; lia.
Qed.

(** Matched against itself, a sequence is one block. *)
Lemma find_longest_match_self :
  find_longest_match a a b2j 0 n 0 n = (0, 0, n)%nat.
Proof.
  unfold find_longest_match. rewrite Nat.sub_0_r.
  destruct (scan_rows_diag n 0 ∅ (0, 0, 0)%nat) as [Hd Hb];
    try done; try lia.
  destruct (scan_rows a b2j 0 n (seq 0 n) ∅ (0, 0, 0)%nat) as [[i j] k].
  unfold block_size in Hb. simpl in Hd, Hb. subst j.
  rewrite extend_left_diag by lia.
  rewrite extend_right_diag by lia.
  cbn [extend_left]. rewrite Nat.add_0_l, Nat.sub_diag. done.
Qed.

Lemma matches_self : matches a a b2j = n.
Proof.
  unfold matches, get_matching_blocks.
  rewrite sum_list_with_app, collapse_sum, merge_sort_Permutation.
  change (sum_list_with block_size [(n, n, 0%nat)]) with 0%nat.
  rewrite Nat.add_0_l, Nat.add_0_r.
  set (rounds := rounds_of _).
  assert (rounds = S (2 * n)) as ->
    by (subst rounds; unfold rounds_of; simpl; lia).
  cbn [blocks_loop]. rewrite find_longest_match_self.
  destruct (Nat.ltb_spec 0 n) as [Hn|Hn].
  - change (0 <? 0)%nat with false. cbn [andb].
    rewrite Nat.add_0_l, Nat.ltb_irrefl. cbn [andb].
    destruct (2 * n)%nat; simpl; unfold block_size; simpl; lia.
  - destruct (2 * n)%nat; simpl; lia.
Qed.

Lemma ratio_self : Qeq (ratio a a b2j) 1.
Proof.
  unfold ratio, _calculate_ratio. rewrite matches_self.
  destruct n as [|m]; [done|].
  change (S m + S m =? 0)%nat with false. cbv iota.
  unfold Qeq. cbn [Qnum Qden].
  change (S m + S m)%nat with (S (m + S m)).
  rewrite <-Pos.of_nat_succ, Zpos_P_of_succ_nat. lia.
Qed.

End SelfMatch.

(** ** What [suggest] does with a word it knows *)

Section SuggestKnown.
Import PyDict Difflib DifflibSpec MatcherSpec.

Lemma score_self (q : string) : Qeq (score q q) 1.
Proof. unfold score. apply ratio_self, chain_b_full. Qed.

Lemma sublist_same_length {A} (s l : list A) :
  s `sublist_of` l → length s = length l → s = l.
Proof.
  induction 1 as [|x s l Hs IH|x s l Hs IH]; simpl; intros Hlen.
  - done.
  - f_equal. apply IH. lia.
  - apply sublist_length in Hs. lia.
Qed.

Lemma list_ascii_inj (x y : string) :
  list_ascii_of_string x = list_ascii_of_string y → x = y.
Proof.
  intros H. rewrite <-(string_of_list_ascii_of_string x),
    <-(string_of_list_ascii_of_string y). by rewrite H.
Qed.

(** What a ratio says about the two words: they have a common
    subsequence that accounts for it. *)
Lemma score_subseq (q x : string) :
  ∃ s, s `sublist_of` list_ascii_of_string x
       ∧ s `sublist_of` list_ascii_of_string q
       ∧ score q x
         = _calculate_ratio (length s)
             (length (list_ascii_of_string x)
              + length (list_ascii_of_string q)).
Proof.
  destruct (matches_common_subseq (list_ascii_of_string x)
              (list_ascii_of_string q) _
              (chain_b_sound (list_ascii_of_string q)))
    as (s & Hx & Hq & Hlen).
  exists s. split_and!; [done..|]. unfold score, ratio. by rewrite Hlen.
Qed.

(** Only the word itself has ratio 1. *)
Lemma score_one (q x : string) : Qeq (score q x) 1 → x = q.
Proof.
  destruct (score_subseq q x) as (s & Hx & Hq & ->).
  pose proof (sublist_length _ _ Hx) as Hlx.
  pose proof (sublist_length _ _ Hq) as Hlq.
  unfold _calculate_ratio.
  destruct (length (list_ascii_of_string x)
            + length (list_ascii_of_string q))%nat as [|m] eqn:E.
  - intros _. destruct x, q; simpl in E; try lia. done.
  - change (S m =? 0)%nat with false. cbv iota.
    unfold Qeq. cbn [Qnum Qden].
    rewrite <-Pos.of_nat_succ, Zpos_P_of_succ_nat. intros H.
    apply list_ascii_inj.
    rewrite <-(sublist_same_length _ _ Hx) by lia.
    apply sublist_same_length; [done | lia].
Qed.

(** Asked for a word that is a key, [suggest] puts that word first,
    whatever the other keys are and however long the word is. *)
Theorem suggest_known_word_first (query : string) (max_results : Z)
    (self : AgentV3.DictionaryAgent) :
  query ∈ keys (AgentV3.data self) →
  (0 < max_results)%Z →
  ∃ others, AgentV3.suggest query max_results self = Ok (query :: others).
Proof.
  intros Hin Hn.
  destruct (get_close_matches_ranked query (keys (AgentV3.data self))
              max_results (Qmake 4 10) Hn) as (ranked & Hs & Hp & Hsorted);
    [done..|].
  unfold AgentV3.suggest. rewrite Hs.
  assert (Hq : query ∈ ranked).
  { rewrite Hp. apply list_elem_of_In, List.filter_In.
    split; [by apply list_elem_of_In|].
    apply Qle_bool_iff. by rewrite score_self. }
  destruct ranked as [|h ranked]; [by apply elem_of_nil in Hq|].
  assert (h = query) as ->.
  { apply elem_of_cons in Hq as [->|Hq]; [done|].
    apply StronglySorted_inv in Hsorted as [_ Hh].
    apply (proj1 (Forall_forall _ _) Hh) in Hq.
    apply scored_le_alt in Hq. cbn [fst snd] in Hq.
    apply score_one.
    pose proof (ratio_range (list_ascii_of_string h)
                  (list_ascii_of_string query) _
                  (chain_b_sound (list_ascii_of_string query))) as [_ Hle].
    fold (score query h) in Hle. rewrite score_self in Hq.
    destruct Hq as [Hlt|[Heq _]]; [|by symmetry].
    exfalso. by apply (Qlt_not_le _ _ Hlt). }
  destruct (Z.to_nat max_results) as [|m] eqn:E; [lia|].
  by exists (take m ranked).
Qed.

Lemma suggest_known_word_first_witness :
  ∃ others, AgentV3.suggest "cache" 1 AgentV3.default = Ok ("cache" :: others).
Proof.
  apply (suggest_known_word_first "cache" 1 AgentV3.default).
  - apply (bool_decide_unpack _). vm_compute. exact I.
  - lia.
Defined.

(** Every word [suggest] returns has a subsequence in common with the
    query that is at least a fifth as long as the two together, which
    is what a ratio of 0.4 means. *)
Theorem suggest_shares_subsequence (query k : string) (max_results : Z)
    (self : AgentV3.DictionaryAgent) (l : list string) :
  AgentV3.suggest query max_results self = Ok l →
  k ∈ l →
  ∃ s, s `sublist_of` list_ascii_of_string k
       ∧ s `sublist_of` list_ascii_of_string query
       ∧ (String.length k + String.length query ≤ 5 * length s)%nat.
Proof.
  intros Hs Hk.
  destruct (decide (0 < max_results)%Z) as [Hn|Hn].
  2:{ unfold AgentV3.suggest, get_close_matches in Hs.
      by rewrite (proj2 (Z.ltb_ge 0 max_results)) in Hs by lia. }
  destruct (get_close_matches_ranked query (keys (AgentV3.data self))
              max_results (Qmake 4 10) Hn) as (ranked & Hs' & Hp & _);
    [done..|].
  unfold AgentV3.suggest in Hs. rewrite Hs' in Hs. injection Hs as <-.
  apply subseteq_take in Hk. rewrite Hp in Hk.
  apply list_elem_of_In, List.filter_In in Hk as [_ Hq].
  apply Qle_bool_iff in Hq.
  destruct (score_subseq query k) as (s & Hsk & Hsq & Hscore).
  exists s. split_and!; [done..|]. rewrite Hscore in Hq.
  assert (Hlen : ∀ x : string,
            length (list_ascii_of_string x) = String.length x).
  { induction x as [|c x IH]; simpl; [done | by rewrite IH]. }
  rewrite !Hlen in Hq. unfold _calculate_ratio in Hq.
  destruct (String.length k + String.length query)%nat as [|m] eqn:E; [lia|].
  change (S m =? 0)%nat with false in Hq. cbv iota in Hq.
  unfold Qle in Hq. cbn [Qnum Qden] in Hq.
  rewrite <-Pos.of_nat_succ, Zpos_P_of_succ_nat in Hq. lia.
Qed.

Lemma suggest_shares_subsequence_witness :
  ∃ s, s `sublist_of` list_ascii_of_string "cache"
       ∧ s `sublist_of` list_ascii_of_string "cach"
       ∧ (String.length "cache" + String.length "cach" ≤ 5 * length s)%nat.
Proof.
  apply (suggest_shares_subsequence "cach" "cache" 5 AgentV3.default
           ["cache"]).
  - vm_compute. reflexivity.
  - left.
Defined.

End SuggestKnown.

(** ** More on the command line of [agent_ai_gen.py] *)

Section CliMore.
Import PyDict Json JsonSpec AgentAiGen AgentAiGenCli.
Variable lower : string → string.
Variable py : Interpreter.
Variable default_path : string.
Implicit Types (agent : DictionaryAgent) (fs : FileSystem).

Local Abbreviation run_agent := (run_agent lower py default_path).
Local Abbreviation command := (command lower py).
Local Abbreviation start := (load py (mkAgent [] default_path)).

(** [list] prints the words in the order of the file, and a new word
    goes last.  When the initial [load] returns, the default path can
    be written and the word is not a key, [list] on the files that
    [add] leaves prints what it printed before and then the line of the
    new word. *)
Theorem add_then_list_across_runs (w d : string) (ov : bool)
    (stdin stdin' : list string) fs agent :
  start fs = (Ok tt, agent) →
  writable fs default_path = true →
  lookup w agent = None →
  ∃ fs' before,
    run_agent CmdList stdin' fs = Ok (before, 0%Z, fs)
    ∧ run_agent (CmdAdd w d ov) stdin fs = Ok (["added"], 0%Z, fs')
    ∧ run_agent CmdList stdin' fs'
      = Ok ((before ++ [(w ++ ": " ++ d)%string])%list, 0%Z, fs').
Proof.
  intros Hstart Hw Hnew.
  destruct (start_agent py default_path fs agent Hstart)
    as (Hagent & Hd & Hr).
  assert (Habsent : w ∉ keys (_dict agent)) by by apply get_None.
  exists (mkFS (<[default_path := Some (dumps (_dict agent ++ [(w, d)])%list)]>
                  (files fs)) (unreadable fs) (writable fs)),
    (print_words agent).
  split_and!.
  - unfold AgentAiGenCli.run_agent. by rewrite Hstart.
  - unfold AgentAiGenCli.run_agent. rewrite Hstart.
    cbn [mbind result_bind]. unfold add, contains.
    unfold lookup in Hnew. rewrite Hnew. cbn [andb negb].
    rewrite set_absent by done.
    unfold save, write_text, with_dict. rewrite Hagent.
    cbn [storage_path _dict]. by rewrite Hw.
  - unfold AgentAiGenCli.run_agent.
    rewrite (load_saved py (mkAgent [] default_path)).
    + cbn [mbind result_bind]. unfold print_words, list_words, items.
      cbn [_dict with_dict]. by rewrite fmap_app.
    + rewrite <-(set_absent _ _ d) by done. by apply wf_set.
    + done.
Qed.

(** No line typed in the loop replaces a definition: after a round
    that is not [load], a word that had a definition has the same one
    or, if it was removed, none. *)
Theorem interactive_never_overwrites (raw w d : string) agent fs
    (printed : list string) agent' fs' :
  wf (_dict agent) →
  lookup w agent = Some d →
  (∀ cmd rest, Text.split 2 raw = cmd :: rest → lower cmd ≠ "load") →
  command raw agent fs = Ok (printed, agent', fs') →
  lookup w agent' = Some d ∨ lookup w agent' = None.
Proof.
  intros Hwf Hold Hnl. unfold AgentAiGenCli.command.
  destruct (Text.split 2 raw) as [|part0 parts]; [done|].
  specialize (Hnl part0 parts eq_refl).
  set (arg1 := nth 1 (part0 :: parts) EmptyString).
  set (arg2 := nth 2 (part0 :: parts) EmptyString).
  destruct (String.eqb (lower part0) "list"); [intros [= _ <- _]; by left|].
  destruct (String.eqb (lower part0) "lookup" && _).
  { destruct (lookup arg1 agent); intros [= _ <- _]; by left. }
  destruct (String.eqb (lower part0) "add" && _).
  { unfold add, contains.
    destruct (get arg1 (_dict agent)) as [d1|] eqn:E; cbn [andb negb].
    - intros [= _ <- _]. by left.
    - intros [= _ <- _]. left. unfold lookup in *. cbn [_dict with_dict].
      rewrite get_set, decide_False; [done|]. intros ->. congruence. }
  destruct (String.eqb (lower part0) "remove" && _).
  { unfold remove. destruct (get arg1 (_dict agent)) as [d1|] eqn:E.
    - intros [= _ <- _]. unfold lookup in *. cbn [_dict with_dict].
      rewrite get_del by done. case_decide; [by right | by left].
    - intros [= _ <- _]. by left. }
  destruct (String.eqb (lower part0) "save").
  { destruct (save agent fs); [|done..]. intros [= _ <- _]. by left. }
  destruct (String.eqb_spec (lower part0) "load"); [done|].
  intros [= _ <- _]. by left.
Qed.

End CliMore.

Section CliMoreExamples.
Import PyDict Json AgentAiGen AgentAiGenCli.

Local Abbreviation py0 := (mkInterpreter 4300 990 (λ _, EmptyString)).
Local Abbreviation run := (run_agent Str.lower py0 "dictionary.json").
Local Abbreviation disk files := (mkFS files (λ _, false) (λ _, true)).

Lemma add_then_list_across_runs_witness :
  let fs := disk {[ "dictionary.json" := Some (dumps [("map", "m")]) ]} in
  ∃ fs' before,
    run CmdList [] fs = Ok (before, 0%Z, fs)
    ∧ run (CmdAdd "heap" "a tree" false) [] fs = Ok (["added"], 0%Z, fs')
    ∧ run CmdList [] fs'
      = Ok ((before ++ ["heap: a tree"])%list, 0%Z, fs').
Proof.
  intros fs.
  apply (add_then_list_across_runs Str.lower py0
           "dictionary.json" "heap" "a tree" false [] [] fs
           (mkAgent [("map", "m")] "dictionary.json")).
  - vm_compute. reflexivity.
  - reflexivity.
  - reflexivity.
Defined.

Lemma interactive_never_overwrites_witness :
  let agent := mkAgent [("heap", "a tree")] "dictionary.json" in
  let agent' := agent in
  lookup "heap" agent' = Some "a tree" ∨ lookup "heap" agent' = None.
Proof.
  intros agent agent'.
  apply (interactive_never_overwrites Str.lower py0
           "add heap a pile" "heap" "a tree" agent (disk ∅)
           ["exists (use overwrite)"] agent' (disk ∅)).
  - unfold wf. apply (bool_decide_unpack _). vm_compute. exact I.
  - reflexivity.
  - vm_compute. intros cmd rest [= <- _] [=].
  - vm_compute. reflexivity.
Defined.

End CliMoreExamples.
